(** * Hybrid evidence retrieval and no-model fallback ranking

    A shallow embedding of [src/retriever.py] and [src/generator.py]
    and the properties of the retrieval pipeline proved on it.

    Conventions of the embedding:
    - a Python [str] is the list of its Unicode code points ([pystr]);
      string literals of the source are written as UTF-8 literals and
      decoded by [u];
    - a [dict] whose iteration order is observable is an insertion-ordered
      association list ([odict]); a [dict] that is only looked up is a
      [gmap]; a [set] used for membership is a [gset];
    - Python floats are idealised where only order and bounds matter:
      fused ranks are real numbers ([R]) and token-overlap ratios are
      rationals ([Q]); the fusion loops are given in binary64 as well
      ([fuse64]), for what depends on rounding;
    - a raised exception is [None] in the option monad. *)

From Stdlib Require Import String Ascii NArith ZArith QArith Reals Lra Lia List.
From Stdlib Require Import Sorting.Sorted Sorting.Permutation.
From Stdlib Require Floats.PrimFloat Uint63.
From stdpp Require Import gmap list.
Import ListNotations.

#[local] Set Warnings "-register-all,-clear-no-such-hyp,-inexact-float".

(* ====================================================================== *)
(** * Python strings *)
(* ====================================================================== *)

Module Py.

Definition pystr := list N.

(** UTF-8 decoding of a literal (well-formed input assumed; a truncated
    sequence at the end of the input is dropped). *)
Fixpoint utf8_decode (bs : list N) : pystr :=
  match bs with
  | [] => []
  | b0 :: r0 =>
    if (b0 <? 128)%N then b0 :: utf8_decode r0
    else if (b0 <? 224)%N then
      match r0 with
      | b1 :: r1 => ((b0 mod 32) * 64 + b1 mod 64)%N :: utf8_decode r1
      | _ => []
      end
    else if (b0 <? 240)%N then
      match r0 with
      | b1 :: b2 :: r2 =>
        ((b0 mod 16) * 4096 + (b1 mod 64) * 64 + b2 mod 64)%N :: utf8_decode r2
      | _ => []
      end
    else
      match r0 with
      | b1 :: b2 :: b3 :: r3 =>
        ((b0 mod 8) * 262144 + (b1 mod 64) * 4096 + (b2 mod 64) * 64 + b3 mod 64)%N
          :: utf8_decode r3
      | _ => []
      end
  end.

Definition u (s : string) : pystr :=
  utf8_decode (map N_of_ascii (list_ascii_of_string s)).

Definition in_range (lo hi c : N) : bool := ((lo <=? c) && (c <=? hi))%N.

(** [str.isspace] on one code point; the class [\s] of [re] on [str]
    patterns is the same set. *)
Definition is_space (c : N) : bool :=
  in_range 9 13 c || in_range 28 32 c || (c =? 133)%N || (c =? 160)%N
  || (c =? 5760)%N || in_range 8192 8202 c || in_range 8232 8233 c
  || (c =? 8239)%N || (c =? 8287)%N || (c =? 12288)%N.

(** Case mappings outside ASCII and the basic Cyrillic block
    (U+0400..U+045F) come from the Unicode database; they are left
    abstract. A mapping may yield several code points. *)
Class Unicode := {
  upper_ext : N -> list N;
  lower_ext : N -> list N
}.

(** The database restricted to "no case outside ASCII and Cyrillic":
    used to evaluate the model on literals. *)
Definition caseless : Unicode :=
  {| upper_ext := fun c => [c]; lower_ext := fun c => [c] |}.

Section Case.
Context {U : Unicode}.

Definition upper_char (c : N) : list N :=
  if (c <? 128)%N then
    [if in_range 97 122 c then (c - 32)%N else c]
  else if in_range 1024 1119 c then
    [if in_range 1072 1103 c then (c - 32)%N
     else if in_range 1104 1119 c then (c - 80)%N else c]
  else upper_ext c.

Definition lower_char (c : N) : list N :=
  if (c <? 128)%N then
    [if in_range 65 90 c then (c + 32)%N else c]
  else if in_range 1024 1119 c then
    [if in_range 1040 1071 c then (c + 32)%N
     else if in_range 1024 1039 c then (c + 80)%N else c]
  else lower_ext c.

Definition upper (s : pystr) : pystr := flat_map upper_char s.
Definition lower (s : pystr) : pystr := flat_map lower_char s.

End Case.

Fixpoint lstrip (s : pystr) : pystr :=
  match s with
  | c :: r => if is_space c then lstrip r else s
  | [] => []
  end.

Definition rstrip (s : pystr) : pystr := rev (lstrip (rev s)).

(** [s.strip()] *)
Definition strip (s : pystr) : pystr := rstrip (lstrip s).

Definition str_eqb (a b : pystr) : bool := bool_decide (a = b).

Fixpoint startswith (p s : pystr) : bool :=
  match p, s with
  | [], _ => true
  | a :: p', b :: s' => (a =? b)%N && startswith p' s'
  | _ :: _, [] => false
  end.

(** [sub in s] *)
Fixpoint contains (sub s : pystr) : bool :=
  startswith sub s ||
  match s with
  | [] => false
  | _ :: s' => contains sub s'
  end.

(** [s.replace(old, new)] for a non-empty [old]: leftmost,
    non-overlapping occurrences. The fuel is the length of [s]. *)
Fixpoint replace_fuel (fuel : nat) (old new s : pystr) : pystr :=
  match fuel with
  | O => s
  | S fuel' =>
    match s with
    | [] => []
    | c :: s' =>
      if startswith old s
      then new ++ replace_fuel fuel' old new (drop (length old) s)
      else c :: replace_fuel fuel' old new s'
    end
  end.

Definition replace (old new s : pystr) : pystr :=
  replace_fuel (length s) old new s.

(** ["sep".join(parts)] *)
Fixpoint join (sep : pystr) (parts : list pystr) : pystr :=
  match parts with
  | [] => []
  | [p] => p
  | p :: rest => p ++ sep ++ join sep rest
  end.

(** Maximal runs of characters of a class: [re.findall(r'[class]+', s)]. *)
Fixpoint runs_aux (cls : N -> bool) (cur : pystr) (s : pystr) : list pystr :=
  match s with
  | [] => match cur with [] => [] | _ => [rev cur] end
  | c :: r =>
    if cls c then runs_aux cls (c :: cur) r
    else match cur with
         | [] => runs_aux cls [] r
         | _ => rev cur :: runs_aux cls [] r
         end
  end.

Definition findall_runs (cls : N -> bool) (s : pystr) : list pystr :=
  runs_aux cls [] s.

(** Ordering of [str]: lexicographic on code points. *)
Fixpoint str_compare (a b : pystr) : comparison :=
  match a, b with
  | [], [] => Eq
  | [], _ :: _ => Lt
  | _ :: _, [] => Gt
  | x :: a', y :: b' =>
    match (x ?= y)%N with
    | Eq => str_compare a' b'
    | o => o
    end
  end.

(** [str(n)] for a natural number. *)
Fixpoint digits_fuel (fuel : nat) (n : N) (acc : pystr) : pystr :=
  match fuel with
  | O => acc
  | S f =>
    let acc' := (48 + n mod 10)%N :: acc in
    if (n <? 10)%N then acc' else digits_fuel f (n / 10)%N acc'
  end.

Definition str_of_nat (n : nat) : pystr :=
  digits_fuel (S n) (N.of_nat n) [].

End Py.
Import Py.


(* ====================================================================== *)
(** * Shared containers *)
(* ====================================================================== *)

(** Insertion-ordered [dict] with [str] keys. *)
Definition odict (V : Type) := list (pystr * V).

Fixpoint odict_get {V} (d : odict V) (k : pystr) : option V :=
  match d with
  | [] => None
  | (k', v) :: d' => if str_eqb k' k then Some v else odict_get d' k
  end.

(** [d[k] = v]: an existing key keeps its position. *)
Fixpoint odict_set {V} (d : odict V) (k : pystr) (v : V) : odict V :=
  match d with
  | [] => [(k, v)]
  | (k', v') :: d' =>
    if str_eqb k' k then (k', v) :: d' else (k', v') :: odict_set d' k v
  end.

(** [sorted(l, key=...)] is stable; [le x y] says that [x] may stand
    before [y]. For [reverse=True] the order on keys is flipped, which
    keeps equal keys in their original order, as Python does. *)
Fixpoint insert_sorted {A} (le : A -> A -> bool) (x : A) (l : list A) : list A :=
  match l with
  | [] => [x]
  | y :: l' => if le x y then x :: l else y :: insert_sorted le x l'
  end.

Fixpoint sorted {A} (le : A -> A -> bool) (l : list A) : list A :=
  match l with
  | [] => []
  | x :: l' => insert_sorted le x (sorted le l')
  end.

Definition Rleb (a b : R) : bool := if Rle_dec a b then true else false.

(* ====================================================================== *)
(** * retriever.py *)
(* ====================================================================== *)

(** An entry of [icd_codes] as loaded from JSON: a string, or another
    value kept by its [str()] rendering. *)
Inductive code_val :=
| CStr (s : pystr)
| COther (rendering : pystr).

Definition py_str (c : code_val) : pystr :=
  match c with CStr s => s | COther r => r end.

(** A chunk dictionary. [protocol_id = None] is an absent key; an absent
    [source_file] or [text] reads as the empty string and an absent or
    null [icd_codes] as the empty list, as every [.get] of the source
    defaults them. The last four fields are the keys added by retrieval. *)
Record chunk := {
  protocol_id : option pystr;
  source_file : pystr;
  text : pystr;
  icd_codes : list code_val;
  _all_icd_codes : option (list pystr);
  _retrieval_source : option pystr;
  _rrf_score : option R;
  _rerank_score : option R
}.

(** [c.get("protocol_id", "")] *)
Definition pid_of (c : chunk) : pystr := default [] (protocol_id c).

(** External collaborators of the retriever, and the parts of the source
    that are regular-expression or table driven and on which no property
    below depends. *)
Class Oracles := {
  (** [HybridRetriever._is_junk] *)
  _is_junk : pystr -> bool;
  (** payloads of [qdrant.query_points(query=embed(text), limit=k).points] *)
  dense_search : pystr -> nat -> list chunk;
  (** [np.argsort(bm25.get_scores(tokens(query)))[::-1]] *)
  bm25_order : pystr -> list nat;
  (** [reranker.predict(pairs)] *)
  reranker_predict : list (pystr * pystr) -> list R;
  (** the table [SYMPTOM_EXPANSIONS] *)
  SYMPTOM_EXPANSIONS : list (list pystr * pystr)
}.

Record HybridRetriever := {
  chunks : list chunk;
  _pid_n : gmap pystr nat;
  _pid_icd : gmap pystr (list pystr);
  _pid_title : gmap pystr pystr;
  _code_idx : gmap pystr (list chunk);
  _title_idx : gmap pystr (gset pystr)
}.

Definition is_AZ09 (c : N) : bool := in_range 65 90 c || in_range 48 57 c.
Definition is_title_char (c : N) : bool :=
  in_range 1072 1103 c || (c =? 1105)%N || in_range 97 122 c.

Section Retriever.
Context {U : Unicode} {O : Oracles}.

Definition _canon (code : pystr) : pystr :=
  let c := strip (upper code) in
  let c := List.filter (fun x => negb (is_space x || (x =? 46)%N)) c in
  List.filter is_AZ09 c.

Definition _size_penalty (n : nat) : R :=
  (1 / (1 + ln (1 + INR n / 5)))%R.

(** One registration [idx.setdefault(key, []); if len(idx[key]) < cap:
    idx[key].append(c)]. *)
Definition register (cap : nat) (key : pystr) (c : chunk)
    (idx : gmap pystr (list chunk)) : gmap pystr (list chunk) :=
  let l := default [] (idx !! key) in
  if decide (length l < cap) then <[key := l ++ [c]]> idx else <[key := l]> idx.

Definition index_code (c : chunk) (self : HybridRetriever) (code : code_val)
    : HybridRetriever :=
  match code with
  | COther _ => self
  | CStr raw =>
    match strip raw with
    | [] => self
    | code =>
      let pid := pid_of c in
      let codes := default [] (_pid_icd self !! pid) in
      let codes := if bool_decide (code ∈ codes) then codes else codes ++ [code] in
      let key := _canon code in
      let pfx := take 3 key in
      {| chunks := chunks self;
         _pid_n := _pid_n self;
         _pid_icd := <[pid := codes]> (_pid_icd self);
         _pid_title := _pid_title self;
         _code_idx := register 5 pfx c (register 3 key c (_code_idx self));
         _title_idx := _title_idx self |}
    end
  end.

Definition index_title (pid src : pystr) (self : HybridRetriever) : HybridRetriever :=
  match _pid_title self !! pid with
  | Some _ => self
  | None =>
    let title_words := findall_runs is_title_char (replace (u ".pdf") [] (lower src)) in
    {| chunks := chunks self;
       _pid_n := _pid_n self;
       _pid_icd := _pid_icd self;
       _pid_title := <[pid := src]> (_pid_title self);
       _code_idx := _code_idx self;
       _title_idx :=
         fold_left
           (fun idx w =>
              if decide (3 < length w)
              then <[w := {[pid]} ∪ default ∅ (idx !! w)]> idx else idx)
           title_words (_title_idx self) |}
  end.

Definition index_chunk (self : HybridRetriever) (c : chunk) : HybridRetriever :=
  let pid := pid_of c in
  let self :=
    {| chunks := chunks self;
       _pid_n := <[pid := (default 0 (_pid_n self !! pid) + 1)%nat]> (_pid_n self);
       _pid_icd := _pid_icd self;
       _pid_title := _pid_title self;
       _code_idx := _code_idx self;
       _title_idx := _title_idx self |} in
  let self := index_title pid (source_file c) self in
  fold_left (index_code c) (icd_codes c) self.

(** [HybridRetriever.__init__], for the chunk list read from the index. *)
Definition __init__ (cs : list chunk) : HybridRetriever :=
  fold_left index_chunk cs
    {| chunks := cs; _pid_n := ∅; _pid_icd := ∅; _pid_title := ∅;
       _code_idx := ∅; _title_idx := ∅ |}.

Definition _enrich (self : HybridRetriever) (c : chunk) (source : pystr) : chunk :=
  {| protocol_id := protocol_id c;
     source_file := source_file c;
     text := text c;
     icd_codes := icd_codes c;
     _all_icd_codes := Some (default [] (_pid_icd self !! pid_of c));
     _retrieval_source := Some source;
     _rrf_score := _rrf_score c;
     _rerank_score := _rerank_score c |}.

Definition reformulate_query (query : pystr) : pystr :=
  let q_lower := lower query in
  let expansions :=
    map snd (List.filter (fun rule => existsb (fun kw => contains kw q_lower) (fst rule))
                         SYMPTOM_EXPANSIONS) in
  match expansions with
  | [] => query
  | _ => query ++ u " " ++ join (u " ") expansions
  end.

(** Iteration over a [set] has no specified order in Python; the model
    visits the identifiers in the order of [elements]. *)
Definition retrieve_by_title_words (self : HybridRetriever) (clinical_query : pystr)
    : list chunk :=
  let words := findall_runs is_title_char (lower clinical_query) in
  let pid_scores : odict nat :=
    fold_left
      (fun sc w =>
         if decide (length w < 4) then sc
         else fold_left
                (fun sc pid => odict_set sc pid (default 0 (odict_get sc pid) + 1)%nat)
                (elements (default ∅ (_title_idx self !! w))) sc)
      words [] in
  let ranked := sorted (fun x y => (snd y <=? snd x)%nat) pid_scores in
  let step (st : gset pystr * list chunk) (entry : pystr * nat) :=
    let '(seen, results) := st in
    let pid := fst entry in
    if bool_decide (pid ∈ seen) then st
    else
      let seen := {[pid]} ∪ seen in
      match List.find (fun c => bool_decide (protocol_id c = Some pid)
                                && negb (_is_junk (text c))) (chunks self) with
      | Some c => (seen, results ++ [_enrich self c (u "title_lookup")])
      | None => (seen, results)
      end in
  snd (fold_left step ranked (∅, [])).

Definition retrieve_by_codes (self : HybridRetriever) (icd_codes : list pystr)
    : list chunk :=
  let step (st : gset pystr * list chunk) (chunk : chunk) :=
    let '(seen, results) := st in
    let pid := pid_of chunk in
    if negb (bool_decide (pid ∈ seen)) && negb (_is_junk (text chunk))
    then ({[pid]} ∪ seen, results ++ [_enrich self chunk (u "code_lookup")])
    else st in
  let visited :=
    flat_map
      (fun code =>
         let canon := _canon code in
         flat_map (fun key => default [] (_code_idx self !! key))
                  [canon; take 3 canon; take 4 canon])
      icd_codes in
  snd (fold_left step visited (∅, [])).

(** State of the fusion loops: the [rrf] dictionary and [pid_to_chunk]. *)
Definition fusion := (odict R * gmap pystr chunk)%type.

(** The damping factor [p] of a protocol, in exact arithmetic: [0.1] is
    the real number one tenth here, where the source has the double
    nearest to it and rounds every operation. What depends on the
    rounding is stated on [damping64] and [fuse64] below. *)
Definition damping (self : HybridRetriever) (DEPRIORITIZED_PROTOCOLS : gset pystr)
    (pid : pystr) : R :=
  let n := default 1%nat (_pid_n self !! pid) in
  (_size_penalty n *
   (if bool_decide (pid ∈ DEPRIORITIZED_PROTOCOLS) then 0.1 else 1.0))%R.

Definition rrf_add (rrf : odict R) (pid : pystr) (rank : nat) (p : R) : odict R :=
  odict_set rrf pid (default 0%R (odict_get rrf pid) + (1.0 / (INR rank + 60)) * p)%R.

Definition dense_step (self : HybridRetriever) (D : gset pystr)
    (st : fusion) (entry : nat * chunk) : fusion :=
  let '(rrf, pid_to_chunk) := st in
  let '(rank, hit) := entry in
  if _is_junk (text hit) then st
  else
    let pid := pid_of hit in
    match pid_to_chunk !! pid with
    | Some _ => st
    | None => (rrf_add rrf pid rank (damping self D pid), <[pid := hit]> pid_to_chunk)
    end.

Definition bm25_step (self : HybridRetriever) (D : gset pystr)
    (st : fusion) (entry : nat * chunk) : fusion :=
  let '(rrf, pid_to_chunk) := st in
  let '(rank, chunk) := entry in
  if _is_junk (text chunk) then st
  else
    let pid := pid_of chunk in
    (rrf_add rrf pid rank (damping self D pid),
     match pid_to_chunk !! pid with
     | Some _ => pid_to_chunk
     | None => <[pid := chunk]> pid_to_chunk
     end).

(** [enumerate(l)] *)
Definition enumerate {A} (l : list A) : list (nat * A) :=
  combine (seq 0 (length l)) l.

(** [self.chunks[idx]] for each index of [bm25_top]; an index out of
    range raises. *)
Definition bm25_chunks (self : HybridRetriever) (query : pystr) (candidate_k : nat)
    : option (list chunk) :=
  mapM (fun idx => chunks self !! idx) (take candidate_k (bm25_order query)).

(** The two fusion loops of [retrieve_semantic]. *)
Definition fuse (self : HybridRetriever) (D : gset pystr)
    (dense_hits bm25_hits : list chunk) : fusion :=
  let st := fold_left (dense_step self D) (enumerate dense_hits) ([], ∅) in
  fold_left (bm25_step self D) (enumerate bm25_hits) st.

Definition with_rrf_score (c : chunk) (s : R) : chunk :=
  {| protocol_id := protocol_id c;
     source_file := source_file c;
     text := text c;
     icd_codes := icd_codes c;
     _all_icd_codes := _all_icd_codes c;
     _retrieval_source := _retrieval_source c;
     _rrf_score := Some s;
     _rerank_score := _rerank_score c |}.

Definition semantic_results (self : HybridRetriever) (st : fusion) : list chunk :=
  let '(rrf, pid_to_chunk) := st in
  flat_map
    (fun entry : pystr * R =>
       match pid_to_chunk !! (fst entry) with
       | None => []
       | Some c => [with_rrf_score (_enrich self c (u "semantic")) (snd entry)]
       end)
    (sorted (fun x y => Rleb (snd y) (snd x)) rrf).

Definition retrieve_semantic (self : HybridRetriever)
    (DEPRIORITIZED_PROTOCOLS : gset pystr) (query : pystr) (candidate_k : nat)
    : option (list chunk) :=
  let dense_hits := dense_search (u "query: " ++ query) candidate_k in
  bm25_hits ← bm25_chunks self query candidate_k;
  Some (semantic_results self (fuse self DEPRIORITIZED_PROTOCOLS dense_hits bm25_hits)).

Definition with_rerank_score (c : chunk) (s : R) : chunk :=
  {| protocol_id := protocol_id c;
     source_file := source_file c;
     text := text c;
     icd_codes := icd_codes c;
     _all_icd_codes := _all_icd_codes c;
     _retrieval_source := _retrieval_source c;
     _rrf_score := _rrf_score c;
     _rerank_score := Some s |}.

(** The loop of [rerank] over the sorted pairs, with its [break]. *)
Fixpoint rerank_loop (top_k : nat) (seen : gset pystr) (result : list chunk)
    (l : list (R * chunk)) : list chunk :=
  match l with
  | [] => result
  | (score, chunk) :: l' =>
    let pid := pid_of chunk in
    if bool_decide (pid ∈ seen) then rerank_loop top_k seen result l'
    else
      let result := result ++ [with_rerank_score chunk score] in
      if decide (top_k <= length result) then result
      else rerank_loop top_k ({[pid]} ∪ seen) result l'
  end.

Definition rerank (self : HybridRetriever) (query : pystr) (candidates : list chunk)
    (top_k : nat) : list chunk :=
  match candidates with
  | [] => []
  | _ =>
    let doc (c : chunk) :=
      let pid := pid_of c in
      let title := replace (u ".pdf") [] (default [] (_pid_title self !! pid)) in
      let codes := default [] (_pid_icd self !! pid) in
      let icd_str := join (u ", ") (take 6 codes) in
      u "[Протокол: " ++ title ++ u ". МКБ-10: " ++ icd_str ++ u ". "
        ++ take 400 (text c) ++ u "]" in
    let pairs := map (fun c => (query, doc c)) candidates in
    let scores := reranker_predict pairs in
    rerank_loop top_k ∅ []
      (sorted (fun x y => Rleb (fst y) (fst x)) (combine scores candidates))
  end.

(** The closure [add] of [retrieve] on the pair [(seen, all_candidates)]. *)
Definition merged := (gset pystr * list chunk)%type.

Definition add (st : merged) (cs : list chunk) : merged :=
  fold_left
    (fun (st : merged) c =>
       let pid := pid_of c in
       if bool_decide (pid ∈ st.1) then st else ({[pid]} ∪ st.1, st.2 ++ [c]))
    cs st.

(** The candidate lists handed to [add], in the order of the calls. *)
Definition candidate_sources (self : HybridRetriever) (D : gset pystr)
    (query : pystr) (candidate_codes : option (list pystr))
    (hyde_query : option pystr) (extra_queries : option (list pystr))
    : option (list (list chunk)) :=
  let clinical_query := reformulate_query query in
  let title := retrieve_by_title_words self clinical_query in
  let codes :=
    match candidate_codes with
    | Some (c :: cs) => [retrieve_by_codes self (c :: cs)]
    | _ => []
    end in
  sem ← retrieve_semantic self D clinical_query 100;
  hyde ←
    match hyde_query with
    | Some (h :: hs) =>
      if negb (str_eqb (h :: hs) query)
      then l ← retrieve_semantic self D (h :: hs) 60; Some [l]
      else Some []
    | _ => Some []
    end;
  extra ←
    mapM (fun eq => retrieve_semantic self D eq 40)
         (List.filter (fun eq => negb (str_eqb eq []) && negb (str_eqb eq query))
                      (default [] extra_queries));
  Some ([title] ++ codes ++ [sem] ++ hyde ++ extra).

(** [all_candidates] at the point where [retrieve] calls [rerank]. *)
Definition all_candidates (self : HybridRetriever) (D : gset pystr)
    (query : pystr) (candidate_codes : option (list pystr))
    (hyde_query : option pystr) (extra_queries : option (list pystr))
    : option (list chunk) :=
  srcs ← candidate_sources self D query candidate_codes hyde_query extra_queries;
  Some (fold_left add srcs (∅, [])).2.

Definition retrieve (self : HybridRetriever) (D : gset pystr)
    (query : pystr) (candidate_codes : option (list pystr)) (top_k : nat)
    (hyde_query : option pystr) (extra_queries : option (list pystr))
    : option (list chunk) :=
  cands ← all_candidates self D query candidate_codes hyde_query extra_queries;
  Some (rerank self query cands top_k).

End Retriever.

(* ====================================================================== *)
(** * generator.py *)
(* ====================================================================== *)

(** The table [ICD_DESCRIPTIONS] (its keys are pairwise distinct). *)
Definition ICD_DESCRIPTIONS : odict pystr := [
  (u "I44.0",
   u "предсердно-желудочковая блокада первой степени AV блокада 1 степени удлинение PQ интервала");
  (u "I44.1",
   u "предсердно-желудочковая блокада второй степени AV блокада 2 степени Мобитц выпадение QRS");
  (u "I44.2",
   u "предсердно-желудочковая блокада полная третья степень полная поперечная блокада");
  (u "I44.3",
   u "другая неуточнённая предсердно-желудочковая блокада AV");
  (u "I45.2",
   u "двухпучковая блокада бифасцикулярная блокада ножек");
  (u "I49.5",
   u "синдром слабости синусового узла СССУ брадикардия паузы");
  (u "I47.1",
   u "наджелудочковая тахикардия пароксизм");
  (u "I47.2",
   u "желудочковая тахикардия пароксизм");
  (u "I48.0",
   u "фибрилляция предсердий пароксизмальная мерцательная аритмия");
  (u "I49.0",
   u "фибрилляция трепетание желудочков");
  (u "K58.0",
   u "синдром раздражённого кишечника с диареей понос");
  (u "K58.9",
   u "синдром раздражённого кишечника без диареи запор");
  (u "K58",
   u "синдром раздражённого кишечника СРК функциональное расстройство");
  (u "K81.0",
   u "острый холецистит желчный пузырь воспаление острое");
  (u "K81.1",
   u "хронический холецистит желчный пузырь воспаление хроническое");
  (u "K80.0",
   u "камни желчного пузыря с острым холециститом ЖКБ");
  (u "K80.1",
   u "камни желчного пузыря с другим холециститом");
  (u "K80.2",
   u "камни желчного пузыря без холецистита желчнокаменная болезнь");
  (u "A03.0",
   u "шигеллёз вызванный Shigella dysenteriae дизентерия кровь слизь");
  (u "A03.9",
   u "шигеллёз неуточнённый дизентерия");
  (u "A02.0",
   u "сальмонеллёзный энтерит гастроэнтерит сальмонелла");
  (u "A02.1",
   u "сальмонеллёзная септицемия сепсис");
  (u "A02.2",
   u "локализованная сальмонеллёзная инфекция");
  (u "N94.3",
   u "предменструальный синдром ПМС боли перед менструацией");
  (u "N94.4",
   u "первичная дисменорея болезненные менструации альгодисменорея");
  (u "N94.5",
   u "вторичная дисменорея эндометриоз");
  (u "N94.6",
   u "дисменорея неуточнённая");
  (u "J04.0",
   u "острый ларингит воспаление гортани осиплость охриплость");
  (u "J04.1",
   u "острый трахеит воспаление трахеи");
  (u "J04.2",
   u "острый ларинготрахеит");
  (u "J02.0",
   u "стрептококковый фарингит");
  (u "J02.9",
   u "острый фарингит неуточнённый боль горло");
  (u "C53.0",
   u "злокачественное новообразование эндоцервикса шейка матки");
  (u "C53.1",
   u "злокачественное новообразование экзоцервикса шейка матки");
  (u "C53.8",
   u "злокачественное новообразование шейки матки перекрёстное поражение");
  (u "C53.9",
   u "злокачественное новообразование шейки матки неуточнённое рак");
  (u "L10.0",
   u "пузырчатка обыкновенная аутоиммунный буллёзный дерматоз");
  (u "L10.1",
   u "пузырчатка вегетирующая");
  (u "L12.0",
   u "буллёзный пемфигоид волдыри кожа");
  (u "F60.0",
   u "параноидное расстройство личности подозрительность");
  (u "F60.1",
   u "шизоидное расстройство личности замкнутость");
  (u "F60.2",
   u "диссоциальное расстройство личности антисоциальное");
  (u "F60.3",
   u "эмоционально неустойчивое расстройство личности импульсивность");
  (u "F44.0",
   u "диссоциативная амнезия потеря памяти психогенная");
  (u "F44.1",
   u "диссоциативная фуга бродяжничество потеря личности вокзал");
  (u "F44.8",
   u "другие диссоциативные расстройства конверсионные");
  (u "F32.0",
   u "лёгкий депрессивный эпизод подавленность");
  (u "F32.1",
   u "умеренный депрессивный эпизод депрессия средняя");
  (u "F32.2",
   u "тяжёлый депрессивный эпизод суицидальные мысли");
  (u "G40.0",
   u "локализованная идиопатическая эпилепсия фокальные судороги");
  (u "G40.3",
   u "генерализованная идиопатическая эпилепсия тонико-клонические");
  (u "G40.9",
   u "эпилепсия неуточнённая судороги приступ");
  (u "Y45.1",
   u "НПВС нестероидные противовоспалительные ацетилсалициловая аспирин гастропатия");
  (u "Y45.2",
   u "салицилаты лекарственная язва желудка");
  (u "Y45.3",
   u "другие НПВС нестероидные поражение желудка ибупрофен диклофенак");
  (u "Q61.0",
   u "одиночная киста почки врождённая");
  (u "Q61.3",
   u "поликистоз почек аутосомно-рецессивный дети");
  (u "Q61.4",
   u "кистозная дисплазия почки");
  (u "Q62.0",
   u "врождённый гидронефроз расширение лоханки");
  (u "Q62.2",
   u "врождённое сужение мочеточника стеноз");
  (u "N13.5",
   u "перегиб стриктура мочеточника без гидронефроза обструкция");
  (u "F18.0",
   u "острая интоксикация ингалянтами клей растворитель нюхает");
  (u "F18.1",
   u "употребление ингалянтов с вредными последствиями токсикомания");
  (u "F18.2",
   u "синдром зависимости от ингалянтов хроническая токсикомания");
  (u "F18.8",
   u "другие психические расстройства ингалянты");
  (u "F16.0",
   u "острая интоксикация галлюциногенами ЛСД психоделики");
  (u "F16.1",
   u "употребление галлюциногенов с вредными последствиями");
  (u "F16.2",
   u "синдром зависимости от галлюциногенов");
  (u "M81.0",
   u "постменопаузальный остеопороз переломы женщины климакс");
  (u "M81.1",
   u "остеопороз после удаления яичников");
  (u "I73.0",
   u "синдром Рейно вазоспазм пальцы белеют синеют");
  (u "F06.6",
   u "органическое эмоционально лабильное расстройство постковид хроническая усталость");
  (u "F41.2",
   u "смешанное тревожное и депрессивное расстройство");
  (u "Q78.1",
   u "полиостотическая фиброзная дисплазия костей врождённая патологические переломы")
].

(** The table [KEYWORD_ICD_MAP]: rules (keywords, codes). *)
Definition KEYWORD_ICD_MAP : list (list pystr * list pystr) := [
  ([u "очнулась"; u "не помнила кто"; u "не помню кто"; u "потеря памяти"; u "вокзал не помню"; u "вспомнила через"; u "не знала кто я"; u "не помнила как"],
   [u "F44.1"; u "F44.0"; u "F44.8"]);
  ([u "галлюцинац"; u "голоса в голове"; u "голоса слышу"; u "видения"; u "преследуют"; u "заговор"],
   [u "F20.0"; u "F20.9"; u "F23.0"]);
  ([u "тревог"; u "паник"; u "страх навязчив"; u "руки трясутся страх"],
   [u "F41.0"; u "F41.1"; u "F40.0"]);
  ([u "депресс"; u "подавлен"; u "ничего не хочу"; u "нет смысла"; u "слёзы без причины"],
   [u "F32.0"; u "F32.1"; u "F32.2"]);
  ([u "судорог"; u "трясётся"; u "конвульс"; u "упал потерял сознание трясся"; u "приступ пена рот"],
   [u "G40.0"; u "G40.3"; u "G40.9"]);
  ([u "мигрен"; u "боль голова одна сторона"; u "тошнота свет"; u "фотофобия голова"],
   [u "G43.0"; u "G43.1"]);
  ([u "удар головой"; u "травма головы"; u "после аварии голова"; u "потерял сознание упал"],
   [u "S06.0"; u "S06.3"; u "S09.9"]);
  ([u "слабоумие"; u "деменция"; u "не узнаёт близких"; u "забывает всё"],
   [u "F00.0"; u "F00.9"]);
  ([u "рассеянный склероз"; u "двоится в глазах слабость"; u "нарушение равновесия прогрессирует"],
   [u "G35"]);
  ([u "инсульт"; u "афазия"; u "паралич лица"; u "онемение половина тела"],
   [u "I63.9"; u "I64"]);
  ([u "замирает сердце"; u "пропускает удар"; u "пауза пульс"; u "брадикард"; u "редкий пульс"; u "остановка сердца ощущение"; u "ав блокад"; u "av блокада"; u "блокада сердца"; u "нарушение проводимости сердца"],
   [u "I44.1"; u "I44.2"; u "I44.0"; u "I49.5"]);
  ([u "учащённое сердцебиение"; u "сердце колотится"; u "тахикард"; u "аритм"],
   [u "I47.1"; u "I48.0"; u "I49.0"]);
  ([u "боль грудь нагрузка"; u "давит грудь"; u "стенокардия"],
   [u "I20.0"; u "I20.9"; u "I25.1"]);
  ([u "инфаркт"; u "острая боль грудь холодный пот"; u "боль грудь рука левая"],
   [u "I21.0"; u "I21.9"]);
  ([u "гипертон"; u "давление высокое"; u "гипертензия"],
   [u "I10"; u "I11.0"]);
  ([u "пальцы белеют"; u "пальцы синеют холод"; u "белеют пальцы мёрзнут"; u "рейно"; u "вазоспазм пальцев"],
   [u "I73.0"]);
  ([u "осиплость"; u "потеряла голос"; u "хрипота"; u "першение горло"; u "ларингит"],
   [u "J04.0"; u "J04.1"; u "J04.2"]);
  ([u "боль горло"; u "красное горло температура"; u "белый налёт миндалины"; u "ангин"],
   [u "J03.9"; u "J35.0"]);
  ([u "кашель температура одышка"; u "боль грудь дыхание"; u "воспаление лёгких"; u "пневмони"],
   [u "J18.1"; u "J15.0"; u "J18.9"]);
  ([u "астм"; u "свист дыхание"; u "удушье приступ"; u "бронхоспазм"],
   [u "J45.0"; u "J45.9"]);
  ([u "боль живот вздутие"; u "меняется стул"; u "запор понос чередуются"; u "срк"],
   [u "K58.0"; u "K58.9"]);
  ([u "кровь кал"; u "понос кровь"; u "слизь кровь стул"; u "дизентери"; u "шигелл"],
   [u "A03.0"; u "A03.9"]);
  ([u "боль правый бок еда"; u "горечь рот"; u "камни желчный"; u "желтуха боль бок"],
   [u "K81.0"; u "K81.1"; u "K80.2"]);
  ([u "цирроз"; u "асцит"; u "живот увеличен"],
   [u "K74.5"; u "K74.6"]);
  ([u "изжога"; u "боль желудок голодная"; u "язва желудок"],
   [u "K25.0"; u "K29.7"; u "K21.0"]);
  ([u "нпвс"; u "аспирин желудок"; u "ибупрофен желудок"; u "диклофенак желудок"; u "от таблеток желудок"],
   [u "Y45.1"; u "Y45.2"; u "Y45.3"]);
  ([u "кровь моча"; u "гематурия"; u "розовая моча"; u "моча красная"],
   [u "N02.9"; u "Q61.4"; u "N20.0"]);
  ([u "пиелонефрит"; u "жжение мочеиспускание"; u "боль поясница температура моча"],
   [u "N10"; u "N11.0"]);
  ([u "мочекаменн"; u "камни почки"; u "почечная колика"],
   [u "N20.0"; u "N20.1"]);
  ([u "кисты почки"; u "поликистоз"; u "кистозная почка"],
   [u "Q61.3"; u "Q61.4"; u "Q61.0"]);
  ([u "мочеточник сужение"; u "гидронефроз"; u "расширение лоханки"; u "аномалия мочеточника"],
   [u "Q62.2"; u "Q62.0"; u "N13.5"]);
  ([u "болезненные месячные"; u "боль месячные"; u "дисменорея"; u "альгодисменорея"],
   [u "N94.4"; u "N94.5"; u "N94.6"]);
  ([u "предменструальный"; u "пмс"; u "перед месячными"],
   [u "N94.3"]);
  ([u "эндометриоз"; u "боль низ живота женщина вне месячных"],
   [u "N80.0"; u "N80.9"]);
  ([u "рак шейки матки"; u "онкология шейки"; u "мазок онкология"; u "кровотечение шейка"],
   [u "C53.0"; u "C53.8"; u "C53.9"]);
  ([u "миома"; u "узлы матка"; u "обильные месячные"; u "лейомиома"],
   [u "D25.0"; u "D25.1"; u "D25.9"]);
  ([u "беременность"; u "тошнота рвота беременная"; u "задержка"],
   [u "O21.0"; u "O26.6"]);
  ([u "выкидыш"; u "самопроизвольный аборт"],
   [u "O03.0"; u "O03.9"]);
  ([u "перелом"; u "рентген трещина кость"],
   [u "S32.2"; u "S32.0"; u "S42.0"]);
  ([u "боль спина"; u "поясничная боль"; u "остеохондроз"],
   [u "M54.5"; u "M51.1"]);
  ([u "артрит"; u "воспаление суставов"; u "ревматоидный"],
   [u "M06.0"; u "M05.0"]);
  ([u "остеопороз"; u "хрупкие кости переломы без травмы"],
   [u "M81.0"; u "M81.1"]);
  ([u "ребёнок кровь моча"; u "отёки лицо ребёнок"; u "моча тёмная ребёнок"],
   [u "Q61.4"; u "N04.9"; u "N00.9"]);
  ([u "гиперактивность"; u "сдвг"; u "невнимательность ребёнка"],
   [u "F90.0"; u "F90.9"]);
  ([u "патологические переломы ребёнок"; u "фиброзная дисплазия"],
   [u "Q78.1"]);
  ([u "туберкулёз"; u "кашель кровь длительный"; u "ночная потливость похудение кашель"],
   [u "A15.0"; u "A15.3"]);
  ([u "герпес"; u "пузыри губах"; u "герпетический стоматит"],
   [u "B00.2"; u "A60.0"]);
  ([u "лихорадка денге"; u "тропическая лихорадка"; u "сыпь после тропических стран"],
   [u "A90"; u "A91"]);
  ([u "опухоль головного мозга"; u "глиом"; u "нарастающая головная боль рвота"],
   [u "C71.0"; u "C71.9"; u "D33.0"; u "D33.1"]);
  ([u "лимфом"; u "увеличены лимфоузлы ночная потливость"],
   [u "C81.0"; u "C82.0"]);
  ([u "миелодиспласт"; u "рефрактерная анемия"; u "бласты крови"],
   [u "D46.2"; u "D46.4"]);
  ([u "диабет"; u "высокий сахар"; u "жажда много пью много мочусь"],
   [u "E11.9"; u "E10.9"]);
  ([u "щитовидная"; u "гипотиреоз"; u "гипертиреоз"; u "зоб"],
   [u "E03.9"; u "E05.0"]);
  ([u "псориаз"; u "хроническая сыпь чешуйки бляшки"],
   [u "L40.0"; u "L40.9"]);
  ([u "пузыри на коже"; u "пемфигус"; u "буллёзн"; u "пузырчатка"; u "волдыри тело"],
   [u "L10.0"; u "L10.1"; u "L12.0"]);
  ([u "расстройство личности"; u "параноидн"; u "подозрительн характер"; u "вспышки ярости"; u "психопат"],
   [u "F60.0"; u "F60.1"; u "F60.2"; u "F60.3"]);
  ([u "ингалянт"; u "клей нюхает"; u "растворитель нюхает"; u "ацетон нюхает"; u "токсикомания ингалянт"],
   [u "F18.0"; u "F18.1"; u "F18.2"; u "F18.8"]);
  ([u "галлюциноген"; u "психоделик"; u "лсд"; u "грибы наркотик"],
   [u "F16.0"; u "F16.1"; u "F16.2"]);
  ([u "постковид"; u "после ковида"; u "долгий ковид"; u "хроническая усталость после covid"],
   [u "F06.6"; u "F41.2"; u "F32.0"]);
  ([u "блокада ножки пучка"; u "неполная блокада"; u "бифасцикулярная"],
   [u "I45.2"; u "I44.1"; u "I44.0"]);
  ([u "слабость синусового узла"; u "сссу"; u "синусовая брадикардия выраженная"],
   [u "I49.5"; u "I44.1"])
].

(** Values produced by [json.loads] and the dictionaries built from them.
    A float is kept as a decimal [mantissa * 10 ^ exponent]. *)
Inductive json :=
| JNull
| JBool (b : bool)
| JInt (z : Z)
| JFloat (mantissa exponent : Z)
| JNaN
| JInf (negative : bool)
| JStr (s : pystr)
| JArr (items : list json)
| JObj (entries : list (pystr * json)).

(** Truth value of a Python object. *)
Definition truthy (v : json) : bool :=
  match v with
  | JNull => false
  | JBool b => b
  | JInt z => negb (z =? 0)%Z
  | JFloat m _ => negb (m =? 0)%Z
  | JNaN | JInf _ => true
  | JStr s => negb (str_eqb s [])
  | JArr l => match l with [] => false | _ => true end
  | JObj l => match l with [] => false | _ => true end
  end.

(** The stage-1 prediction handed to the fallback: [full_codes] (an absent
    or null entry reads as the empty set) and the [icd10] entry of each
    element of [candidates] (an absent entry reads as the empty string). *)
Record candidate := { icd10 : pystr }.

Record stage1_prediction := {
  full_codes : gset pystr;
  candidates : list candidate
}.

Definition is_token_char (c : N) : bool :=
  in_range 1072 1103 c || (c =? 1105)%N || in_range 97 122 c || in_range 48 57 c.

(** Python compares tuples lexicographically; [False < True]. *)
Definition bool_compare (a b : bool) : comparison :=
  match a, b with
  | false, true => Lt
  | true, false => Gt
  | _, _ => Eq
  end.

Definition sort_key := (bool * bool * Q * bool * pystr)%type.

Definition key_compare (k1 k2 : sort_key) : comparison :=
  let '(a1, b1, c1, d1, e1) := k1 in
  let '(a2, b2, c2, d2, e2) := k2 in
  match bool_compare a1 a2 with
  | Eq =>
    match bool_compare b1 b2 with
    | Eq =>
      match (c1 ?= c2)%Q with
      | Eq =>
        match bool_compare d1 d2 with
        | Eq => str_compare e1 e2
        | o => o
        end
      | o => o
      end
    | o => o
    end
  | o => o
  end.

Definition key_le (k1 k2 : sort_key) : bool :=
  match key_compare k1 k2 with Gt => false | _ => true end.

(** One diagnosis dictionary, with the keys in the order of the literal. *)
Definition diagnosis_entry (rank : nat) (diagnosis icd10_code explanation : pystr)
    : json :=
  JObj [(u "rank", JInt (Z.of_nat rank));
        (u "diagnosis", JStr diagnosis);
        (u "icd10_code", JStr icd10_code);
        (u "explanation", JStr explanation)].

(** [d.setdefault(k, v)] *)
Definition setdefault (d : odict json) (k : pystr) (v : json) : odict json :=
  match odict_get d k with
  | Some _ => d
  | None => d ++ [(k, v)]
  end.

Definition _ensure_three (result : odict json) : option (odict json) :=
  diags ←
    match odict_get result (u "diagnoses") with
    | None => Some []
    | Some v =>
      if truthy v then match v with JArr l => Some l | _ => None end else Some []
    end;
  let diags := take 3 diags in
  let diags :=
    fold_left
      (fun diags _ =>
         if decide (length diags < 3)
         then diags ++ [diagnosis_entry (length diags + 1) (u "—") [] []]
         else diags)
      (seq 0 3) diags in
  diags ←
    mapM
      (fun entry : nat * json =>
         match entry.2 with
         | JObj d =>
           let d := odict_set d (u "rank") (JInt (Z.of_nat (entry.1 + 1))) in
           let d := setdefault d (u "diagnosis") (JStr (u "—")) in
           let d := setdefault d (u "icd10_code") (JStr []) in
           let d := setdefault d (u "explanation") (JStr []) in
           Some (JObj d)
         | _ => None
         end)
      (enumerate diags);
  Some (odict_set result (u "diagnoses") (JArr diags)).

(** ** Decoding of JSON text, as [json.loads] does it (limits on the
    recursion depth and on the number of digits of an integer aside). *)

Definition is_json_ws (c : N) : bool :=
  (c =? 32)%N || (c =? 9)%N || (c =? 10)%N || (c =? 13)%N.

Fixpoint skip_ws (s : pystr) : pystr :=
  match s with
  | c :: r => if is_json_ws c then skip_ws r else s
  | [] => []
  end.

Definition is_digit (c : N) : bool := in_range 48 57 c.

Fixpoint span_digits (s : pystr) : pystr * pystr :=
  match s with
  | c :: r =>
    if is_digit c then let '(d, rest) := span_digits r in (c :: d, rest)
    else ([], s)
  | [] => ([], [])
  end.

Definition digits_value (d : pystr) : Z :=
  fold_left (fun acc c => (acc * 10 + (Z.of_N c - 48))%Z) d 0%Z.

Definition hex_value (c : N) : option N :=
  if in_range 48 57 c then Some (c - 48)%N
  else if in_range 97 102 c then Some (c - 87)%N
  else if in_range 65 70 c then Some (c - 55)%N
  else None.

Definition hex4 (a b c d : N) : option N :=
  x ← hex_value a; y ← hex_value b; z ← hex_value c; w ← hex_value d;
  Some (x * 4096 + y * 256 + z * 16 + w)%N.

(** The body of a string, after the opening quote. *)
Fixpoint parse_string (s : pystr) (acc : pystr) : option (pystr * pystr) :=
  match s with
  | [] => None
  | 34%N :: r => Some (rev acc, r)
  | 92%N :: r =>
    match r with
    | 34%N :: r' => parse_string r' (34%N :: acc)
    | 92%N :: r' => parse_string r' (92%N :: acc)
    | 47%N :: r' => parse_string r' (47%N :: acc)
    | 98%N :: r' => parse_string r' (8%N :: acc)
    | 102%N :: r' => parse_string r' (12%N :: acc)
    | 110%N :: r' => parse_string r' (10%N :: acc)
    | 114%N :: r' => parse_string r' (13%N :: acc)
    | 116%N :: r' => parse_string r' (9%N :: acc)
    | 117%N :: h1 :: h2 :: h3 :: h4 :: r' =>
      match hex4 h1 h2 h3 h4 with
      | None => None
      | Some c =>
        match r' with
        | 92%N :: 117%N :: l1 :: l2 :: l3 :: l4 :: r'' =>
          match hex4 l1 l2 l3 l4 with
          | Some c2 =>
            if in_range 55296 56319 c && in_range 56320 57343 c2
            then parse_string r''
                   ((65536 + (c - 55296) * 1024 + (c2 - 56320))%N :: acc)
            else parse_string r' (c :: acc)
          | None => parse_string r' (c :: acc)
          end
        | _ => parse_string r' (c :: acc)
        end
      end
    | _ => None
    end
  | c :: r => if (c <? 32)%N then None else parse_string r (c :: acc)
  end.

Definition parse_number (s : pystr) : option (json * pystr) :=
  let '(neg, s1) := match s with 45%N :: r => (true, r) | _ => (false, s) end in
  ipart ←
    match s1 with
    | 48%N :: r => Some ([48%N], r)
    | c :: _ => if in_range 49 57 c then Some (span_digits s1) else None
    | [] => None
    end;
  let '(idigits, r1) := ipart in
  let '(fdigits, r2) :=
    match r1 with
    | 46%N :: r =>
      match span_digits r with
      | ([], _) => ([], r1)
      | (fd, rest) => (fd, rest)
      end
    | _ => ([], r1)
    end in
  let '(expo, r3) :=
    match r2 with
    | c :: r =>
      if (c =? 101)%N || (c =? 69)%N then
        let '(eneg, r') :=
          match r with
          | 45%N :: x => (true, x)
          | 43%N :: x => (false, x)
          | _ => (false, r)
          end in
        match span_digits r' with
        | ([], _) => (None, r2)
        | (ed, rest) =>
          (Some (if eneg then (- digits_value ed)%Z else digits_value ed), rest)
        end
      else (None, r2)
    | [] => (None, r2)
    end in
  let sign (z : Z) := if neg then (- z)%Z else z in
  match fdigits, expo with
  | [], None => Some (JInt (sign (digits_value idigits)), r3)
  | _, _ =>
    Some (JFloat (sign (digits_value (idigits ++ fdigits)))
                 (default 0%Z expo - Z.of_nat (length fdigits))%Z, r3)
  end.

(** [s] starts with the literal [lit]: the rest of [s]. *)
Definition expect (lit : pystr) (s : pystr) : option pystr :=
  if startswith lit s then Some (drop (length lit) s) else None.

Fixpoint parse_value (fuel : nat) (s : pystr) : option (json * pystr) :=
  match fuel with
  | O => None
  | S f =>
    match s with
    | 34%N :: r => '(str, rest) ← parse_string r []; Some (JStr str, rest)
    | 123%N :: r =>
      match skip_ws r with
      | 125%N :: rest => Some (JObj [], rest)
      | r' => '(kvs, rest) ← parse_members f r' []; Some (JObj kvs, rest)
      end
    | 91%N :: r =>
      match skip_ws r with
      | 93%N :: rest => Some (JArr [], rest)
      | r' => '(vs, rest) ← parse_elements f r' []; Some (JArr vs, rest)
      end
    | 110%N :: _ => rest ← expect (u "null") s; Some (JNull, rest)
    | 116%N :: _ => rest ← expect (u "true") s; Some (JBool true, rest)
    | 102%N :: _ => rest ← expect (u "false") s; Some (JBool false, rest)
    | 78%N :: _ => rest ← expect (u "NaN") s; Some (JNaN, rest)
    | 73%N :: _ => rest ← expect (u "Infinity") s; Some (JInf false, rest)
    | _ =>
      match expect (u "-Infinity") s with
      | Some rest => Some (JInf true, rest)
      | None => parse_number s
      end
    end
  end
with parse_members (fuel : nat) (s : pystr) (acc : odict json)
    : option (odict json * pystr) :=
  match fuel with
  | O => None
  | S f =>
    match s with
    | 34%N :: r =>
      '(key, r1) ← parse_string r [];
      match skip_ws r1 with
      | 58%N :: r2 =>
        '(v, r3) ← parse_value f (skip_ws r2);
        let acc := odict_set acc key v in
        match skip_ws r3 with
        | 125%N :: rest => Some (acc, rest)
        | 44%N :: r4 => parse_members f (skip_ws r4) acc
        | _ => None
        end
      | _ => None
      end
    | _ => None
    end
  end
with parse_elements (fuel : nat) (s : pystr) (acc : list json)
    : option (list json * pystr) :=
  match fuel with
  | O => None
  | S f =>
    '(v, r1) ← parse_value f s;
    let acc := acc ++ [v] in
    match skip_ws r1 with
    | 93%N :: rest => Some (acc, rest)
    | 44%N :: r2 => parse_elements f (skip_ws r2) acc
    | _ => None
    end
  end.

(** [json.loads(text)]; [None] is a raised [JSONDecodeError]. *)
Definition json_loads (text : pystr) : option json :=
  match text with
  | 65279%N :: _ => None
  | _ =>
    '(v, rest) ← parse_value (S (length text)) (skip_ws text);
    match skip_ws rest with
    | [] => Some v
    | _ => None
    end
  end.

(** Offset of the first occurrence of [sub] in [s]. *)
Fixpoint find_first (sub s : pystr) : option nat :=
  if startswith sub s then Some 0%nat
  else match s with
       | [] => None
       | _ :: s' => S <$> find_first sub s'
       end.

(** Offset of the last occurrence of the character [c] in [s]. *)
Fixpoint find_last (c : N) (s : pystr) : option nat :=
  match s with
  | [] => None
  | x :: s' =>
    match find_last c s' with
    | Some i => Some (S i)
    | None => if (x =? c)%N then Some 0%nat else None
    end
  end.

(** Group 1 of the first match of the fence pattern
    (three backquotes, an optional [json], [\s*], a lazy body, [\s*],
    three backquotes). *)
Definition search_fence (text : pystr) : option pystr :=
  let fence := u "```" in
  i ← find_first fence text;
  let rest := drop (i + 3) text in
  let rest := if startswith (u "json") rest then drop 4 rest else rest in
  let rest := lstrip rest in
  j ← find_first fence rest;
  Some (rstrip (take j rest)).

(** Group 0 of the first match of [\{[\s\S]*\}]: from the first opening
    brace to the last closing brace after it. *)
Definition search_braces (text : pystr) : option pystr :=
  i ← find_first [123%N] text;
  let rest := drop i text in
  j ← find_last 125%N rest;
  Some (take (S j) rest).

Definition _extract_json (text : pystr) : option (odict json) :=
  match text with
  | [] => None
  | _ =>
    let text := strip text in
    let text :=
      if contains (u "```") text then
        match search_fence text with
        | Some g => strip g
        | None => text
        end
      else text in
    let text :=
      if negb (startswith (u "{") text) then
        match search_braces text with
        | Some g => g
        | None => text
        end
      else text in
    data ← json_loads text;
    match data with
    | JArr l =>
      ds ←
        mapM
          (fun entry : nat * json =>
             match entry.2 with
             | JObj d =>
               Some (JObj (odict_set d (u "rank")
                             (default (JInt (Z.of_nat (entry.1 + 1)))
                                      (odict_get d (u "rank")))))
             | _ => None
             end)
          (enumerate (take 3 l));
      Some [(u "diagnoses", JArr ds)]
    | JObj d => Some d
    | _ => None
    end
  end.

Section Generator.
Context {U : Unicode}.

Definition tokens (s : pystr) : gset pystr :=
  list_to_set (findall_runs is_token_char (lower s)).

Definition score_code_vs_query (code query : pystr) : Q :=
  match default [] (odict_get ICD_DESCRIPTIONS code) with
  | [] => 0%Q
  | desc =>
    let q_tokens := tokens query in
    let d_tokens := tokens desc in
    if decide (size d_tokens = 0%nat) then 0%Q
    else Z.of_nat (size (q_tokens ∩ d_tokens)) # Pos.of_nat (size d_tokens + 1)
  end.

(** One pass of the voting loops for one rule. *)
Definition vote_rule (q : pystr) (st : odict nat * gset pystr)
    (rule : list pystr * list pystr) : odict nat * gset pystr :=
  fold_left
    (fun st kw =>
       if contains (lower kw) q then
         fold_left
           (fun (st : odict nat * gset pystr) code =>
              (odict_set st.1 code (default 0 (odict_get st.1 code) + 1)%nat,
               {[code]} ∪ st.2))
           rule.2 st
       else st)
    rule.1 st.

(** The voting loops over a rule table. *)
Definition vote (table : list (list pystr * list pystr)) (q : pystr)
    : odict nat * gset pystr :=
  fold_left (vote_rule q) table ([], ∅).

(** The selection loop with its [break]. *)
Fixpoint pick_codes (seen : gset pystr) (result : list pystr)
    (sorted_codes : list (pystr * nat)) : list pystr :=
  match sorted_codes with
  | [] => result
  | (code, _) :: rest =>
    let prefix := take 3 code in
    let '(seen, result) :=
      if bool_decide (prefix ∈ seen) then (seen, result)
      else ({[prefix]} ∪ seen, result ++ [code]) in
    if decide (5 <= length result) then result
    else pick_codes seen result rest
  end.

Definition local_predict_codes_full (query : pystr) : list pystr * gset pystr :=
  let q := lower query in
  let '(scores, full_code_set) := vote KEYWORD_ICD_MAP q in
  match scores with
  | [] => ([], ∅)
  | _ =>
    let sorted_codes := sorted (fun x y => (snd y <=? snd x)%nat) scores in
    (pick_codes ∅ [] sorted_codes, full_code_set)
  end.

Definition local_predict_codes (query : pystr) : list pystr :=
  (local_predict_codes_full query).1.

(** The sets [stage1_full] and [stage1_prefix] of the fallback. *)
Definition stage1_sets (stage1 : option stage1_prediction)
    : gset pystr * gset pystr :=
  match stage1 with
  | None => (∅, ∅)
  | Some s1 =>
    let st :=
      fold_left
        (fun (st : gset pystr * gset pystr) code =>
           ({[code]} ∪ st.1, {[take 3 code]} ∪ st.2))
        (elements (full_codes s1)) (∅, ∅) in
    fold_left
      (fun (st : gset pystr * gset pystr) c =>
         match strip (icd10 c) with
         | [] => st
         | code => ({[code]} ∪ st.1, {[take 3 code]} ∪ st.2)
         end)
      (candidates s1) st
  end.

Definition code_sort_key (stage1_full stage1_prefix : gset pystr) (query : pystr)
    (c : pystr) : sort_key :=
  let exact := bool_decide (c ∈ stage1_full) in
  let prefix := bool_decide (take 3 c ∈ stage1_prefix) in
  let desc_sc := match query with [] => 0%Q | _ => score_code_vs_query c query end in
  let has_dot := contains (u ".") c in
  (negb exact, negb prefix, (- desc_sc)%Q, negb has_dot, c).

(** The codes a chunk offers:
    [chunk.get("_all_icd_codes") or chunk.get("icd_codes", []) or []],
    rendered, stripped, empty strings dropped. *)
Definition offered_codes (chunk : chunk) : list pystr :=
  let all_codes :=
    match _all_icd_codes chunk with
    | Some (c :: cs) => c :: cs
    | _ => map py_str (icd_codes chunk)
    end in
  List.filter (fun c => negb (str_eqb c [])) (map strip all_codes).

(** State of the fallback loops: [diagnoses], [rank], [seen_codes]. *)
Definition fallback_state := (list json * nat * gset pystr)%type.

Definition emit_code (source : pystr) (chunk_idx : nat) (st : fallback_state)
    (code : pystr) : fallback_state :=
  let '(diagnoses, rank, seen_codes) := st in
  if decide (3 < rank) then st
  else if bool_decide (code ∈ seen_codes) then st
  else
    (diagnoses ++
       [diagnosis_entry rank source code
          (u "Протокол «" ++ source
             ++ u "» является наиболее релевантным по данным симптомам "
             ++ u "(reranker position " ++ str_of_nat (chunk_idx + 1) ++ u ").")],
     (rank + 1)%nat, {[code]} ∪ seen_codes).

(** [ordered = sorted(all_codes, key=code_sort_key)] *)
Definition ordered_codes (stage1_full stage1_prefix : gset pystr) (query : pystr)
    (chunk : chunk) : list pystr :=
  sorted (fun a b => key_le (code_sort_key stage1_full stage1_prefix query a)
                            (code_sort_key stage1_full stage1_prefix query b))
         (offered_codes chunk).

Definition fallback_chunk (stage1_full stage1_prefix : gset pystr) (query : pystr)
    (st : fallback_state) (entry : nat * chunk) : fallback_state :=
  let '(chunk_idx, chunk) := entry in
  if decide (3 < st.1.2) then st
  else
    let source := replace (u ".pdf") [] (source_file chunk) in
    fold_left (emit_code source chunk_idx)
              (ordered_codes stage1_full stage1_prefix query chunk) st.

(** The diagnoses collected by the loops of [_smart_fallback]. *)
Definition fallback_diagnoses (chunks : list chunk) (stage1 : option stage1_prediction)
    (query : pystr) : list json :=
  let '(stage1_full, stage1_prefix) := stage1_sets stage1 in
  (fold_left (fallback_chunk stage1_full stage1_prefix query)
             (enumerate chunks) ([], 1%nat, ∅)).1.1.

Definition _smart_fallback (chunks : list chunk) (stage1 : option stage1_prediction)
    (query : pystr) : option (odict json) :=
  _ensure_three [(u "diagnoses", JArr (fallback_diagnoses chunks stage1 query))].

End Generator.

(* ====================================================================== *)
(** * Vocabulary of the statements *)
(* ====================================================================== *)

(** The padding entry of [_ensure_three] for a slot. *)
Definition placeholder (rank : nat) : json :=
  diagnosis_entry rank (u "—") [] [].

(** [d["rank"]] of a diagnosis. *)
Definition rank_of (d : json) : option json :=
  match d with
  | JObj e => odict_get e (u "rank")
  | _ => None
  end.

(** [d["icd10_code"]] of a diagnosis. *)
Definition code_of (d : json) : option json :=
  match d with
  | JObj e => odict_get e (u "icd10_code")
  | _ => None
  end.

(** Diagnoses numbered consecutively from [k], each with the four keys
    of the literal of [_smart_fallback]. *)
Fixpoint ranked_from (k : nat) (ds : list json) : Prop :=
  match ds with
  | [] => True
  | d :: ds' =>
    (exists a b c, d = diagnosis_entry k a b c) /\ ranked_from (S k) ds'
  end.

(** Lexicographic comparison of pairs. *)
Definition lex {A B} (cmp1 : A -> A -> comparison) (cmp2 : B -> B -> comparison)
    (x y : A * B) : comparison :=
  match cmp1 x.1 y.1 with
  | Eq => cmp2 x.2 y.2
  | o => o
  end.

(** A comparison that is antisymmetric, transitive and compatible with
    its own equivalence. *)
Record good_cmp {A} (cmp : A -> A -> comparison) : Prop := {
  gc_sym : forall x y, cmp y x = CompOpp (cmp x y);
  gc_trans : forall x y z, cmp x y = Lt -> cmp y z = Lt -> cmp x z = Lt;
  gc_eq : forall x y z, cmp x y = Eq -> cmp x z = cmp y z
}.

(** A chunk of evidence that offers the given codes. *)
Definition evidence_chunk (pid title body : pystr) (codes : list pystr) : chunk :=
  {| protocol_id := Some pid;
     source_file := title;
     text := body;
     icd_codes := map CStr codes;
     _all_icd_codes := None;
     _retrieval_source := None;
     _rrf_score := None;
     _rerank_score := None |}.

Definition votes_of (scores : odict nat) (code : pystr) : nat :=
  default 0%nat (odict_get scores code).

Definition occurrences (code : pystr) (codes : list pystr) : nat :=
  length (List.filter (str_eqb code) codes).

Section VoteVocabulary.
Context {U : Unicode}.

(** Some keyword of the rule is a substring of the lowercased query [q]. *)
Definition rule_matches (q : pystr) (rule : list pystr * list pystr) : bool :=
  existsb (fun kw => contains (lower kw) q) rule.1.

(** The number of keywords of the rule that are substrings of [q]. *)
Definition matching_keywords (q : pystr) (rule : list pystr * list pystr) : nat :=
  length (List.filter (fun kw => contains (lower kw) q) rule.1).

(** Votes as the specification counts them: one for each matching rule
    that lists the code. *)
Definition votes_per_rule (table : list (list pystr * list pystr)) (q code : pystr)
    : nat :=
  length (List.filter
            (fun rule => rule_matches q rule && bool_decide (code ∈ rule.2)) table).

(** Votes counted for each matching keyword of each rule. *)
Definition votes_per_keyword (table : list (list pystr * list pystr)) (q code : pystr)
    : nat :=
  fold_right
    (fun rule acc => (matching_keywords q rule * occurrences code rule.2 + acc)%nat)
    0%nat table.

(** The codes of the rules that match. *)
Definition matched_codes (table : list (list pystr * list pystr)) (q : pystr)
    : list pystr :=
  flat_map (fun rule => if rule_matches q rule then rule.2 else []) table.

End VoteVocabulary.

(** Invariant of the loops of [_smart_fallback]. *)
Definition fallback_inv (st : fallback_state) : Prop :=
  st.1.2 = (length st.1.1 + 1)%nat /\ (length st.1.1 <= 3)%nat
  /\ ranked_from 1 st.1.1.

(** The loop over the codes of a rule. *)
Definition add_votes (st : odict nat * gset pystr) (codes : list pystr) :=
  fold_left
    (fun (st : odict nat * gset pystr) code =>
       (odict_set st.1 code (default 0 (odict_get st.1 code) + 1)%nat,
        {[code]} ∪ st.2))
    codes st.

(** An empty [scores] goes with an empty [full_code_set]. *)
Definition votes_inv (st : odict nat * gset pystr) : Prop :=
  st.1 = [] -> st.2 = ∅.

(** Decides every comparison of the goal from the linear facts at hand. *)
Ltac settle_comparisons :=
  repeat match goal with
         | |- context [(?a <=? ?b)%N] =>
           first [ rewrite (proj2 (N.leb_le a b)) by lia
                 | rewrite (proj2 (N.leb_gt a b)) by lia ]
         | |- context [(?a <? ?b)%N] =>
           first [ rewrite (proj2 (N.ltb_lt a b)) by lia
                 | rewrite (proj2 (N.ltb_ge a b)) by lia ]
         | |- context [(?a =? ?b)%N] =>
           rewrite (proj2 (N.eqb_neq a b)) by lia
         end.

(** The chunk [e] carries a usable code whose canonical key, or the
    first three characters of it, is [k]. *)
Definition registers {U : Unicode} (e : chunk) (k : pystr) : Prop :=
  exists raw, In (CStr raw) (icd_codes e) /\ strip raw <> []
              /\ (k = _canon (strip raw) \/ k = take 3 (_canon (strip raw))).

(** The effect of [index_code] on the code index. *)
Definition code_step {U : Unicode} (c : chunk) (idx : gmap pystr (list chunk))
    (code : code_val) : gmap pystr (list chunk) :=
  match code with
  | COther _ => idx
  | CStr raw =>
    match strip raw with
    | [] => idx
    | code => register 5 (take 3 (_canon code)) c (register 3 (_canon code) c idx)
    end
  end.

(** Invariant of the code index during the build over the chunks [cs]. *)
Definition code_idx_inv {U : Unicode} (cs : list chunk)
    (idx : gmap pystr (list chunk)) : Prop :=
  forall k l, idx !! k = Some l ->
    l <> [] /\ (length l <= 5)%nat /\ ((3 < length k)%nat -> (length l <= 3)%nat)
    /\ Forall (fun e => In e cs /\ registers e k) l.

(** The first chunk of a protocol in a list of candidates. *)
Definition first_of (pid : pystr) (l : list chunk) : option chunk :=
  List.find (fun c => str_eqb (pid_of c) pid) l.

(** Every chunk of the list carries the tag of one strategy. *)
Definition tagged (tag : pystr) (l : list chunk) : Prop :=
  Forall (fun c => _retrieval_source c = Some tag) l.

(** What [add] appends for a list of chunks, given the protocols seen. *)
Fixpoint first_per_protocol (seen : gset pystr) (l : list chunk) : list chunk :=
  match l with
  | [] => []
  | c :: l' =>
    if bool_decide (pid_of c ∈ seen) then first_per_protocol seen l'
    else c :: first_per_protocol ({[pid_of c]} ∪ seen) l'
  end.

(** The [_rrf_score] of the entry of a protocol in a result list. *)
Definition rrf_score_in (results : list chunk) (pid : pystr) : option R :=
  c ← first_of pid results; _rrf_score c.

Definition tenth (s : R) : R := (s / 10)%R.

(** Invariant of the fusion loops. *)
Definition fusion_inv (st : fusion) : Prop :=
  NoDup (map fst st.1)
  /\ (forall p : pystr, is_Some (odict_get st.1 p) -> is_Some (st.2 !! p))
  /\ (forall (p : pystr) (c : chunk), st.2 !! p = Some c -> pid_of c = p).

(** Two fusion states that differ by the deprioritisation of [pid]. *)
Definition scaled (pid : pystr) (st1 st0 : fusion) : Prop :=
  st1.2 = st0.2
  /\ forall p : pystr,
       odict_get st1.1 p
       = (fun s => if str_eqb p pid then tenth s else s) <$> odict_get st0.1 p.

(** Collaborators for evaluating the retriever on small inputs: nothing is
    junk, the dense search finds nothing, and the lexical ranking lists
    the chunks 0 and 1 in that order. *)
Definition quiet_oracles : Oracles :=
  {| _is_junk := fun _ => false;
     dense_search := fun _ _ => [];
     bm25_order := fun _ => [0%nat; 1%nat];
     reranker_predict := fun _ => [];
     SYMPTOM_EXPANSIONS := [] |}.

(** JSON text written with apostrophes where the text has double quotes. *)
Definition json_text (s : string) : pystr :=
  map (fun c => if (c =? 39)%N then 34%N else c) (u s).

(** The rank of the first hit of a protocol that is not junk, in a
    ranking whose first hit has the rank [start]. *)
Fixpoint first_rank {O : Oracles} (pid : pystr) (start : nat) (hits : list chunk)
    : option nat :=
  match hits with
  | [] => None
  | h :: hs =>
    if negb (_is_junk (text h)) && str_eqb (pid_of h) pid then Some start
    else first_rank pid (S start) hs
  end.

(* ====================================================================== *)
(** * Vocabulary of the further properties *)
(* ====================================================================== *)

(** The number of chunks of a protocol in a collection. *)
Definition count_pid (pid : pystr) (cs : list chunk) : nat :=
  length (List.filter (fun c => str_eqb (pid_of c) pid) cs).

(** The chunks of a protocol, in the order of the collection. *)
Definition chunks_of (pid : pystr) (cs : list chunk) : list chunk :=
  List.filter (fun c => str_eqb (pid_of c) pid) cs.

(** The codes of a chunk that the index build keeps: the strings that are
    not blank, stripped. *)
Definition usable_of (codes : list code_val) : list pystr :=
  flat_map
    (fun v => match v with
              | CStr raw => match strip raw with [] => [] | code => [code] end
              | COther _ => []
              end)
    codes.

Definition usable_codes (c : chunk) : list pystr := usable_of (icd_codes c).

(** [if code not in codes: codes.append(code)] *)
Definition add_code (codes : list pystr) (code : pystr) : list pystr :=
  if bool_decide (code ∈ codes) then codes else codes ++ [code].

(** The words of a title, as the index build reads them. *)
Definition title_words {U : Unicode} (src : pystr) : list pystr :=
  findall_runs is_title_char (replace (u ".pdf") [] (lower src)).

(** The state of the per-protocol tables after the build has read the
    chunks [pre]. *)
Definition tables_inv {U : Unicode} (pre : list chunk) (self : HybridRetriever)
    : Prop :=
  (forall pid : pystr,
     _pid_n self !! pid
     = match count_pid pid pre with 0%nat => None | n => Some n end)
  /\ (forall pid : pystr,
        _pid_title self !! pid = source_file <$> first_of pid pre)
  /\ (forall pid : pystr,
        default [] (_pid_icd self !! pid)
        = fold_left add_code (flat_map usable_codes (chunks_of pid pre)) [])
  /\ (forall w pid : pystr,
        pid ∈ default ∅ (_title_idx self !! w)
        <-> (3 < length w)%nat
            /\ exists c, first_of pid pre = Some c /\ In w (title_words (source_file c))).

(** The exemplar chunks [retrieve_by_codes] visits, in order. *)
Definition code_exemplars {U : Unicode} (self : HybridRetriever)
    (icd_codes : list pystr) : list chunk :=
  flat_map
    (fun code =>
       let canon := _canon code in
       flat_map (fun key => default [] (_code_idx self !! key))
                [canon; take 3 canon; take 4 canon])
    icd_codes.

Definition not_junk {O : Oracles} (c : chunk) : bool := negb (_is_junk (text c)).

(** The first chunk of the collection that has the identifier [pid] as
    its [protocol_id] entry and is not junk. *)
Definition first_usable {O : Oracles} (self : HybridRetriever) (pid : pystr)
    : option chunk :=
  List.find (fun c => bool_decide (protocol_id c = Some pid)
                      && negb (_is_junk (text c))) (chunks self).

(** The number of words of the query, of four characters or more, under
    which the title index lists the protocol. *)
Definition title_hits {U : Unicode} (self : HybridRetriever) (clinical_query : pystr)
    (pid : pystr) : nat :=
  length (List.filter
            (fun w => negb (bool_decide (length w < 4)%nat)
                      && bool_decide (pid ∈ default ∅ (_title_idx self !! w)))
            (findall_runs is_title_char (lower clinical_query))).

(** A table of counters holds exactly the positive values of [cnt]. *)
Definition score_inv (sc : odict nat) (cnt : pystr -> nat) : Prop :=
  NoDup (map fst sc)
  /\ forall pid : pystr,
       odict_get sc pid = match cnt pid with 0%nat => None | n => Some n end.

(** What the fusion loops have recorded once the hits [hits] are
    processed: the chunk kept for a protocol is one of the hits and not
    junk, every hit that is not junk has its protocol recorded, and every
    score is positive. *)
Definition fusion_hits {O : Oracles} (hits : list chunk) (st : fusion) : Prop :=
  (forall p : pystr, is_Some (st.2 !! p) -> is_Some (odict_get st.1 p))
  /\ (forall (p : pystr) (c : chunk),
        st.2 !! p = Some c -> _is_junk (text c) = false /\ In c hits)
  /\ (forall c : chunk, In c hits -> _is_junk (text c) = false ->
        is_Some (st.2 !! pid_of c))
  /\ (forall (p : pystr) (s : R), odict_get st.1 p = Some s -> (0 < s)%R).

(** The scores of two results, the second not above the first. *)
Definition score_not_above (r1 r2 : chunk) : Prop :=
  exists s1 s2 : R,
    _rrf_score r1 = Some s1 /\ _rrf_score r2 = Some s2 /\ (s2 <= s1)%R.

(** The document text [rerank] hands to the cross-encoder for a candidate. *)
Definition rerank_doc (self : HybridRetriever) (c : chunk) : pystr :=
  let pid := pid_of c in
  let title := replace (u ".pdf") [] (default [] (_pid_title self !! pid)) in
  let codes := default [] (_pid_icd self !! pid) in
  let icd_str := join (u ", ") (take 6 codes) in
  u "[Протокол: " ++ title ++ u ". МКБ-10: " ++ icd_str ++ u ". "
    ++ take 400 (text c) ++ u "]".

(** [zip(scores, candidates)] of [rerank]. *)
Definition scored_candidates {O : Oracles} (self : HybridRetriever)
    (query : pystr) (candidates : list chunk) : list (R * chunk) :=
  combine (reranker_predict (map (fun c => (query, rerank_doc self c)) candidates))
          candidates.

(** The first pair of every protocol that is not in [seen]. *)
Fixpoint first_scored (seen : gset pystr) (l : list (R * chunk)) : list (R * chunk) :=
  match l with
  | [] => []
  | (s, c) :: l' =>
    if bool_decide (pid_of c ∈ seen) then first_scored seen l'
    else (s, c) :: first_scored ({[pid_of c]} ∪ seen) l'
  end.

(** The rerank scores of two results, the second not above the first. *)
Definition rerank_not_above (r1 r2 : chunk) : Prop :=
  exists s1 s2 : R,
    _rerank_score r1 = Some s1 /\ _rerank_score r2 = Some s2 /\ (s2 <= s1)%R.

(** Collaborators as [quiet_oracles], with a cross-encoder that scores
    every pair 1. *)
Definition scoring_oracles : Oracles :=
  {| _is_junk := fun _ => false;
     dense_search := fun _ _ => [];
     bm25_order := fun _ => [0%nat; 1%nat];
     reranker_predict := fun pairs => map (fun _ => 1%R) pairs;
     SYMPTOM_EXPANSIONS := [] |}.

(** The first code of every three-character prefix that is not in [seen]. *)
Fixpoint first_by_prefix (seen : gset pystr) (codes : list pystr) : list pystr :=
  match codes with
  | [] => []
  | code :: rest =>
    if bool_decide (take 3 code ∈ seen) then first_by_prefix seen rest
    else code :: first_by_prefix ({[take 3 code]} ∪ seen) rest
  end.

(** The codes with a counter are the codes of the set, each once. *)
Definition votes_keys (st : odict nat * gset pystr) : Prop :=
  NoDup (map fst st.1)
  /\ forall code : pystr, In code (map fst st.1) <-> code ∈ st.2.

(** [(result or {}).get("diagnoses", []) or []], when it is a list. *)
Definition given_diagnoses (result : odict json) : option (list json) :=
  match odict_get result (u "diagnoses") with
  | None => Some []
  | Some v =>
    if truthy v then match v with JArr l => Some l | _ => None end else Some []
  end.

(** The [while] loop of [_ensure_three]. *)
Definition pad_three (diags : list json) : list json :=
  fold_left
    (fun diags _ =>
       if decide (length diags < 3)
       then diags ++ [diagnosis_entry (length diags + 1) (u "—") [] []]
       else diags)
    (seq 0 3) diags.

(** The body of the [for] loop of [_ensure_three] on the entry [idx]. *)
Definition complete_entry (idx : nat) (d : odict json) : odict json :=
  let d := odict_set d (u "rank") (JInt (Z.of_nat (idx + 1))) in
  let d := setdefault d (u "diagnosis") (JStr (u "—")) in
  let d := setdefault d (u "icd10_code") (JStr []) in
  setdefault d (u "explanation") (JStr []).

Definition complete_json (entry : nat * json) : option json :=
  match entry.2 with
  | JObj d => Some (JObj (complete_entry entry.1 d))
  | _ => None
  end.

(** A diagnosis with the rank [rank] and the three other entries. *)
Definition entry_ok (rank : Z) (e : json) : Prop :=
  exists d : odict json,
    e = JObj d
    /\ odict_get d (u "rank") = Some (JInt rank)
    /\ is_Some (odict_get d (u "diagnosis"))
    /\ is_Some (odict_get d (u "icd10_code"))
    /\ is_Some (odict_get d (u "explanation")).

Definition is_object (e : json) : bool :=
  match e with JObj _ => true | _ => false end.

(* ====================================================================== *)
(** * generator.py: the calls to the language model *)
(* ====================================================================== *)

(** The language model is an external service. A run is given the
    outcomes of its calls in the order of the calls: [Some content] for a
    call that returned ([content] is empty for an empty message), [None]
    for a call that raised; a call beyond the end of the list fails. The
    state also counts the calls made and the seconds slept. The prompts
    play no part: every sequence of outcomes is considered. *)
Record llm_state := {
  responses : list (option pystr);
  calls : nat;
  slept : nat
}.

Definition _try_llm_call (st : llm_state) : option pystr * llm_state :=
  match responses st with
  | [] => (None, {| responses := []; calls := S (calls st); slept := slept st |})
  | r :: rest => (r, {| responses := rest; calls := S (calls st); slept := slept st |})
  end.

(** [time.sleep(wait)] *)
Definition sleep (wait : nat) (st : llm_state) : llm_state :=
  {| responses := responses st; calls := calls st; slept := slept st + wait |}.

Definition FALLBACK_MODELS : list pystr := [].

(** [[PRIMARY_MODEL] + FALLBACK_MODELS]; the primary model is read from
    the environment. *)
Definition MODELS (PRIMARY_MODEL : pystr) : list pystr :=
  [PRIMARY_MODEL] ++ FALLBACK_MODELS.

(** How one round of a loop over the models ends. *)
Inductive outcome (A : Type) : Type :=
| Return (a : A)
| Raise
| Continue.
Arguments Return {A} a.
Arguments Raise {A}.
Arguments Continue {A}.

(** The loop of [generate_hyde_query] over the models. *)
Fixpoint hyde_loop (models : list pystr) (query : pystr) (st : llm_state)
    : pystr * llm_state :=
  match models with
  | [] => (query, st)
  | _ :: models' =>
    let '(result, st) := _try_llm_call st in
    match result with
    | Some (c :: s) => (c :: s, st)
    | _ => hyde_loop models' query st
    end
  end.

Definition generate_hyde_query (PRIMARY_MODEL : pystr) (query : pystr)
    (st : llm_state) : pystr * llm_state :=
  hyde_loop (MODELS PRIMARY_MODEL) query st.

(** [c.get("icd10", "")] for an element of [candidates], when the
    element is a dict and the entry a string. *)
Definition icd10_of (c : json) : option pystr :=
  match c with
  | JObj d =>
    match odict_get d (u "icd10") with
    | None => Some []
    | Some (JStr s) => Some s
    | Some _ => None
    end
  | _ => None
  end.

(** The [icd10] entries of [prediction["candidates"]]; [None] when the
    comprehension raises (a value that cannot be iterated, an element
    without [get], an entry without [strip]). *)
Definition candidate_entries (v : json) : option (list pystr) :=
  match v with
  | JArr l => mapM icd10_of l
  | JObj [] => Some []
  | JStr [] => Some []
  | _ => None
  end.

Definition stripped_codes (entries : list pystr) : list pystr :=
  List.filter (fun code => negb (str_eqb code [])) (map strip entries).

(** One round of the loop of [predict_candidate_codes], on the content
    [raw] of a call that returned. *)
Definition predict_round (raw : pystr) : outcome (list pystr * stage1_prediction) :=
  match _extract_json raw with
  | Some ((k, v) :: prediction') =>
    match odict_get ((k, v) :: prediction') (u "candidates") with
    | Some cands =>
      match candidate_entries cands with
      | None => Raise
      | Some entries =>
        match stripped_codes entries with
        | [] => Continue
        | codes =>
          Return (codes, {| full_codes := list_to_set codes;
                            candidates := map (fun s => {| icd10 := s |}) entries |})
        end
      end
    | None => Continue
    end
  | _ => Continue
  end.

Fixpoint predict_loop (models : list pystr) (st : llm_state)
    : outcome (list pystr * stage1_prediction) * llm_state :=
  match models with
  | [] => (Continue, st)
  | _ :: models' =>
    let '(raw, st) := _try_llm_call st in
    match raw with
    | None => predict_loop models' st
    | Some raw =>
      match predict_round raw with
      | Continue => predict_loop models' st
      | r => (r, st)
      end
    end
  end.

(** The loop of [generate_diagnosis] over the attempts for one model. *)
Fixpoint attempt_loop (remaining attempt : nat) (st : llm_state)
    : outcome (option (odict json)) * llm_state :=
  match remaining with
  | O => (Continue, st)
  | S remaining' =>
    let '(raw, st) := _try_llm_call st in
    match raw with
    | None => (Continue, st)
    | Some raw =>
      let go_on (_ : unit) :=
        let st := if contains (u "429") raw then sleep (15 * (attempt + 1)) st else st in
        attempt_loop remaining' (S attempt) st in
      match _extract_json raw with
      | Some ((k, v) :: result') =>
        match odict_get ((k, v) :: result') (u "diagnoses") with
        | Some _ => (Return (_ensure_three ((k, v) :: result')), st)
        | None => go_on tt
        end
      | _ => go_on tt
      end
    end
  end.

Section LanguageModel.
Context {U : Unicode}.

Definition predict_candidate_codes (PRIMARY_MODEL : pystr) (query : pystr)
    (st : llm_state) : option (list pystr * stage1_prediction) * llm_state :=
  match predict_loop (MODELS PRIMARY_MODEL) st with
  | (Return r, st) => (Some r, st)
  | (Raise, st) => (None, st)
  | (Continue, st) =>
    let '(local_codes, full_code_set) := local_predict_codes_full query in
    (Some (local_codes, {| full_codes := full_code_set; candidates := [] |}), st)
  end.

(** The loop of [generate_diagnosis] over the models. The prompt is built
    before the loop; with chunks and a prediction of the types above,
    building it does not raise. *)
Fixpoint diagnosis_loop (models : list pystr) (_retries : nat)
    (context_chunks : list chunk) (stage1_prediction : option stage1_prediction)
    (query : pystr) (st : llm_state) : option (odict json) * llm_state :=
  match models with
  | [] => (_smart_fallback context_chunks stage1_prediction query, st)
  | _ :: models' =>
    match attempt_loop _retries 0 st with
    | (Return r, st) => (r, st)
    | (_, st) =>
      diagnosis_loop models' _retries context_chunks stage1_prediction query st
    end
  end.

Definition generate_diagnosis (PRIMARY_MODEL : pystr) (query : pystr)
    (context_chunks : list chunk) (stage1_prediction : option stage1_prediction)
    (_retries : nat) (st : llm_state) : option (odict json) * llm_state :=
  diagnosis_loop (MODELS PRIMARY_MODEL) _retries context_chunks stage1_prediction
                 query st.

End LanguageModel.

(** The next call to the language model raises. *)
Definition next_fails (st : llm_state) : Prop :=
  match responses st with
  | [] => True
  | r :: _ => r = None
  end.


Section Server.
Context {U : Unicode} {O : Oracles}.

(** server.py, [diagnose]: the content handed to [JSONResponse]. The two
    stage-1 tasks run concurrently and the diagnosis afterwards; each is
    given the outcomes of its own calls. *)
Definition diagnose (retriever : HybridRetriever)
    (DEPRIORITIZED_PROTOCOLS : gset pystr) (PRIMARY_MODEL : pystr)
    (symptoms : pystr) (st_codes st_hyde st_diagnosis : llm_state)
    : option (odict json) :=
  '(candidate_codes, stage1_prediction) ←
    (predict_candidate_codes PRIMARY_MODEL symptoms st_codes).1;
  let hyde_query := (generate_hyde_query PRIMARY_MODEL symptoms st_hyde).1 in
  let local_codes := local_predict_codes symptoms in
  let extra_queries :=
    match local_codes with
    | [] => []
    | _ => [u "клинический протокол " ++ join (u " ") (take 3 local_codes)]
    end in
  chunks ←
    retrieve retriever DEPRIORITIZED_PROTOCOLS symptoms (Some candidate_codes) 10
             (Some hyde_query) (Some extra_queries);
  (generate_diagnosis PRIMARY_MODEL symptoms chunks (Some stage1_prediction) 2
                      st_diagnosis).1.

End Server.

(* ====================================================================== *)
(** * indexer.py *)
(* ====================================================================== *)

(** A protocol of the corpus: the entries the indexer reads. [doc["text"]]
    raises when the entry is missing; the other entries are read with
    [get]. *)
Record document := {
  doc_protocol_id : option pystr;
  doc_source_file : pystr;
  doc_icd_codes : list code_val;
  doc_text : option pystr
}.

(** [{**doc, "text": text, "chunk_idx": i, "is_header": h}] *)
Record chunk_meta := {
  meta : chunk;
  chunk_idx : Z;
  is_header : bool
}.

Definition CHUNK_SIZE : nat := 1200.
Definition CHUNK_STEP : nat := 900.

(** [range(0, stop, step)] for a positive step. *)
Definition range_step (stop step : nat) : list nat :=
  map (fun j => j * step)%nat (seq 0 ((stop + step - 1) / step)).

Definition meta_of (doc : document) (text : pystr) (idx : Z) (header : bool)
    : chunk_meta :=
  {| meta := {| protocol_id := doc_protocol_id doc;
                source_file := doc_source_file doc;
                text := text;
                icd_codes := doc_icd_codes doc;
                _all_icd_codes := None;
                _retrieval_source := None;
                _rrf_score := None;
                _rerank_score := None |};
     chunk_idx := idx;
     is_header := header |}.

Definition make_icd_prefix (doc : document) : pystr :=
  let source := strip (replace (u ".pdf") [] (doc_source_file doc)) in
  let parts :=
    match source with
    | [] => []
    | _ => [u "Протокол: " ++ source ++ u "."]
    end in
  let codes :=
    flat_map (fun v => match v with
              | CStr c => match strip c with [] => [] | _ => [c] end
              | COther _ => []
              end) (doc_icd_codes doc) in
  let parts :=
    match codes with
    | [] => parts
    | _ => parts ++ [u "Коды МКБ-10: " ++ join (u ", ") codes ++ u "."]
    end in
  match parts with
  | [] => []
  | _ => join (u " ") parts ++ u " "
  end.

(** The body chunk that starts at [i], when it is long enough. *)
Definition body_chunk (doc : document) (prefix t : pystr) (i : nat)
    : list (chunk_meta * pystr) :=
  let c := take CHUNK_SIZE (drop i t) in
  if decide (80 < length c) then [(meta_of doc c (Z.of_nat i) false, prefix ++ c)]
  else [].

Definition chunk_doc (doc : document) : option (list (chunk_meta * pystr)) :=
  t ← doc_text doc;
  let prefix := make_icd_prefix doc in
  let header := strip (take 500 t) in
  let results :=
    if decide (60 < length header)
    then [(meta_of doc header (-1) true, prefix ++ header)]
    else [] in
  Some (results ++ flat_map (body_chunk doc prefix t) (range_step (length t) CHUNK_STEP)).

(* ====================================================================== *)
(** * retriever.py: the fusion loops in binary64 *)
(* ====================================================================== *)

(** The fused scores of the source are Python floats. The definitions of
    this section follow the same lines of [retrieve_semantic] as
    [_size_penalty], [damping], [rrf_add], [dense_step], [bm25_step] and
    [fuse] above, with the arithmetic of the source: IEEE 754 binary64,
    every operation rounded to nearest ([0.1] is the double nearest to
    one tenth). [np.log1p] is a collaborator. *)
Class Libm := {
  log1p : PrimFloat.float -> PrimFloat.float
}.

Section Binary64.
Import PrimFloat.
Local Open Scope float_scope.
Context {L : Libm} {O : Oracles}.

(** An [int] of the source as a float (exact below [2^53]). *)
Definition of_nat64 (n : nat) : float :=
  of_uint63 (Uint63.of_Z (Z.of_nat n)).

Definition _size_penalty64 (n : nat) : float :=
  1.0 / (1.0 + log1p (of_nat64 n / of_nat64 5)).

Definition damping64 (self : HybridRetriever) (DEPRIORITIZED_PROTOCOLS : gset pystr)
    (pid : pystr) : float :=
  let n := default 1%nat (_pid_n self !! pid) in
  _size_penalty64 n *
  (if bool_decide (pid ∈ DEPRIORITIZED_PROTOCOLS) then 0.1 else 1.0).

(** [(1.0 / (rank + 60)) * p] *)
Definition term64 (p : float) (rank : nat) : float :=
  (1.0 / of_nat64 (rank + 60)) * p.

Definition rrf_add64 (rrf : odict float) (pid : pystr) (rank : nat) (p : float)
    : odict float :=
  odict_set rrf pid (default 0 (odict_get rrf pid) + term64 p rank).

Definition fusion64 := (odict float * gmap pystr chunk)%type.

Definition dense_step64 (self : HybridRetriever) (D : gset pystr)
    (st : fusion64) (entry : nat * chunk) : fusion64 :=
  let '(rrf, pid_to_chunk) := st in
  let '(rank, hit) := entry in
  if _is_junk (text hit) then st
  else
    let pid := pid_of hit in
    match pid_to_chunk !! pid with
    | Some _ => st
    | None => (rrf_add64 rrf pid rank (damping64 self D pid), <[pid := hit]> pid_to_chunk)
    end.

Definition bm25_step64 (self : HybridRetriever) (D : gset pystr)
    (st : fusion64) (entry : nat * chunk) : fusion64 :=
  let '(rrf, pid_to_chunk) := st in
  let '(rank, chunk) := entry in
  if _is_junk (text chunk) then st
  else
    let pid := pid_of chunk in
    (rrf_add64 rrf pid rank (damping64 self D pid),
     match pid_to_chunk !! pid with
     | Some _ => pid_to_chunk
     | None => <[pid := chunk]> pid_to_chunk
     end).

(** The two fusion loops of [retrieve_semantic]. *)
Definition fuse64 (self : HybridRetriever) (D : gset pystr)
    (dense_hits bm25_hits : list chunk) : fusion64 :=
  let st := fold_left (dense_step64 self D) (enumerate dense_hits) ([], ∅) in
  fold_left (bm25_step64 self D) (enumerate bm25_hits) st.

(** [rrf[pid] = rrf.get(pid, 0) + term] for each rank in turn. *)
Definition accumulate64 (p : float) (acc : option float) (ranks : list nat)
    : option float :=
  fold_left (fun acc rank => Some (default 0 acc + term64 p rank)) ranks acc.

(** The ranks of the hits of a protocol that are not junk, in a ranking
    whose first hit has the rank [start]. *)
Fixpoint hit_ranks (pid : pystr) (start : nat) (hits : list chunk) : list nat :=
  match hits with
  | [] => []
  | h :: hs =>
    if negb (_is_junk (text h)) && str_eqb (pid_of h) pid
    then start :: hit_ranks pid (S start) hs
    else hit_ranks pid (S start) hs
  end.

(** The ranks at which the loops add a term to the score of a protocol:
    its first dense hit that is not junk, then each of its BM25 hits that
    is not junk. *)
Definition contributing_ranks (pid : pystr) (dense_hits bm25_hits : list chunk)
    : list nat :=
  match first_rank pid 0 dense_hits with
  | Some r => [r]
  | None => []
  end ++ hit_ranks pid 0 bm25_hits.

(** Two fusion states that agree except on the score of [pid]. *)
Definition agree_but (pid : pystr) (st1 st0 : fusion64) : Prop :=
  st1.2 = st0.2
  /\ (forall p : pystr, p <> pid -> odict_get st1.1 p = odict_get st0.1 p)
  /\ (forall p : pystr, is_Some (odict_get st1.1 p) <-> is_Some (odict_get st0.1 p)).

End Binary64.

Section Example64.
Import PrimFloat.
Local Open Scope float_scope.

(** [np.log1p] where the example below evaluates it: at the double [0.2]
    (each protocol there has one chunk, and [1 / 5] is [0.2]) its value is
    the double [0.18232155679395462]. At any other argument this
    collaborator answers not-a-number. *)
Definition log1p_fifth : Libm :=
  {| log1p := fun x =>
       if x =? 0x1.999999999999ap-3 then 0x1.7565011e49676p-3 else nan |}.

End Example64.

(* ====================================================================== *)
(** * Dictionaries and string equality *)
(* ====================================================================== *)

Lemma str_eqb_eq a b : str_eqb a b = true <-> a = b.
Proof. unfold str_eqb. apply bool_decide_eq_true. Qed.

Lemma str_eqb_sym a b : str_eqb a b = str_eqb b a.
Proof. unfold str_eqb. apply bool_decide_ext. split; congruence. Qed.

Lemma odict_get_set {V} (d : odict V) k v k' :
  odict_get (odict_set d k v) k' = if str_eqb k k' then Some v else odict_get d k'.
Proof.
  induction d as [|[k0 v0] d IH]; simpl.
  - reflexivity.
  - destruct (str_eqb k0 k) eqn:E; simpl.
    + apply str_eqb_eq in E. subst k0. destruct (str_eqb k k'); reflexivity.
    + rewrite IH. destruct (str_eqb k0 k') eqn:E'; [|reflexivity].
      apply str_eqb_eq in E'. subst k0.
      destruct (str_eqb k k') eqn:E2; [|reflexivity].
      apply str_eqb_eq in E2. subst k'.
      rewrite (proj2 (str_eqb_eq k k) eq_refl) in E. discriminate.
Qed.

Lemma odict_set_nonempty {V} (d : odict V) k v : odict_set d k v <> [].
Proof. destruct d as [|[k0 v0] d]; simpl; [|destruct (str_eqb k0 k)]; discriminate. Qed.

Lemma str_eqb_refl (a : pystr) : str_eqb a a = true.
Proof. unfold str_eqb. apply bool_decide_eq_true. reflexivity. Qed.

Lemma str_eqb_neq (a b : pystr) : a <> b -> str_eqb a b = false.
Proof. unfold str_eqb. apply bool_decide_eq_false. Qed.

Lemma odict_get_None {V} (d : odict V) (k : pystr) :
  odict_get d k = None <-> ~ In k (map fst d).
Proof.
  induction d as [|[k0 v0] d IH]; simpl; [tauto|].
  destruct (str_eqb k0 k) eqn:E.
  - apply str_eqb_eq in E. subst. split; [discriminate|tauto].
  - rewrite IH. split; [|tauto]. intros H [Hk|Hk]; [|tauto].
    subst. rewrite (proj2 (str_eqb_eq k k) eq_refl) in E. discriminate.
Qed.

Lemma odict_get_In {V} (d : odict V) (k : pystr) (v : V) :
  NoDup (map fst d) -> (odict_get d k = Some v <-> In (k, v) d).
Proof.
  induction d as [|[k0 v0] d IH]; simpl; intros Hnd.
  - split; [discriminate|tauto].
  - apply NoDup_cons in Hnd. destruct Hnd as [Hk0 Hnd].
    destruct (str_eqb k0 k) eqn:E.
    + apply str_eqb_eq in E. subst k0. split.
      * intros [= ->]. left. reflexivity.
      * intros [[= ->]|Hin]; [reflexivity|].
        exfalso. apply Hk0. apply list_elem_of_In.
        apply (in_map fst) in Hin. exact Hin.
    + rewrite (IH Hnd). split; [tauto|]. intros [[= -> ->]|Hin]; [|exact Hin].
      rewrite (proj2 (str_eqb_eq k k) eq_refl) in E. discriminate.
Qed.

Lemma odict_get_perm {V} (d d' : odict V) (k : pystr) :
  NoDup (map fst d) -> Permutation d d' -> odict_get d k = odict_get d' k.
Proof.
  intros Hnd Hp.
  assert (Hnd' : NoDup (map fst d')).
  { pose proof (Permutation_map fst Hp) as Hp'. rewrite <- Hp'. exact Hnd. }
  destruct (odict_get d k) as [v|] eqn:E.
  - symmetry. apply (odict_get_In d' k v Hnd').
    apply (Permutation_in _ Hp). apply (odict_get_In d k v Hnd), E.
  - symmetry. apply odict_get_None. apply odict_get_None in E.
    intros Hin. apply E. eapply Permutation_in; [|exact Hin].
    apply Permutation_map. symmetry. exact Hp.
Qed.

Lemma odict_keys_set {V} (d : odict V) (k : pystr) (v : V) :
  map fst (odict_set d k v)
  = match odict_get d k with
    | Some _ => map fst d
    | None => map fst d ++ [k]
    end.
Proof.
  induction d as [|[k0 v0] d IH]; simpl; [reflexivity|].
  destruct (str_eqb k0 k); simpl; [reflexivity|].
  rewrite IH. destruct (odict_get d k); reflexivity.
Qed.

Lemma odict_set_NoDup {V} (d : odict V) (k : pystr) (v : V) :
  NoDup (map fst d) -> NoDup (map fst (odict_set d k v)).
Proof.
  intros H. rewrite odict_keys_set.
  destruct (odict_get d k) eqn:E; [exact H|].
  apply odict_get_None in E. apply NoDup_app. split; [exact H|]. split.
  - intros x Hx Hx'. apply list_elem_of_In in Hx.
    apply list_elem_of_In in Hx'. destruct Hx' as [<-|[]]. tauto.
  - apply NoDup_singleton.
Qed.


(* ====================================================================== *)
(** * Stable sorting *)
(* ====================================================================== *)

Section Sorting.
Context {A : Type} (le : A -> A -> bool).

Lemma insert_sorted_perm x l : Permutation (insert_sorted le x l) (x :: l).
Proof.
  induction l as [|y l IH]; simpl; [reflexivity|].
  destruct (le x y); [reflexivity|].
  rewrite IH. apply perm_swap.
Qed.

Lemma sorted_perm l : Permutation (sorted le l) l.
Proof.
  induction l as [|x l IH]; simpl; [reflexivity|].
  rewrite insert_sorted_perm, IH. reflexivity.
Qed.

Hypothesis le_total : forall a b, le a b = false -> le b a = true.
Hypothesis le_trans : forall a b c, le a b = true -> le b c = true -> le a c = true.

Lemma insert_sorted_strongly x l :
  StronglySorted (fun a b => le a b = true) l ->
  StronglySorted (fun a b => le a b = true) (insert_sorted le x l).
Proof.
  induction 1 as [|y l Hs IH Hy]; simpl.
  - repeat constructor.
  - destruct (le x y) eqn:E.
    + constructor; [constructor; assumption|].
      constructor; [exact E|].
      eapply Forall_impl; [exact Hy|]. intros z Hz. eapply le_trans; eauto.
    + constructor; [exact IH|].
      apply Forall_forall. intros z Hz.
      apply list_elem_of_In in Hz.
      apply (Permutation_in _ (insert_sorted_perm x l)) in Hz.
      destruct Hz as [<-|Hz]; [apply le_total, E|].
      apply (proj1 (Forall_forall _ _) Hy), list_elem_of_In, Hz.
Qed.

Lemma sorted_strongly l : StronglySorted (fun a b => le a b = true) (sorted le l).
Proof.
  induction l as [|x l IH]; simpl; [constructor|].
  apply insert_sorted_strongly, IH.
Qed.

End Sorting.

(* ====================================================================== *)
(** * The composite sort key *)
(* ====================================================================== *)

Section Comparisons.

Lemma good_lt_eq {A} (cmp : A -> A -> comparison) (G : good_cmp cmp) x y z :
  cmp x y = Lt -> cmp y z = Eq -> cmp x z = Lt.
Proof.
  intros H1 H2.
  assert (Hzy : cmp z y = Eq) by (rewrite (gc_sym _ G y z), H2; reflexivity).
  pose proof (gc_eq _ G z y x Hzy) as H3.
  rewrite (gc_sym _ G x y), H1 in H3. simpl in H3.
  rewrite (gc_sym _ G z x), H3. reflexivity.
Qed.

Lemma good_lex {A B} (c1 : A -> A -> comparison) (c2 : B -> B -> comparison) :
  good_cmp c1 -> good_cmp c2 -> good_cmp (lex c1 c2).
Proof.
  intros G1 G2. split.
  - intros [x1 x2] [y1 y2]. unfold lex. simpl.
    rewrite (gc_sym _ G1 x1 y1). destruct (c1 x1 y1); simpl; auto.
    apply (gc_sym _ G2).
  - intros [x1 x2] [y1 y2] [z1 z2]. unfold lex. simpl.
    destruct (c1 x1 y1) eqn:E1; try discriminate.
    + rewrite (gc_eq _ G1 _ _ z1 E1).
      destruct (c1 y1 z1); try discriminate; auto. apply (gc_trans _ G2).
    + intros _. destruct (c1 y1 z1) eqn:E2; try discriminate.
      * intros _. rewrite (good_lt_eq c1 G1 _ _ _ E1 E2). reflexivity.
      * intros _. rewrite (gc_trans _ G1 _ _ _ E1 E2). reflexivity.
  - intros [x1 x2] [y1 y2] [z1 z2]. unfold lex. simpl.
    destruct (c1 x1 y1) eqn:E1; try discriminate.
    intros E2. rewrite (gc_eq _ G1 _ _ z1 E1).
    destruct (c1 y1 z1); auto. apply (gc_eq _ G2), E2.
Qed.

Lemma good_bool_compare : good_cmp bool_compare.
Proof.
  split.
  - intros [] []; reflexivity.
  - intros [] [] []; simpl; congruence.
  - intros [] [] []; simpl; congruence.
Qed.

Lemma good_N_compare : good_cmp N.compare.
Proof.
  split.
  - intros x y. apply N.compare_antisym.
  - intros x y z. rewrite !N.compare_lt_iff. lia.
  - intros x y z H. apply N.compare_eq in H. subst. reflexivity.
Qed.

Lemma str_compare_eq x : forall y, str_compare x y = Eq -> x = y.
Proof.
  induction x as [|a x IH]; intros [|b y]; simpl; try discriminate; auto.
  destruct (a ?= b)%N eqn:E; try discriminate.
  apply N.compare_eq in E. subst. intros H. f_equal. apply IH, H.
Qed.

Lemma good_str_compare : good_cmp str_compare.
Proof.
  split.
  - induction x as [|a x IH]; intros [|b y]; simpl; auto.
    rewrite (N.compare_antisym a b). destruct (a ?= b)%N; simpl; auto.
  - induction x as [|a x IH]; intros [|b y] [|c z]; simpl; try discriminate; auto.
    destruct (a ?= b)%N eqn:E1; try discriminate.
    + apply N.compare_eq in E1. subst.
      destruct (b ?= c)%N; try discriminate; auto. apply IH.
    + intros _. destruct (b ?= c)%N eqn:E2; try discriminate.
      * apply N.compare_eq in E2. subst. rewrite E1. reflexivity.
      * intros _. rewrite (gc_trans _ good_N_compare _ _ _ E1 E2). reflexivity.
  - intros x y z H. apply str_compare_eq in H. subst. reflexivity.
Qed.

Lemma good_Qcompare : good_cmp Qcompare.
Proof.
  split.
  - intros x y. symmetry. apply Qcompare_antisym.
  - intros x y z. rewrite <- !Qlt_alt. apply Qlt_trans.
  - intros x y z H. apply Qeq_alt in H. rewrite H. reflexivity.
Qed.

Lemma key_compare_lex k1 k2 :
  key_compare k1 k2 =
  lex (lex (lex (lex bool_compare bool_compare) Qcompare) bool_compare)
      str_compare k1 k2.
Proof.
  destruct k1 as [[[[a1 b1] c1] d1] e1], k2 as [[[[a2 b2] c2] d2] e2].
  unfold lex. simpl.
  destruct (bool_compare a1 a2), (bool_compare b1 b2), (c1 ?= c2)%Q,
    (bool_compare d1 d2); reflexivity.
Qed.

Lemma good_key_compare : good_cmp key_compare.
Proof.
  assert (G : good_cmp
    (lex (lex (lex (lex bool_compare bool_compare) Qcompare) bool_compare)
         str_compare)).
  { repeat apply good_lex; auto using good_bool_compare, good_Qcompare,
      good_str_compare. }
  split.
  - intros x y. rewrite !key_compare_lex. apply (gc_sym _ G).
  - intros x y z. rewrite !key_compare_lex. apply (gc_trans _ G).
  - intros x y z. rewrite !key_compare_lex. apply (gc_eq _ G).
Qed.

Lemma key_le_total a b : key_le a b = false -> key_le b a = true.
Proof.
  unfold key_le. rewrite (gc_sym _ good_key_compare a b).
  destruct (key_compare a b); simpl; congruence.
Qed.

Lemma key_le_trans a b c : key_le a b = true -> key_le b c = true -> key_le a c = true.
Proof.
  unfold key_le. pose proof good_key_compare as G.
  destruct (key_compare a b) eqn:E1; try discriminate;
    destruct (key_compare b c) eqn:E2; try discriminate; intros _ _.
  - rewrite (gc_eq _ G _ _ c E1), E2. reflexivity.
  - rewrite (gc_eq _ G _ _ c E1), E2. reflexivity.
  - rewrite (good_lt_eq _ G _ _ _ E1 E2). reflexivity.
  - rewrite (gc_trans _ G _ _ _ E1 E2). reflexivity.
Qed.

End Comparisons.

(* ====================================================================== *)
(** * Canonical code keys *)
(* ====================================================================== *)

Section Canon.
Context {U : Unicode}.

Lemma AZ09_bounds c : is_AZ09 c = true -> (48 <= c <= 90)%N.
Proof.
  unfold is_AZ09, in_range. intros H.
  apply orb_true_iff in H. destruct H as [H|H];
    apply andb_true_iff in H; destruct H as [H1 H2];
    apply N.leb_le in H1; apply N.leb_le in H2; lia.
Qed.


Lemma AZ09_not_space c : is_AZ09 c = true -> is_space c = false.
Proof.
  intros H. apply AZ09_bounds in H.
  unfold is_space, in_range. settle_comparisons. reflexivity.
Qed.

Lemma AZ09_upper_char c : is_AZ09 c = true -> upper_char c = [c].
Proof.
  intros H. apply AZ09_bounds in H.
  unfold upper_char, in_range. settle_comparisons. reflexivity.
Qed.

Lemma upper_AZ09 s : Forall (fun c => is_AZ09 c = true) s -> upper s = s.
Proof.
  induction 1 as [|c s Hc _ IH]; [reflexivity|].
  unfold upper in *. simpl. rewrite AZ09_upper_char, IH by assumption. reflexivity.
Qed.

Lemma lstrip_head c s : is_space c = false -> lstrip (c :: s) = c :: s.
Proof. intros H. simpl. rewrite H. reflexivity. Qed.

Lemma strip_no_space s : Forall (fun c => is_space c = false) s -> strip s = s.
Proof.
  intros H. unfold strip, rstrip.
  assert (Hl : forall t, Forall (fun c => is_space c = false) t -> lstrip t = t).
  { intros t Ht. destruct Ht; [reflexivity|]. apply lstrip_head. assumption. }
  rewrite (Hl s H), Hl, rev_involutive; [reflexivity|].
  apply Forall_rev. assumption.
Qed.

Lemma filter_all {A} (f : A -> bool) l :
  Forall (fun x => f x = true) l -> List.filter f l = l.
Proof.
  induction 1 as [|x l Hx _ IH]; simpl; [reflexivity|]. rewrite Hx, IH. reflexivity.
Qed.

Lemma canon_AZ09 code : Forall (fun c => is_AZ09 c = true) (_canon code).
Proof.
  unfold _canon. apply Forall_forall. intros x Hx.
  apply list_elem_of_In, List.filter_In in Hx. tauto.
Qed.

Lemma canon_fixed s : Forall (fun c => is_AZ09 c = true) s -> _canon s = s.
Proof.
  intros H. unfold _canon.
  assert (Hs : Forall (fun c => is_space c = false) s).
  { eapply Forall_impl; [exact H|]. intros c Hc. apply AZ09_not_space, Hc. }
  rewrite (upper_AZ09 s H), (strip_no_space s Hs).
  assert (Hd : Forall (fun x => negb (is_space x || (x =? 46)%N) = true) s).
  { eapply Forall_impl; [exact H|]. intros x Hx. simpl.
    rewrite (AZ09_not_space x Hx). apply AZ09_bounds in Hx.
    settle_comparisons. reflexivity. }
  rewrite (filter_all _ s Hd). apply filter_all, H.
Qed.

(** C7. Canonicalisation is idempotent on every string, and the dot, the
    space and the letter case of a code do not change its canonical key:
    [_canon "I44.1" = _canon "I441" = _canon "i 44.1"]. *)
Theorem canon_idempotent_insensitive :
  (forall c : pystr, _canon (_canon c) = _canon c)
  /\ _canon (u "I44.1") = _canon (u "I441")
  /\ _canon (u "I441") = _canon (u "i 44.1").
Proof.
  split; [|split].
  - intros c. apply canon_fixed, canon_AZ09.
  - reflexivity.
  - reflexivity.
Qed.

End Canon.

(* ====================================================================== *)
(** * Description overlap score *)
(* ====================================================================== *)

Section Score.
Context {U : Unicode}.

Lemma overlap_ratio_bounds (a b : nat) :
  (a <= b)%nat ->
  (0 <= Z.of_nat a # Pos.of_nat (b + 1))%Q /\ (Z.of_nat a # Pos.of_nat (b + 1) < 1)%Q.
Proof.
  intros Hab. unfold Qle, Qlt. simpl.
  assert (Hp : Z.pos (Pos.of_nat (b + 1)) = Z.of_nat (b + 1)).
  { rewrite Znat.positive_nat_Z || idtac.
    rewrite <- (Nat2Pos.id (b + 1)) at 2 by lia.
    symmetry. apply positive_nat_Z. }
  rewrite Hp. split; lia.
Qed.

(** C9. The token-overlap score of a code against a query is a ratio in
    the interval [0, 1): zero without a description, and otherwise the
    number of shared tokens over the number of description tokens plus
    one. *)
Theorem score_code_vs_query_bounds (code query : pystr) :
  (0 <= score_code_vs_query code query)%Q /\ (score_code_vs_query code query < 1)%Q.
Proof.
  unfold score_code_vs_query.
  destruct (default [] (odict_get ICD_DESCRIPTIONS code)) as [|c desc].
  - split; [apply Qle_refl|reflexivity].
  - destruct (decide _) as [_|_]; [split; [apply Qle_refl|reflexivity]|].
    apply overlap_ratio_bounds.
    apply subseteq_size, intersection_subseteq_r.
Qed.

End Score.

(* ====================================================================== *)
(** * Order of the codes in the fallback ranker *)
(* ====================================================================== *)

Section FallbackOrder.
Context {U : Unicode}.

(** C3. For each evidence chunk the fallback ranker visits the offered
    codes in ascending order of the key
    [(not exact, not prefix, - overlap score, not has_dot, code)],
    compared lexicographically: the visited list is a rearrangement of the
    offered codes that is sorted for that key, where [exact] is membership
    in [stage1_full] and [prefix] is membership of the first three
    characters in [stage1_prefix]. For evidence offering I44.0 and I44.1
    and a stage-1 prediction with [full_codes = {I44.1}], I44.1 is selected
    before I44.0, whatever the query. *)
Theorem fallback_code_order (stage1 : option stage1_prediction) (query : pystr)
    (chunk : chunk) :
  (let full := (stage1_sets stage1).1 in
   let pfx := (stage1_sets stage1).2 in
   let key := code_sort_key full pfx query in
   let ordered := ordered_codes full pfx query chunk in
   Permutation ordered (offered_codes chunk)
   /\ StronglySorted (fun a b => key_le (key a) (key b) = true) ordered
   /\ (forall c,
         key c =
         (negb (bool_decide (c ∈ full)),
          negb (bool_decide (take 3 c ∈ pfx)),
          (- match query with [] => 0 | _ => score_code_vs_query c query end)%Q,
          negb (contains (u ".") c),
          c)))
  /\ (forall pid title body : pystr,
        let evidence := evidence_chunk pid title body [u "I44.0"; u "I44.1"] in
        let s1 := Some {| full_codes := {[u "I44.1"]}; candidates := [] |} in
        ordered_codes (stage1_sets s1).1 (stage1_sets s1).2 query evidence
        = [u "I44.1"; u "I44.0"]
        /\ map code_of (fallback_diagnoses [evidence] s1 query)
           = [Some (JStr (u "I44.1")); Some (JStr (u "I44.0"))]).
Proof.
  split.
  - cbv zeta. split; [|split].
    + apply sorted_perm.
    + unfold ordered_codes.
      apply (sorted_strongly
               (fun a b =>
                  key_le (code_sort_key (stage1_sets stage1).1 (stage1_sets stage1).2 query a)
                         (code_sort_key (stage1_sets stage1).1 (stage1_sets stage1).2 query b))).
      * intros a b. apply key_le_total.
      * intros a b c. apply key_le_trans.
    + intros c. reflexivity.
  - intros pid title body. cbv zeta. split.
    + vm_compute. reflexivity.
    + vm_compute. reflexivity.
Qed.

End FallbackOrder.

(* ====================================================================== *)
(** * The fallback ranker returns three diagnoses *)
(* ====================================================================== *)

Section FallbackThree.
Context {U : Unicode}.

Lemma ranked_from_app k ds a b c :
  ranked_from k ds ->
  ranked_from k (ds ++ [diagnosis_entry (k + length ds) a b c]).
Proof.
  revert k. induction ds as [|d ds IH]; intros k H; simpl in *.
  - rewrite Nat.add_0_r. split; [eauto|exact I].
  - destruct H as [Hd Hr]. split; [exact Hd|].
    replace (k + S (length ds))%nat with (S k + length ds)%nat by lia.
    apply IH, Hr.
Qed.


Lemma emit_code_inv source idx st code :
  fallback_inv st -> fallback_inv (emit_code source idx st code).
Proof.
  destruct st as [[ds rank] seen]. unfold fallback_inv, emit_code. simpl.
  intros (Hr & Hl & Hk).
  destruct (decide (3 < rank)); [simpl; auto|].
  destruct (bool_decide _); [simpl; auto|]. simpl.
  rewrite length_app. simpl. repeat split; try lia.
  replace rank with (1 + length ds)%nat by lia.
  apply ranked_from_app, Hk.
Qed.

Lemma fallback_chunk_inv full pfx query st entry :
  fallback_inv st -> fallback_inv (fallback_chunk full pfx query st entry).
Proof.
  intros H. unfold fallback_chunk. destruct entry as [idx c].
  destruct (decide _) as [_|_]; [exact H|].
  generalize (ordered_codes full pfx query c). intros l.
  revert st H. induction l as [|x l IH]; intros st H; simpl; [exact H|].
  apply IH, emit_code_inv, H.
Qed.

Lemma fallback_diagnoses_inv chunks stage1 query :
  (length (fallback_diagnoses chunks stage1 query) <= 3)%nat
  /\ ranked_from 1 (fallback_diagnoses chunks stage1 query).
Proof.
  unfold fallback_diagnoses. destruct (stage1_sets stage1) as [full pfx].
  assert (H : fallback_inv ([], 1%nat, ∅)).
  { unfold fallback_inv. simpl. repeat split; lia. }
  revert H. generalize (([], 1%nat, ∅) : fallback_state).
  generalize (enumerate chunks). intros l.
  induction l as [|e l IH]; intros st H; simpl.
  - destruct H as (_ & H1 & H2). auto.
  - apply IH, fallback_chunk_inv, H.
Qed.

(** C5. Whatever the evidence, the stage-1 prediction and the query, the
    fallback ranker returns a dictionary whose [diagnoses] list has exactly
    three entries ranked 1, 2, 3: the diagnoses its loops emitted (at most
    three), followed by placeholder entries for the missing slots. With no
    evidence all three are placeholders. It never raises. *)
Theorem smart_fallback_three (chunks : list chunk)
    (stage1 : option stage1_prediction) (query : pystr) :
  (exists e1 e2 e3,
     _smart_fallback chunks stage1 query = Some [(u "diagnoses", JArr [e1; e2; e3])]
     /\ map rank_of [e1; e2; e3] = [Some (JInt 1); Some (JInt 2); Some (JInt 3)]
     /\ [e1; e2; e3] =
        fallback_diagnoses chunks stage1 query
          ++ map placeholder
               (seq (length (fallback_diagnoses chunks stage1 query) + 1)
                    (3 - length (fallback_diagnoses chunks stage1 query))))
  /\ _smart_fallback [] stage1 query =
     Some [(u "diagnoses", JArr [placeholder 1; placeholder 2; placeholder 3])].
Proof.
  split.
  - unfold _smart_fallback.
    destruct (fallback_diagnoses_inv chunks stage1 query) as [Hl Hr].
    destruct (fallback_diagnoses chunks stage1 query) as [|d1 [|d2 [|d3 [|d4 ds]]]];
      simpl in Hl; try lia; simpl in Hr.
    + do 3 eexists. split; [vm_compute; reflexivity|]. split; reflexivity.
    + destruct Hr as [(a1 & b1 & c1 & ->) _].
      do 3 eexists. split; [vm_compute; reflexivity|]. split; reflexivity.
    + destruct Hr as [(a1 & b1 & c1 & ->) [(a2 & b2 & c2 & ->) _]].
      do 3 eexists. split; [vm_compute; reflexivity|]. split; reflexivity.
    + destruct Hr as [(a1 & b1 & c1 & ->) [(a2 & b2 & c2 & ->) [(a3 & b3 & c3 & ->) _]]].
      do 3 eexists. split; [vm_compute; reflexivity|]. split; reflexivity.
  - unfold _smart_fallback, fallback_diagnoses.
    destruct (stage1_sets stage1). vm_compute. reflexivity.
Qed.

End FallbackThree.

(* ====================================================================== *)
(** * Votes of the local keyword predictor *)
(* ====================================================================== *)

Section Votes.
Context {U : Unicode}.


Lemma add_votes_spec codes : forall st code,
  votes_of (add_votes st codes).1 code = (votes_of st.1 code + occurrences code codes)%nat
  /\ (add_votes st codes).2 = list_to_set codes ∪ st.2
  /\ (st.1 <> [] \/ codes <> [] -> (add_votes st codes).1 <> []).
Proof.
  unfold add_votes.
  induction codes as [|c codes IH]; intros st code; simpl.
  - repeat split; [unfold occurrences; simpl; lia|set_solver|tauto].
  - destruct (IH (odict_set st.1 c (default 0 (odict_get st.1 c) + 1)%nat,
                  {[c]} ∪ st.2) code) as (H1 & H2 & H3).
    simpl in *. rewrite H1, H2. repeat split.
    + unfold votes_of, occurrences. simpl. rewrite odict_get_set.
      rewrite (str_eqb_sym code c).
      destruct (str_eqb c code) eqn:E; simpl; [|lia].
      apply str_eqb_eq in E. subst c. lia.
    + set_solver.
    + intros _. apply H3. left. apply odict_set_nonempty.
Qed.

Lemma vote_rule_spec q kws codes : forall st code,
  let rule := (kws, codes) in
  votes_of (vote_rule q st rule).1 code
  = (votes_of st.1 code + matching_keywords q rule * occurrences code codes)%nat
  /\ (vote_rule q st rule).2
     = list_to_set (if rule_matches q rule then codes else []) ∪ st.2.
Proof.
  unfold vote_rule, rule_matches, matching_keywords. simpl.
  induction kws as [|kw kws IH]; intros st code; simpl.
  - split; [lia|set_solver].
  - fold (add_votes st codes).
    destruct (contains (lower kw) q) eqn:E; simpl; [|apply IH].
    destruct (IH (add_votes st codes) code) as (H1 & H2).
    destruct (add_votes_spec codes st code) as (A1 & A2 & _).
    rewrite H1, H2, A1, A2. split; [lia|].
    destruct (existsb _ kws); set_solver.
Qed.


Lemma add_votes_inv st codes : votes_inv st -> votes_inv (add_votes st codes).
Proof.
  intros H. destruct codes as [|c codes]; [exact H|].
  intros E. exfalso. revert E.
  apply (add_votes_spec (c :: codes) st []). right. discriminate.
Qed.

Lemma vote_rule_inv q rule : forall st, votes_inv st -> votes_inv (vote_rule q st rule).
Proof.
  unfold vote_rule. induction rule.1 as [|kw kws IH]; intros st H; simpl; [exact H|].
  destruct (contains (lower kw) q); [|apply IH, H].
  apply IH. fold (add_votes st rule.2). apply add_votes_inv, H.
Qed.

Lemma vote_spec table q code :
  votes_of (vote table q).1 code = votes_per_keyword table q code
  /\ (vote table q).2 = list_to_set (matched_codes table q)
  /\ votes_inv (vote table q).
Proof.
  unfold vote.
  assert (G : forall st,
    votes_inv st ->
    votes_of (fold_left (vote_rule q) table st).1 code
    = (votes_of st.1 code + votes_per_keyword table q code)%nat
    /\ (fold_left (vote_rule q) table st).2 = list_to_set (matched_codes table q) ∪ st.2
    /\ votes_inv (fold_left (vote_rule q) table st)).
  { induction table as [|[kws codes] table IH]; intros st Hst; simpl.
    - split; [|split]; [lia|set_solver|exact Hst].
    - destruct (IH (vote_rule q st (kws, codes)) (vote_rule_inv q _ st Hst))
        as (H1 & H2 & H3).
      destruct (vote_rule_spec q kws codes st code) as (R1 & R2).
      rewrite H1, H2, R1, R2. split; [|split]; [lia| |exact H3].
      rewrite list_to_set_app_L. set_solver. }
  destruct (G ([], ∅)) as (H1 & H2 & H3); [intros _; reflexivity|].
  rewrite H1, H2. split; [|split]; [|set_solver|exact H3].
  unfold votes_of. simpl. lia.
Qed.

(** C4, as the code has it. Every keyword of a rule that is a substring
    of the lowercased query gives one vote to every code of the rule's
    list, so a rule with k matching keywords gives k votes to each of its
    codes, and votes add up over keywords and over rules; the full code
    set is the set of the codes of the rules with a matching keyword. *)
Theorem local_votes_per_keyword (query code : pystr) :
  votes_of (vote KEYWORD_ICD_MAP (lower query)).1 code
  = votes_per_keyword KEYWORD_ICD_MAP (lower query) code
  /\ (local_predict_codes_full query).2
     = list_to_set (matched_codes KEYWORD_ICD_MAP (lower query)).
Proof.
  destruct (vote_spec KEYWORD_ICD_MAP (lower query) code) as (H1 & H2 & H3).
  split; [exact H1|].
  unfold local_predict_codes_full.
  destruct (vote KEYWORD_ICD_MAP (lower query)) as [scores full] eqn:E.
  simpl in *. destruct scores; simpl; [|exact H2].
  rewrite <- H2. symmetry. apply H3. reflexivity.
Qed.

End Votes.

(** C4, as stated, fails: for the query below only the conduction-block
    rule matches, through two of its keywords, and the code I44.2, which
    only that rule lists, gets two votes where one vote per matching rule
    would give one. *)
Lemma votes_counterexample :
  let q := lower (U:=caseless) (u "брадикардия, редкий пульс") in
  votes_per_rule (U:=caseless) KEYWORD_ICD_MAP q (u "I44.2") = 1%nat
  /\ votes_of (vote (U:=caseless) KEYWORD_ICD_MAP q).1 (u "I44.2") = 2%nat
  /\ votes_of (vote (U:=caseless) KEYWORD_ICD_MAP q).1 (u "I44.2")
     <> votes_per_rule (U:=caseless) KEYWORD_ICD_MAP q (u "I44.2").
Proof. vm_compute. repeat split; discriminate. Qed.

(* ====================================================================== *)
(** * The code index *)
(* ====================================================================== *)

Section CodeIndex.
Context {U : Unicode}.

Lemma register_lookup (cap : nat) (k : pystr) (c : chunk) (idx : gmap pystr (list chunk)) (k' : pystr) :
  register cap k c idx !! k' =
  if decide (k = k')
  then Some (if decide (length (default [] (idx !! k)) < cap)
             then default [] (idx !! k) ++ [c] else default [] (idx !! k))
  else idx !! k'.
Proof.
  unfold register.
  destruct (decide (length (default [] (idx !! k)) < cap));
    rewrite lookup_insert; repeat case_decide; congruence.
Qed.

Lemma register_present (cap : nat) (k : pystr) (c : chunk) (idx : gmap pystr (list chunk)) (k' : pystr) :
  k' = k \/ is_Some (idx !! k') -> is_Some (register cap k c idx !! k').
Proof.
  rewrite register_lookup. case_decide as Hk; [eauto|].
  intros [->|H]; [congruence|exact H].
Qed.

Lemma register_inv (cs : list chunk) (cap : nat) (k : pystr) (c : chunk) (idx : gmap pystr (list chunk)) :
  (0 < cap <= 5)%nat -> ((3 < length k)%nat -> (cap <= 3)%nat) ->
  In c cs -> registers c k ->
  code_idx_inv cs idx -> code_idx_inv cs (register cap k c idx).
Proof.
  intros Hcap Hk Hc Hr Hinv k' l. rewrite register_lookup.
  case_decide as Hne; [subst k'|exact (Hinv k' l)].
  intros [= <-].
  destruct (idx !! k) as [l0|] eqn:E; rewrite ?E in *; simpl in *.
  - destruct (Hinv k l0 E) as (H1 & H2 & H3 & H4).
    case_decide.
    + split; [|split; [|split]].
      * intros Heq. apply (f_equal length) in Heq.
        rewrite length_app in Heq. simpl in Heq. lia.
      * rewrite length_app. simpl. lia.
      * intros H5. specialize (Hk H5). rewrite length_app. simpl. lia.
      * apply Forall_app. split; [exact H4|]. constructor; [auto|constructor].
    + split; [|split; [|split]]; auto.
  - case_decide; [|simpl in *; lia]. simpl. split; [|split; [|split]].
    + congruence.
    + lia.
    + lia.
    + constructor; [auto|constructor].
Qed.

Lemma take3_length (k : pystr) : (length (take 3 k) <= 3)%nat.
Proof. rewrite length_take. lia. Qed.

Lemma code_step_inv cs c idx code :
  In c cs -> In code (icd_codes c) ->
  code_idx_inv cs idx -> code_idx_inv cs (code_step c idx code).
Proof.
  intros Hc Hcode Hinv. unfold code_step.
  destruct code as [raw|r]; [|exact Hinv].
  destruct (strip raw) as [|x s] eqn:E; [exact Hinv|].
  assert (Hr : forall k, k = _canon (x :: s) \/ k = take 3 (_canon (x :: s)) ->
                         registers c k).
  { intros k Hk. exists raw. rewrite E. repeat split; [exact Hcode|congruence|exact Hk]. }
  apply register_inv; [lia| |exact Hc|apply Hr; auto|].
  { intros H. pose proof (take3_length (_canon (x :: s))). lia. }
  apply register_inv; [lia|lia|exact Hc|apply Hr; auto|exact Hinv].
Qed.

Lemma code_step_present (c : chunk) (idx : gmap pystr (list chunk)) code (k : pystr) :
  is_Some (idx !! k) -> is_Some (code_step c idx code !! k).
Proof.
  intros H. unfold code_step.
  destruct code as [raw|r]; [|exact H].
  destruct (strip raw); [exact H|].
  apply register_present. right. apply register_present. right. exact H.
Qed.

Lemma code_step_registers c idx raw :
  strip raw <> [] ->
  is_Some (code_step c idx (CStr raw) !! _canon (strip raw))
  /\ is_Some (code_step c idx (CStr raw) !! take 3 (_canon (strip raw))).
Proof.
  intros H. unfold code_step.
  destruct (strip raw) as [|x s]; [congruence|]. split.
  - apply register_present. right. apply register_present. left. reflexivity.
  - apply register_present. left. reflexivity.
Qed.

Lemma code_steps_present (c : chunk) codes : forall (idx : gmap pystr (list chunk)) (k : pystr),
  is_Some (idx !! k) -> is_Some (fold_left (code_step c) codes idx !! k).
Proof.
  induction codes as [|code codes IH]; intros idx k H; simpl; [exact H|].
  apply IH, code_step_present, H.
Qed.

Lemma index_code_idx c self code :
  _code_idx (index_code c self code) = code_step c (_code_idx self) code.
Proof.
  unfold index_code, code_step.
  destruct code as [raw|r]; [|reflexivity].
  destruct (strip raw); reflexivity.
Qed.

Lemma index_codes_idx c codes : forall self,
  _code_idx (fold_left (index_code c) codes self)
  = fold_left (code_step c) codes (_code_idx self).
Proof.
  induction codes as [|code codes IH]; intros self; simpl; [reflexivity|].
  rewrite IH, index_code_idx. reflexivity.
Qed.

Lemma index_title_idx pid src self :
  _code_idx (index_title pid src self) = _code_idx self.
Proof. unfold index_title. destruct (_pid_title self !! pid); reflexivity. Qed.

Lemma index_chunk_idx self c :
  _code_idx (index_chunk self c)
  = fold_left (code_step c) (icd_codes c) (_code_idx self).
Proof.
  unfold index_chunk. rewrite index_codes_idx, index_title_idx. reflexivity.
Qed.

Lemma code_steps_inv cs c codes : forall idx,
  In c cs -> (forall code, In code codes -> In code (icd_codes c)) ->
  code_idx_inv cs idx -> code_idx_inv cs (fold_left (code_step c) codes idx).
Proof.
  induction codes as [|code codes IH]; intros idx Hc Hsub Hinv; simpl; [exact Hinv|].
  apply IH; [exact Hc|intros; apply Hsub; right; assumption|].
  apply code_step_inv; [exact Hc|apply Hsub; left; reflexivity|exact Hinv].
Qed.

Lemma code_steps_registers c raw codes : forall idx,
  In (CStr raw) codes -> strip raw <> [] ->
  is_Some (fold_left (code_step c) codes idx !! _canon (strip raw))
  /\ is_Some (fold_left (code_step c) codes idx !! take 3 (_canon (strip raw))).
Proof.
  induction codes as [|code codes IH]; intros idx Hin Hne; [destruct Hin|].
  simpl. destruct Hin as [->|Hin]; [|apply IH; assumption].
  destruct (code_step_registers c idx raw Hne) as [H1 H2].
  split; apply code_steps_present; assumption.
Qed.

(** The build over a list of chunks, seen from the code index. *)
Lemma build_idx cs0 : forall self cs,
  (forall c, In c cs0 -> In c cs) ->
  code_idx_inv cs (_code_idx self) ->
  code_idx_inv cs (_code_idx (fold_left index_chunk cs0 self))
  /\ (forall c raw, In c cs0 -> In (CStr raw) (icd_codes c) -> strip raw <> [] ->
        is_Some (_code_idx (fold_left index_chunk cs0 self) !! _canon (strip raw))
        /\ is_Some (_code_idx (fold_left index_chunk cs0 self)
                      !! take 3 (_canon (strip raw))))
  /\ (forall k : pystr, is_Some (_code_idx self !! k) ->
        is_Some (_code_idx (fold_left index_chunk cs0 self) !! k)).
Proof.
  induction cs0 as [|c0 cs0 IH]; intros self cs Hsub Hinv; simpl.
  - split; [exact Hinv|]. split; [intros c raw []|auto].
  - assert (Hinv' : code_idx_inv cs (_code_idx (index_chunk self c0))).
    { rewrite index_chunk_idx. apply code_steps_inv; auto.
      apply Hsub. left. reflexivity. }
    destruct (IH (index_chunk self c0) cs) as (H1 & H2 & H3);
      [intros; apply Hsub; right; assumption|exact Hinv'|].
    split; [exact H1|]. split.
    + intros c raw [->|Hc] Hraw Hne; [|apply (H2 c raw); assumption].
      destruct (code_steps_registers c raw (icd_codes c) (_code_idx self) Hraw Hne)
        as [R1 R2].
      rewrite <- index_chunk_idx in R1, R2. split; apply H3; assumption.
    + intros k Hk. apply H3. rewrite index_chunk_idx.
      apply code_steps_present, Hk.
Qed.

(** C8, as the code has it. Every usable code of every chunk is registered
    in the code index under two keys, its canonical key and the first
    three characters of that key. Each list of exemplar chunks is
    non-empty, has at most 5 entries, and at most 3 when its key has more
    than three characters; every exemplar is a chunk of the collection
    that carries a code with that canonical key or that three-character
    prefix. The build registers no four-character prefix. *)
Theorem code_index_registration (cs : list chunk) (c : chunk) (raw : pystr) :
  In c cs -> In (CStr raw) (icd_codes c) -> strip raw <> [] ->
  let key := _canon (strip raw) in
  let idx := _code_idx (__init__ cs) in
  (exists l, idx !! key = Some l /\ l <> [] /\ (length l <= 5)%nat
             /\ ((3 < length key)%nat -> (length l <= 3)%nat)
             /\ Forall (fun e => In e cs /\ registers e key) l)
  /\ (exists l, idx !! take 3 key = Some l /\ l <> [] /\ (length l <= 5)%nat
                /\ Forall (fun e => In e cs /\ registers e (take 3 key)) l).
Proof.
  intros Hc Hraw Hne key idx. subst key idx. unfold __init__.
  destruct (build_idx cs
              {| chunks := cs; _pid_n := ∅; _pid_icd := ∅; _pid_title := ∅;
                 _code_idx := ∅; _title_idx := ∅ |} cs) as (H1 & H2 & _).
  - auto.
  - intros k l. simpl. rewrite lookup_empty. discriminate.
  - destruct (H2 c raw Hc Hraw Hne) as [[l1 E1] [l2 E2]]. split.
    + exists l1. split; [exact E1|]. apply H1, E1.
    + exists l2. split; [exact E2|].
      destruct (H1 _ _ E2) as (A & B & _ & D). auto.
Qed.

End CodeIndex.

(** A chunk whose only code is S72.01 (canonical key S7201). *)
Lemma code_index_registration_witness :
  let c := evidence_chunk (u "p1") (u "t.pdf") (u "body") [u "S72.01"] in
  let key := _canon (U:=caseless) (strip (u "S72.01")) in
  let idx := _code_idx (__init__ (U:=caseless) [c]) in
  (exists l, idx !! key = Some l /\ l <> [] /\ (length l <= 5)%nat
             /\ ((3 < length key)%nat -> (length l <= 3)%nat)
             /\ Forall (fun e => In e [c] /\ registers (U:=caseless) e key) l)
  /\ (exists l, idx !! take 3 key = Some l /\ l <> [] /\ (length l <= 5)%nat
                /\ Forall (fun e => In e [c] /\ registers (U:=caseless) e (take 3 key)) l).
Proof.
  intros c.
  apply (code_index_registration (U:=caseless) [c] c (u "S72.01")).
  - left. reflexivity.
  - left. reflexivity.
  - vm_compute. discriminate.
Defined.

(** C8, as stated, fails: after indexing a chunk with the code S72.01 the
    index has the canonical key S7201 and the prefix S72, and no entry
    under the four-character prefix S720. *)
Lemma code_index_no_four_prefix :
  let c := evidence_chunk (u "p1") (u "t.pdf") (u "body") [u "S72.01"] in
  let key := _canon (U:=caseless) (u "S72.01") in
  let idx := _code_idx (__init__ (U:=caseless) [c]) in
  key = u "S7201" /\ take 4 key = u "S720"
  /\ idx !! key = Some [c] /\ idx !! take 3 key = Some [c]
  /\ idx !! take 4 key = None.
Proof. vm_compute. repeat split. Qed.

(* ====================================================================== *)
(** * Merging the candidate sources *)
(* ====================================================================== *)

Section Merge.
Context {U : Unicode} {O : Oracles}.

Lemma add_spec (cs : list chunk) : forall st : merged,
  (add st cs).2 = st.2 ++ first_per_protocol st.1 cs
  /\ (add st cs).1 = list_to_set (map pid_of cs) ∪ st.1.
Proof.
  unfold add. induction cs as [|c cs IH]; intros [seen acc]; simpl.
  - rewrite app_nil_r. split; [reflexivity|set_solver].
  - case_bool_decide as Hin; simpl.
    + destruct (IH (seen, acc)) as [H1 H2]. simpl in *. rewrite H1, H2.
      split; [reflexivity|set_solver].
    + destruct (IH ({[pid_of c]} ∪ seen, acc ++ [c])) as [H1 H2]. simpl in *.
      rewrite H1, H2, <- app_assoc. split; [reflexivity|set_solver].
Qed.

Lemma first_per_protocol_app (l1 l2 : list chunk) : forall seen : gset pystr,
  first_per_protocol seen (l1 ++ l2)
  = first_per_protocol seen l1
      ++ first_per_protocol (list_to_set (map pid_of l1) ∪ seen) l2.
Proof.
  induction l1 as [|c l1 IH]; intros seen; simpl.
  - f_equal. set_solver.
  - case_bool_decide as Hin.
    + rewrite IH. do 2 f_equal. set_solver.
    + simpl. rewrite IH. do 3 f_equal. set_solver.
Qed.

Lemma fold_add_spec (srcs : list (list chunk)) : forall st : merged,
  (fold_left add srcs st).2 = st.2 ++ first_per_protocol st.1 (concat srcs).
Proof.
  induction srcs as [|cs srcs IH]; intros st; simpl.
  - rewrite app_nil_r. reflexivity.
  - rewrite IH. destruct (add_spec cs st) as [H1 H2]. rewrite H1, H2.
    rewrite first_per_protocol_app, app_assoc. reflexivity.
Qed.

Lemma first_per_protocol_sound (l : list chunk) : forall seen : gset pystr,
  Forall (fun c => (pid_of c ∉ seen) /\ first_of (pid_of c) l = Some c)
         (first_per_protocol seen l)
  /\ NoDup (map pid_of (first_per_protocol seen l)).
Proof.
  unfold first_of. induction l as [|c l IH]; intros seen; simpl.
  - split; constructor.
  - case_bool_decide as Hin.
    + destruct (IH seen) as [H1 H2]. split; [|exact H2].
      eapply Forall_impl; [exact H1|]. intros x [Hx1 Hx2]. simpl. split; [exact Hx1|].
      rewrite str_eqb_neq by (intros E; apply Hx1; rewrite <- E; exact Hin).
      exact Hx2.
    + destruct (IH ({[pid_of c]} ∪ seen)) as [H1 H2]. split.
      * constructor.
        -- split; [exact Hin|]. rewrite str_eqb_refl. reflexivity.
        -- eapply Forall_impl; [exact H1|]. intros x [Hx1 Hx2]. simpl.
           split; [set_solver|].
           rewrite str_eqb_neq by (intros E; apply Hx1; rewrite <- E; set_solver).
           exact Hx2.
      * simpl. apply NoDup_cons. split; [|exact H2].
        intros Hc. apply list_elem_of_fmap in Hc. destruct Hc as (x & Ex & Hx).
        apply (proj1 (Forall_forall _ _) H1) in Hx. destruct Hx as [Hx _].
        apply Hx. rewrite <- Ex. set_solver.
Qed.

Lemma first_per_protocol_complete (l : list chunk) (pid : pystr) :
  forall seen : gset pystr,
  pid ∉ seen -> is_Some (first_of pid l) ->
  is_Some (first_of pid (first_per_protocol seen l)).
Proof.
  unfold first_of. induction l as [|c l IH]; intros seen Hs; simpl.
  - intros [x Hx]. discriminate.
  - destruct (str_eqb (pid_of c) pid) eqn:E.
    + apply str_eqb_eq in E. intros _. rewrite bool_decide_eq_false_2 by (rewrite E; exact Hs).
      simpl. rewrite E, str_eqb_refl. eauto.
    + intros H. case_bool_decide as Hin; [apply IH; assumption|].
      simpl. rewrite E. apply IH; [|exact H].
      assert (pid_of c <> pid) by (intros Heq; rewrite Heq, str_eqb_refl in E; discriminate).
      set_solver.
Qed.

Lemma enrich_tag self c source : _retrieval_source (_enrich self c source) = Some source.
Proof. reflexivity. Qed.

Lemma title_lookup_tagged self q :
  tagged (u "title_lookup") (retrieve_by_title_words self q).
Proof.
  unfold retrieve_by_title_words.
  match goal with |- tagged _ (snd (fold_left ?f ?xs ?s)) =>
    generalize xs; intros ranked;
    assert (H : tagged (u "title_lookup") (snd s)) by constructor;
    revert H; generalize s
  end.
  induction ranked as [|e ranked IH]; intros [seen results] H; simpl; [exact H|].
  apply IH. simpl in *. case_bool_decide; [exact H|].
  destruct (List.find _ _); simpl; [|exact H].
  apply Forall_app. split; [exact H|]. repeat constructor.
Qed.

Lemma code_lookup_tagged self codes :
  tagged (u "code_lookup") (retrieve_by_codes self codes).
Proof.
  unfold retrieve_by_codes.
  match goal with |- tagged _ (snd (fold_left ?f ?xs ?s)) =>
    generalize xs; intros visited;
    assert (H : tagged (u "code_lookup") (snd s)) by constructor;
    revert H; generalize s
  end.
  induction visited as [|e visited IH]; intros [seen results] H; simpl; [exact H|].
  apply IH. simpl in *. destruct (_ && _); simpl; [|exact H].
  apply Forall_app. split; [exact H|]. repeat constructor.
Qed.

Lemma semantic_tagged self D q k :
  match retrieve_semantic self D q k with
  | Some rs => tagged (u "semantic") rs
  | None => True
  end.
Proof.
  unfold retrieve_semantic. destruct (bm25_chunks self q k) as [hits|]; simpl; [|exact I].
  unfold semantic_results. destruct (fuse _ _ _ _) as [rrf p2c].
  generalize (sorted (fun x y => Rleb (snd y) (snd x)) rrf). intros es.
  unfold tagged. induction es as [|e es IH]; simpl; [constructor|].
  apply Forall_app. split; [|exact IH].
  destruct (p2c !! e.1); repeat constructor.
Qed.

(** C2. Whatever the five candidate sources return, the list merged by
    [retrieve] has at most one entry per protocol; each entry is, unchanged,
    the first chunk of its protocol in the sources taken in priority order
    (title lookup, code lookup, semantic, hyde, extra queries), so a later
    strategy neither replaces nor re-scores it, and every protocol some
    source produced has an entry. The chunks of a source carry the tag of
    its strategy, so the tag of an entry is the tag of the first strategy
    that produced its protocol. *)
Theorem retrieve_merge_first_seen (self : HybridRetriever) (D : gset pystr)
    (query : pystr) (candidate_codes : option (list pystr))
    (hyde_query : option pystr) (extra_queries : option (list pystr)) :
  match candidate_sources self D query candidate_codes hyde_query extra_queries with
  | None =>
    all_candidates self D query candidate_codes hyde_query extra_queries = None
  | Some srcs =>
    exists cands,
      all_candidates self D query candidate_codes hyde_query extra_queries
      = Some cands
      /\ NoDup (map pid_of cands)
      /\ Forall (fun c => first_of (pid_of c) (concat srcs) = Some c) cands
      /\ (forall pid, is_Some (first_of pid (concat srcs)) ->
                      is_Some (first_of pid cands))
  end
  /\ (forall q, tagged (u "title_lookup") (retrieve_by_title_words self q))
  /\ (forall codes, tagged (u "code_lookup") (retrieve_by_codes self codes))
  /\ (forall q k,
        match retrieve_semantic self D q k with
        | Some rs => tagged (u "semantic") rs
        | None => True
        end).
Proof.
  split; [|split; [|split]].
  - unfold all_candidates.
    destruct (candidate_sources _ _ _ _ _ _) as [srcs|]; simpl; [|reflexivity].
    eexists. split; [reflexivity|].
    rewrite fold_add_spec. simpl.
    destruct (first_per_protocol_sound (concat srcs) ∅) as [H1 H2].
    split; [exact H2|]. split.
    + eapply Forall_impl; [exact H1|]. intros c [_ Hc]. exact Hc.
    + intros pid. apply first_per_protocol_complete. set_solver.
  - apply title_lookup_tagged.
  - apply code_lookup_tagged.
  - apply semantic_tagged.
Qed.

End Merge.

(* ====================================================================== *)
(** * Reciprocal-rank fusion *)
(* ====================================================================== *)

Section Fusion.
Context {U : Unicode} {O : Oracles}.

Lemma damping_deprioritized (self : HybridRetriever) (D : gset pystr) (pid : pystr) :
  damping self ({[pid]} ∪ D) pid = tenth (damping self (D ∖ {[pid]}) pid).
Proof.
  unfold damping, tenth.
  rewrite bool_decide_eq_true_2 by set_solver.
  rewrite bool_decide_eq_false_2 by set_solver. lra.
Qed.

Lemma damping_other (self : HybridRetriever) (D : gset pystr) (pid p : pystr) :
  p <> pid -> damping self ({[pid]} ∪ D) p = damping self (D ∖ {[pid]}) p.
Proof.
  intros Hne. unfold damping.
  rewrite (bool_decide_ext (p ∈ {[pid]} ∪ D) (p ∈ D ∖ {[pid]})) by set_solver.
  reflexivity.
Qed.

Lemma rrf_add_scaled (self : HybridRetriever) (D : gset pystr) (pid : pystr) (rrf1 rrf0 : odict R) (p : pystr) (rank : nat) :
  (forall q : pystr,
     odict_get rrf1 q
     = (fun s => if str_eqb q pid then tenth s else s) <$> odict_get rrf0 q) ->
  forall q : pystr,
    odict_get (rrf_add rrf1 p rank (damping self ({[pid]} ∪ D) p)) q
    = (fun s => if str_eqb q pid then tenth s else s)
        <$> odict_get (rrf_add rrf0 p rank (damping self (D ∖ {[pid]}) p)) q.
Proof.
  intros H q. unfold rrf_add. rewrite !odict_get_set.
  destruct (str_eqb p q) eqn:E; [|apply H].
  apply str_eqb_eq in E. subst q. simpl. f_equal. rewrite (H p).
  destruct (str_eqb p pid) eqn:E.
  - apply str_eqb_eq in E. subst p. rewrite damping_deprioritized.
    destruct (odict_get rrf0 pid); unfold tenth; simpl; lra.
  - rewrite damping_other
      by (intros ->; rewrite (proj2 (str_eqb_eq pid pid) eq_refl) in E; discriminate).
    destruct (odict_get rrf0 p); reflexivity.
Qed.

Lemma dense_step_scaled (self : HybridRetriever) (D : gset pystr) (pid : pystr) (st1 st0 : fusion) (e : nat * chunk) :
  scaled pid st1 st0 ->
  scaled pid (dense_step self ({[pid]} ∪ D) st1 e) (dense_step self (D ∖ {[pid]}) st0 e).
Proof.
  destruct st1 as [rrf1 m1], st0 as [rrf0 m0], e as [rank hit].
  intros [Hm H]. simpl in Hm. subst m1. unfold dense_step.
  destruct (_is_junk (text hit)); [split; [reflexivity|exact H]|].
  destruct (m0 !! pid_of hit); [split; [reflexivity|exact H]|].
  split; [reflexivity|]. simpl. apply rrf_add_scaled, H.
Qed.

Lemma bm25_step_scaled (self : HybridRetriever) (D : gset pystr) (pid : pystr) (st1 st0 : fusion) (e : nat * chunk) :
  scaled pid st1 st0 ->
  scaled pid (bm25_step self ({[pid]} ∪ D) st1 e) (bm25_step self (D ∖ {[pid]}) st0 e).
Proof.
  destruct st1 as [rrf1 m1], st0 as [rrf0 m0], e as [rank hit].
  intros [Hm H]. simpl in Hm. subst m1. unfold bm25_step.
  destruct (_is_junk (text hit)); [split; [reflexivity|exact H]|].
  split; [reflexivity|]. simpl. apply rrf_add_scaled, H.
Qed.

Lemma fold_scaled (pid : pystr) (step1 step0 : fusion -> nat * chunk -> fusion) :
  (forall st1 st0 e, scaled pid st1 st0 -> scaled pid (step1 st1 e) (step0 st0 e)) ->
  forall (l : list (nat * chunk)) (st1 st0 : fusion),
    scaled pid st1 st0 -> scaled pid (fold_left step1 l st1) (fold_left step0 l st0).
Proof.
  intros Hstep l. induction l as [|e l IH]; intros st1 st0 H; simpl; [exact H|].
  apply IH, Hstep, H.
Qed.

Lemma fuse_scaled (self : HybridRetriever) (D : gset pystr) (pid : pystr)
    (dense bm25 : list chunk) :
  scaled pid (fuse self ({[pid]} ∪ D) dense bm25) (fuse self (D ∖ {[pid]}) dense bm25).
Proof.
  unfold fuse.
  apply fold_scaled; [intros; apply bm25_step_scaled; assumption|].
  apply fold_scaled; [intros; apply dense_step_scaled; assumption|].
  split; reflexivity.
Qed.

Lemma dense_step_inv (self : HybridRetriever) (D : gset pystr) (st : fusion)
    (e : nat * chunk) :
  fusion_inv st -> fusion_inv (dense_step self D st e).
Proof.
  destruct st as [rrf m], e as [rank hit]. intros (H1 & H2 & H3).
  unfold dense_step. destruct (_is_junk (text hit)); [repeat split; assumption|].
  destruct (m !! pid_of hit) eqn:E; [repeat split; assumption|].
  simpl in *. split; [|split]; simpl.
  - apply odict_set_NoDup, H1.
  - intros p. unfold rrf_add. rewrite odict_get_set, lookup_insert.
    destruct (str_eqb (pid_of hit) p) eqn:Ep.
    + apply str_eqb_eq in Ep. subst p. rewrite decide_True by reflexivity. eauto.
    + intros Hs. case_decide; [eauto|]. apply H2, Hs.
  - intros p c. rewrite lookup_insert. case_decide.
    + intros [= <-]. assumption.
    + apply H3.
Qed.

Lemma bm25_step_inv (self : HybridRetriever) (D : gset pystr) (st : fusion)
    (e : nat * chunk) :
  fusion_inv st -> fusion_inv (bm25_step self D st e).
Proof.
  destruct st as [rrf m], e as [rank hit]. intros (H1 & H2 & H3).
  unfold bm25_step. destruct (_is_junk (text hit)); [repeat split; assumption|].
  simpl in *. split; [|split]; simpl.
  - apply odict_set_NoDup, H1.
  - intros p. unfold rrf_add. rewrite odict_get_set.
    destruct (str_eqb (pid_of hit) p) eqn:Ep.
    + apply str_eqb_eq in Ep. subst p. intros _.
      destruct (m !! pid_of hit) eqn:E; [rewrite E; eauto|].
      rewrite lookup_insert, decide_True by reflexivity. eauto.
    + intros Hs. specialize (H2 p Hs).
      destruct (m !! pid_of hit) eqn:E; [exact H2|].
      rewrite lookup_insert. case_decide; [eauto|exact H2].
  - intros p c. destruct (m !! pid_of hit) eqn:E; [apply H3|].
    rewrite lookup_insert. case_decide.
    + intros [= <-]. assumption.
    + apply H3.
Qed.

Lemma fuse_inv (self : HybridRetriever) (D : gset pystr) (dense bm25 : list chunk) :
  fusion_inv (fuse self D dense bm25).
Proof.
  unfold fuse.
  assert (G : forall (step : fusion -> nat * chunk -> fusion),
             (forall st e, fusion_inv st -> fusion_inv (step st e)) ->
             forall l st, fusion_inv st -> fusion_inv (fold_left step l st)).
  { intros step Hs l. induction l as [|e l IH]; intros st H; simpl; [exact H|].
    apply IH, Hs, H. }
  apply G; [apply bm25_step_inv|]. apply G; [apply dense_step_inv|].
  split; [constructor|]. split.
  - intros p [x Hx]. discriminate.
  - intros p c. simpl. rewrite lookup_empty. discriminate.
Qed.

Lemma semantic_results_score (self : HybridRetriever) (st : fusion) (pid : pystr) :
  fusion_inv st -> rrf_score_in (semantic_results self st) pid = odict_get st.1 pid.
Proof.
  destruct st as [rrf m]. intros (H1 & H2 & H3). simpl in *.
  unfold semantic_results.
  rewrite (odict_get_perm rrf (sorted (fun x y => Rleb (snd y) (snd x)) rrf) pid H1)
    by (symmetry; apply sorted_perm).
  assert (Hs : forall p : pystr,
             is_Some (odict_get (sorted (fun x y => Rleb (snd y) (snd x)) rrf) p) ->
             is_Some (m !! p)).
  { intros p Hp. apply H2.
    rewrite (odict_get_perm rrf (sorted (fun x y => Rleb (snd y) (snd x)) rrf) p H1)
      by (symmetry; apply sorted_perm). exact Hp. }
  revert Hs. generalize (sorted (fun x y => Rleb (snd y) (snd x)) rrf). intros es Hs.
  unfold rrf_score_in, first_of.
  induction es as [|[k v] es IH]; simpl; [reflexivity|].
  assert (Hk : is_Some (m !! k)).
  { apply Hs. simpl. rewrite (proj2 (str_eqb_eq k k) eq_refl). eauto. }
  destruct Hk as [c Hc]. simpl. rewrite Hc. simpl.
  unfold pid_of at 1. simpl. fold (pid_of c). rewrite (H3 k c Hc).
  destruct (str_eqb k pid) eqn:E; [reflexivity|].
  apply IH. intros p Hp. apply Hs. simpl.
  destruct (str_eqb k p); [eauto|exact Hp].
Qed.

(** In exact arithmetic, that is with the scores as real numbers and
    the rounding of the source ignored, the fused score of a protocol when
    it is in the deprioritized set is one tenth of its fused score when it
    is not, both in the [rrf] dictionary and as the [_rrf_score] of its
    entry in the result of [retrieve_semantic]. The scores of the other
    protocols do not change. In binary64 the ratio is not exactly ten;
    the loops in binary64 are [fuse64]. *)
Lemma deprioritized_score_tenth (self : HybridRetriever) (D : gset pystr)
    (pid query : pystr) (candidate_k : nat) (dense bm25 : list chunk) :
  odict_get (fuse self ({[pid]} ∪ D) dense bm25).1 pid
  = tenth <$> odict_get (fuse self (D ∖ {[pid]}) dense bm25).1 pid
  /\ (rs ← retrieve_semantic self ({[pid]} ∪ D) query candidate_k;
      Some (rrf_score_in rs pid))
     = (rs ← retrieve_semantic self (D ∖ {[pid]}) query candidate_k;
        Some (tenth <$> rrf_score_in rs pid))
  /\ (forall p : pystr, p <> pid ->
        odict_get (fuse self ({[pid]} ∪ D) dense bm25).1 p
        = odict_get (fuse self (D ∖ {[pid]}) dense bm25).1 p).
Proof.
  assert (G : forall dense bm25 (p : pystr),
             odict_get (fuse self ({[pid]} ∪ D) dense bm25).1 p
             = (fun s => if str_eqb p pid then tenth s else s)
                 <$> odict_get (fuse self (D ∖ {[pid]}) dense bm25).1 p).
  { intros d b p. apply (fuse_scaled self D pid d b). }
  assert (G1 : forall dense bm25,
             odict_get (fuse self ({[pid]} ∪ D) dense bm25).1 pid
             = tenth <$> odict_get (fuse self (D ∖ {[pid]}) dense bm25).1 pid).
  { intros d b. rewrite G, (proj2 (str_eqb_eq pid pid) eq_refl). reflexivity. }
  split; [apply G1|]. split.
  - unfold retrieve_semantic.
    destruct (bm25_chunks self query candidate_k) as [hits|]; simpl; [|reflexivity].
    rewrite !semantic_results_score by apply fuse_inv. rewrite G1. reflexivity.
  - intros p Hne. rewrite G.
    rewrite (str_eqb_neq p pid Hne) by assumption.
    destruct (odict_get _ p); reflexivity.
Qed.

End Fusion.

(* ====================================================================== *)
(** * Deprioritisation in binary64 *)
(* ====================================================================== *)

Section Fusion64.
Import PrimFloat.
Local Open Scope float_scope.
Context {L : Libm} {O : Oracles}.

Lemma dense_loop64 (self : HybridRetriever) (D : gset pystr) (pid : pystr)
    (hits : list chunk) :
  forall (start : nat) (st : fusion64),
    (forall p : pystr, odict_get st.1 p = None <-> st.2 !! p = None) ->
    odict_get
      (fold_left (dense_step64 self D) (combine (seq start (length hits)) hits) st).1
      pid
    = match odict_get st.1 pid with
      | Some v => Some v
      | None =>
        (fun r => 0 + term64 (damping64 self D pid) r) <$> first_rank pid start hits
      end.
Proof.
  induction hits as [|h hs IH]; intros start [rrf m] Hst; simpl in *.
  - destruct (odict_get rrf pid); reflexivity.
  - destruct (_is_junk (text h)) eqn:Ej; simpl.
    + apply IH, Hst.
    + destruct (m !! pid_of h) as [c|] eqn:Em.
      * rewrite (IH (S start) (rrf, m) Hst). simpl.
        destruct (odict_get rrf pid) as [v|] eqn:Eg; [reflexivity|].
        rewrite str_eqb_neq; [reflexivity|].
        intros Heq. apply Hst in Eg. simpl in Eg. congruence.
      * rewrite IH; simpl.
        -- unfold rrf_add64. rewrite odict_get_set.
           destruct (str_eqb (pid_of h) pid) eqn:Ep.
           ++ apply str_eqb_eq in Ep. subst pid.
              rewrite (proj2 (Hst (pid_of h)) Em). reflexivity.
           ++ reflexivity.
        -- intros p. unfold rrf_add64. rewrite odict_get_set, lookup_insert.
           destruct (str_eqb (pid_of h) p) eqn:Ep.
           ++ apply str_eqb_eq in Ep. subst p.
              rewrite decide_True by reflexivity. split; discriminate.
           ++ rewrite decide_False; [apply Hst|].
              intros Heq. rewrite Heq, str_eqb_refl in Ep. discriminate.
Qed.

Lemma bm25_loop64 (self : HybridRetriever) (D : gset pystr) (pid : pystr)
    (hits : list chunk) :
  forall (start : nat) (st : fusion64),
    odict_get
      (fold_left (bm25_step64 self D) (combine (seq start (length hits)) hits) st).1
      pid
    = accumulate64 (damping64 self D pid) (odict_get st.1 pid)
                   (hit_ranks pid start hits).
Proof.
  induction hits as [|h hs IH]; intros start [rrf m]; simpl; [reflexivity|].
  destruct (_is_junk (text h)) eqn:Ej; simpl; [apply IH|].
  rewrite IH. simpl. unfold rrf_add64. rewrite odict_get_set.
  destruct (str_eqb (pid_of h) pid) eqn:Ep; [|reflexivity].
  apply str_eqb_eq in Ep. subst pid. reflexivity.
Qed.

(** The fused score of a protocol is the sum, from left to right, of the
    terms of its contributing ranks. *)
Lemma fused_score64 (self : HybridRetriever) (D : gset pystr) (pid : pystr)
    (dense bm25 : list chunk) :
  odict_get (fuse64 self D dense bm25).1 pid
  = accumulate64 (damping64 self D pid) None (contributing_ranks pid dense bm25).
Proof.
  unfold fuse64, enumerate, contributing_ranks.
  rewrite bm25_loop64, dense_loop64.
  - simpl. destruct (first_rank pid 0 dense); reflexivity.
  - intros p. simpl. rewrite lookup_empty. tauto.
Qed.

Lemma damping64_other (self : HybridRetriever) (D : gset pystr) (pid p : pystr) :
  p <> pid -> damping64 self ({[pid]} ∪ D) p = damping64 self (D ∖ {[pid]}) p.
Proof.
  intros Hne. unfold damping64.
  rewrite (bool_decide_ext (p ∈ {[pid]} ∪ D) (p ∈ D ∖ {[pid]})) by set_solver.
  reflexivity.
Qed.

Lemma rrf_add64_agree (self : HybridRetriever) (D : gset pystr) (pid k : pystr)
    (rank : nat) (rrf1 rrf0 : odict float) :
  (forall p : pystr, p <> pid -> odict_get rrf1 p = odict_get rrf0 p) ->
  (forall p : pystr, is_Some (odict_get rrf1 p) <-> is_Some (odict_get rrf0 p)) ->
  (forall p : pystr, p <> pid ->
     odict_get (rrf_add64 rrf1 k rank (damping64 self ({[pid]} ∪ D) k)) p
     = odict_get (rrf_add64 rrf0 k rank (damping64 self (D ∖ {[pid]}) k)) p)
  /\ (forall p : pystr,
        is_Some (odict_get (rrf_add64 rrf1 k rank (damping64 self ({[pid]} ∪ D) k)) p)
        <-> is_Some (odict_get (rrf_add64 rrf0 k rank
                                  (damping64 self (D ∖ {[pid]}) k)) p)).
Proof.
  intros H1 H2. unfold rrf_add64. split.
  - intros p Hp. rewrite !odict_get_set.
    destruct (str_eqb k p) eqn:E; [|apply H1, Hp].
    apply str_eqb_eq in E. subst k.
    rewrite (H1 p Hp), (damping64_other self D pid p Hp). reflexivity.
  - intros p. rewrite !odict_get_set.
    destruct (str_eqb k p); [split; eauto|apply H2].
Qed.

Lemma dense_step64_agree (self : HybridRetriever) (D : gset pystr) (pid : pystr)
    (st1 st0 : fusion64) (e : nat * chunk) :
  agree_but pid st1 st0 ->
  agree_but pid (dense_step64 self ({[pid]} ∪ D) st1 e)
                (dense_step64 self (D ∖ {[pid]}) st0 e).
Proof.
  destruct st1 as [rrf1 m1], st0 as [rrf0 m0], e as [rank hit].
  intros (Hm & H1 & H2). simpl in Hm. subst m1. unfold dense_step64.
  destruct (_is_junk (text hit)); [split; [reflexivity|split; assumption]|].
  destruct (m0 !! pid_of hit); [split; [reflexivity|split; assumption]|].
  split; [reflexivity|]. apply rrf_add64_agree; assumption.
Qed.

Lemma bm25_step64_agree (self : HybridRetriever) (D : gset pystr) (pid : pystr)
    (st1 st0 : fusion64) (e : nat * chunk) :
  agree_but pid st1 st0 ->
  agree_but pid (bm25_step64 self ({[pid]} ∪ D) st1 e)
                (bm25_step64 self (D ∖ {[pid]}) st0 e).
Proof.
  destruct st1 as [rrf1 m1], st0 as [rrf0 m0], e as [rank hit].
  intros (Hm & H1 & H2). simpl in Hm. subst m1. unfold bm25_step64.
  destruct (_is_junk (text hit)); [split; [reflexivity|split; assumption]|].
  split; [reflexivity|]. apply rrf_add64_agree; assumption.
Qed.

Lemma fold_agree (pid : pystr) (step1 step0 : fusion64 -> nat * chunk -> fusion64) :
  (forall st1 st0 e, agree_but pid st1 st0 -> agree_but pid (step1 st1 e) (step0 st0 e)) ->
  forall (l : list (nat * chunk)) (st1 st0 : fusion64),
    agree_but pid st1 st0 -> agree_but pid (fold_left step1 l st1) (fold_left step0 l st0).
Proof.
  intros Hstep l. induction l as [|e l IH]; intros st1 st0 H; simpl; [exact H|].
  apply IH, Hstep, H.
Qed.

Lemma fuse64_agree (self : HybridRetriever) (D : gset pystr) (pid : pystr)
    (dense bm25 : list chunk) :
  agree_but pid (fuse64 self ({[pid]} ∪ D) dense bm25)
                (fuse64 self (D ∖ {[pid]}) dense bm25).
Proof.
  unfold fuse64.
  apply fold_agree; [intros; apply bm25_step64_agree; assumption|].
  apply fold_agree; [intros; apply dense_step64_agree; assumption|].
  split; [reflexivity|]. split; [reflexivity|tauto].
Qed.

(** C6. In the arithmetic of the source the fused score of a protocol is,
    whether it is in the deprioritized set or not, the sum from left to
    right over the same ranks (that of its first dense hit that is not
    junk, then those of its BM25 hits that are not junk) of the terms
    [(1.0 / (rank + 60)) * p]: with [p] the size penalty times the double
    [0.1] when the protocol is deprioritized, and times [1.0] when it is
    not. The scores of the other protocols and the chunk kept for each
    protocol are the same in both cases, and a protocol has a score in one
    case exactly when it has one in the other. *)
Theorem deprioritized_score_factor (self : HybridRetriever) (D : gset pystr)
    (pid : pystr) (dense bm25 : list chunk) :
  let sp := _size_penalty64 (default 1%nat (_pid_n self !! pid)) in
  let ranks := contributing_ranks pid dense bm25 in
  odict_get (fuse64 self ({[pid]} ∪ D) dense bm25).1 pid
  = accumulate64 (sp * 0.1) None ranks
  /\ odict_get (fuse64 self (D ∖ {[pid]}) dense bm25).1 pid
     = accumulate64 (sp * 1.0) None ranks
  /\ (forall p : pystr, p <> pid ->
        odict_get (fuse64 self ({[pid]} ∪ D) dense bm25).1 p
        = odict_get (fuse64 self (D ∖ {[pid]}) dense bm25).1 p)
  /\ (forall p : pystr,
        is_Some (odict_get (fuse64 self ({[pid]} ∪ D) dense bm25).1 p)
        <-> is_Some (odict_get (fuse64 self (D ∖ {[pid]}) dense bm25).1 p))
  /\ (fuse64 self ({[pid]} ∪ D) dense bm25).2
     = (fuse64 self (D ∖ {[pid]}) dense bm25).2.
Proof.
  intros sp ranks.
  destruct (fuse64_agree self D pid dense bm25) as (Hm & H1 & H2).
  split; [|split; [|split; [exact H1|split; [exact H2|exact Hm]]]].
  - rewrite fused_score64. unfold damping64.
    rewrite bool_decide_eq_true_2 by set_solver. reflexivity.
  - rewrite fused_score64. unfold damping64.
    rewrite bool_decide_eq_false_2 by set_solver. reflexivity.
Qed.

End Fusion64.

Section NotATenth.
Import PrimFloat.
Local Open Scope float_scope.

(** The deprioritized score is not one tenth of the other. Two chunks of
    two protocols, ranked 0 and 1 by the lexical ranking, no dense hit,
    nothing junk: the protocol of the first chunk has the score
    [0.014096559917135298], and [0.00140965599171353] once deprioritized,
    where a tenth of the former is [0.0014096559917135298]; ten times the
    latter is [0.0140965599171353]. *)
Lemma deprioritized_not_tenth :
  let c0 := evidence_chunk (u "p1") (u "t.pdf") (u "first part") [] in
  let c1 := evidence_chunk (u "p2") (u "s.pdf") (u "second part") [] in
  let self := __init__ (U:=caseless) [c0; c1] in
  let score (D : gset pystr) :=
    default 0 (odict_get (fuse64 (L:=log1p_fifth) (O:=quiet_oracles)
                                 self D [] [c0; c1]).1 (u "p1")) in
  score ∅ = 0x1.cdea83ea44033p-7
  /\ score {[u "p1"]} = 0x1.7188698836690p-10
  /\ score ∅ / 10 = 0x1.718869883668fp-10
  /\ (score {[u "p1"]} =? score ∅ / 10) = false
  /\ (10 * score {[u "p1"]} =? score ∅) = false.
Proof.
  intros c0 c1 self score. vm_compute. repeat split; reflexivity.
Qed.

End NotATenth.

(* ====================================================================== *)
(** * One contribution per ranking *)
(* ====================================================================== *)

Section Contributions.
Context {U : Unicode} {O : Oracles}.

Lemma dense_loop_once (self : HybridRetriever) (D : gset pystr) (pid : pystr)
    (hits : list chunk) :
  forall (start : nat) (st : fusion),
    (forall p : pystr, odict_get st.1 p = None <-> st.2 !! p = None) ->
    odict_get
      (fold_left (dense_step self D) (combine (seq start (length hits)) hits) st).1
      pid
    = match odict_get st.1 pid with
      | Some v => Some v
      | None =>
        (fun r => (0 + 1.0 / (INR r + 60) * damping self D pid)%R)
          <$> first_rank pid start hits
      end.
Proof.
  induction hits as [|h hs IH]; intros start [rrf m] Hst; simpl in *.
  - destruct (odict_get rrf pid); reflexivity.
  - destruct (_is_junk (text h)) eqn:Ej; simpl.
    + apply IH, Hst.
    + destruct (m !! pid_of h) as [c|] eqn:Em.
      * rewrite (IH (S start) (rrf, m) Hst). simpl.
        destruct (odict_get rrf pid) as [v|] eqn:Eg; [reflexivity|].
        rewrite str_eqb_neq; [reflexivity|].
        intros Heq. apply Hst in Eg. simpl in Eg. congruence.
      * rewrite IH; simpl.
        -- unfold rrf_add. rewrite odict_get_set.
           destruct (str_eqb (pid_of h) pid) eqn:Ep.
           ++ apply str_eqb_eq in Ep. subst pid.
              rewrite (proj2 (Hst (pid_of h)) Em). reflexivity.
           ++ reflexivity.
        -- intros p. unfold rrf_add. rewrite odict_get_set, lookup_insert.
           destruct (str_eqb (pid_of h) p) eqn:Ep.
           ++ apply str_eqb_eq in Ep. subst p.
              rewrite decide_True by reflexivity. split; discriminate.
           ++ rewrite decide_False; [apply Hst|].
              intros Heq. rewrite Heq, str_eqb_refl in Ep. discriminate.
Qed.

(** The dense ranking does contribute once: after the dense loop the score
    of a protocol is the single term for the rank of its first hit that is
    not junk. *)
Lemma dense_single_contribution (self : HybridRetriever) (D : gset pystr)
    (pid : pystr) (dense : list chunk) :
  odict_get (fuse self D dense []).1 pid
  = (fun r => (0 + 1.0 / (INR r + 60) * damping self D pid)%R)
      <$> first_rank pid 0 dense.
Proof.
  unfold fuse, enumerate. simpl.
  rewrite dense_loop_once; [reflexivity|].
  intros p. simpl. rewrite lookup_empty. tauto.
Qed.

End Contributions.

(** C1 fails on the lexical ranking. Two chunks of one protocol at the
    ranks 0 and 1 of the BM25 ranking (nothing is junk, the dense ranking
    is empty) give the protocol the two contributions [p/60] and [p/61],
    where one contribution for the first rank would give [p/60] alone;
    [p] is the damping factor of the protocol, which has two chunks. *)
Lemma bm25_counts_every_hit :
  let c0 := evidence_chunk (u "p1") (u "t.pdf") (u "first part") [] in
  let c1 := evidence_chunk (u "p1") (u "t.pdf") (u "second part") [] in
  let self := __init__ (U:=caseless) [c0; c1] in
  let p := (_size_penalty 2 * 1.0)%R in
  (rs ← retrieve_semantic (O:=quiet_oracles) self ∅ (u "q") 100;
   Some (map pid_of rs, map _rrf_score rs))
  = Some ([u "p1"],
          [Some (0 + 1.0 / (INR 0 + 60) * p + 1.0 / (INR 1 + 60) * p)%R])
  /\ (0 + 1.0 / (INR 0 + 60) * p + 1.0 / (INR 1 + 60) * p = p / 60 + p / 61)%R
  /\ (p / 60 + p / 61 <> 1 / (0 + 60) * p)%R.
Proof.
  intros c0 c1 self p.
  assert (Hp : (0 < p)%R).
  { unfold p, _size_penalty. simpl.
    assert (0 < ln (1 + (1 + 1) / 5))%R.
    { rewrite <- ln_1. apply ln_increasing; lra. }
    assert (0 < 1 / (1 + ln (1 + (1 + 1) / 5)))%R by (apply Rdiv_lt_0_compat; lra).
    lra. }
  split; [|split].
  - vm_compute. reflexivity.
  - simpl. lra.
  - lra.
Qed.

(** C10 fails on arrays of objects. The text below is a JSON array of two
    diagnosis objects. It does not start with an opening brace, so the
    brace pattern cuts it down to the span from the first opening brace to
    the last closing brace, which is not JSON, and the extraction returns
    nothing. An array of one object comes back as that object, without a
    [diagnoses] entry; an array without objects reaches the list branch,
    which raises on a non-dictionary element; only the empty array gives
    a [diagnoses] list. *)
Lemma extract_json_array_of_objects :
  let text := json_text "[{'diagnosis': 'A'}, {'diagnosis': 'B'}]" in
  json_loads text
  = Some (JArr [JObj [(u "diagnosis", JStr (u "A"))];
                JObj [(u "diagnosis", JStr (u "B"))]])
  /\ search_braces text = Some (json_text "{'diagnosis': 'A'}, {'diagnosis': 'B'}")
  /\ json_loads (json_text "{'diagnosis': 'A'}, {'diagnosis': 'B'}") = None
  /\ _extract_json text = None
  /\ _extract_json (json_text "[{'diagnosis': 'A'}]")
     = Some [(u "diagnosis", JStr (u "A"))]
  /\ _extract_json (json_text "[1, 2]") = None
  /\ _extract_json (json_text "[]") = Some [(u "diagnoses", JArr [])].
Proof. vm_compute. repeat split. Qed.

(* ====================================================================== *)
(** * The per-protocol tables of the index build *)
(* ====================================================================== *)

Section BuildTables.
Context {U : Unicode}.

Lemma find_app {A} (f : A -> bool) (l l' : list A) :
  List.find f (l ++ l') =
  match List.find f l with Some x => Some x | None => List.find f l' end.
Proof.
  induction l as [|x l IH]; simpl; [reflexivity|].
  destruct (f x); [reflexivity|exact IH].
Qed.

Lemma index_code_fields (c : chunk) (self : HybridRetriever) (code : code_val) :
  _pid_n (index_code c self code) = _pid_n self
  /\ _pid_title (index_code c self code) = _pid_title self
  /\ _title_idx (index_code c self code) = _title_idx self
  /\ chunks (index_code c self code) = chunks self.
Proof.
  unfold index_code. destruct code as [raw|r]; [|auto].
  destruct (strip raw); auto.
Qed.

Lemma index_codes_fields (c : chunk) (codes : list code_val) :
  forall self : HybridRetriever,
    _pid_n (fold_left (index_code c) codes self) = _pid_n self
    /\ _pid_title (fold_left (index_code c) codes self) = _pid_title self
    /\ _title_idx (fold_left (index_code c) codes self) = _title_idx self
    /\ chunks (fold_left (index_code c) codes self) = chunks self.
Proof.
  induction codes as [|code codes IH]; intros self; simpl; [auto|].
  destruct (IH (index_code c self code)) as (H1 & H2 & H3 & H4).
  destruct (index_code_fields c self code) as (E1 & E2 & E3 & E4).
  rewrite H1, H2, H3, H4. auto.
Qed.

Lemma index_code_icd (c : chunk) (self : HybridRetriever) (code : code_val)
    (pid : pystr) :
  default [] (_pid_icd (index_code c self code) !! pid)
  = if str_eqb (pid_of c) pid
    then fold_left add_code (usable_of [code]) (default [] (_pid_icd self !! pid))
    else default [] (_pid_icd self !! pid).
Proof.
  unfold index_code, usable_of.
  destruct code as [raw|r]; simpl;
    [|destruct (str_eqb (pid_of c) pid); reflexivity].
  destruct (strip raw) as [|x s] eqn:E; simpl;
    [destruct (str_eqb (pid_of c) pid); reflexivity|].
  rewrite lookup_insert.
  destruct (str_eqb (pid_of c) pid) eqn:Ep.
  - apply str_eqb_eq in Ep. subst pid. rewrite decide_True by reflexivity.
    reflexivity.
  - rewrite decide_False; [reflexivity|].
    intros Heq. rewrite Heq, str_eqb_refl in Ep. discriminate.
Qed.

Lemma index_codes_icd (c : chunk) (codes : list code_val) :
  forall (self : HybridRetriever) (pid : pystr),
    default [] (_pid_icd (fold_left (index_code c) codes self) !! pid)
    = if str_eqb (pid_of c) pid
      then fold_left add_code (usable_of codes) (default [] (_pid_icd self !! pid))
      else default [] (_pid_icd self !! pid).
Proof.
  induction codes as [|code codes IH]; intros self pid; simpl.
  - destruct (str_eqb (pid_of c) pid); reflexivity.
  - rewrite IH, index_code_icd.
    destruct (str_eqb (pid_of c) pid); [|reflexivity].
    unfold usable_of. simpl. rewrite app_nil_r, fold_left_app. reflexivity.
Qed.

Lemma fold_words_spec (pid : pystr) (ws : list pystr) :
  forall (idx : gmap pystr (gset pystr)) (w pid' : pystr),
    pid' ∈ default ∅
      (fold_left
         (fun idx w =>
            if decide (3 < length w)
            then <[w := {[pid]} ∪ default ∅ (idx !! w)]> idx else idx)
         ws idx !! w)
    <-> pid' ∈ default ∅ (idx !! w)
        \/ (pid' = pid /\ (3 < length w)%nat /\ In w ws).
Proof.
  induction ws as [|w0 ws IH]; intros idx w pid'; simpl.
  - tauto.
  - rewrite IH. case_decide as Hlen.
    + rewrite lookup_insert. case_decide as Hw.
      * subst w0. simpl. rewrite elem_of_union, elem_of_singleton. tauto.
      * split; [tauto|]. intros [H|(H1 & H2 & [H3|H3])]; auto.
        congruence.
    + split; [tauto|]. intros [H|(H1 & H2 & [H3|H3])]; auto.
      subst w0. lia.
Qed.

Lemma count_pid_app (pid : pystr) (pre : list chunk) (c : chunk) :
  count_pid pid (pre ++ [c])
  = (count_pid pid pre + if str_eqb (pid_of c) pid then 1 else 0)%nat.
Proof.
  unfold count_pid. rewrite List.filter_app, length_app. simpl.
  destruct (str_eqb (pid_of c) pid); reflexivity.
Qed.

Lemma first_of_app (pid : pystr) (pre : list chunk) (c : chunk) :
  first_of pid (pre ++ [c])
  = match first_of pid pre with
    | Some x => Some x
    | None => if str_eqb (pid_of c) pid then Some c else None
    end.
Proof. unfold first_of. rewrite find_app. reflexivity. Qed.

Lemma index_chunk_tables (pre : list chunk) (self : HybridRetriever) (c : chunk) :
  tables_inv pre self -> tables_inv (pre ++ [c]) (index_chunk self c).
Proof.
  intros (Hn & Ht & Hi & Hw). unfold index_chunk.
  set (self1 := {| chunks := chunks self;
                   _pid_n := <[pid_of c := (default 0 (_pid_n self !! pid_of c) + 1)%nat]>
                               (_pid_n self);
                   _pid_icd := _pid_icd self; _pid_title := _pid_title self;
                   _code_idx := _code_idx self; _title_idx := _title_idx self |}).
  destruct (index_codes_fields c (icd_codes c) (index_title (pid_of c) (source_file c) self1))
    as (F1 & F2 & F3 & _).
  split; [|split; [|split]].
  - intros pid. rewrite F1, count_pid_app.
    assert (E : _pid_n (index_title (pid_of c) (source_file c) self1) = _pid_n self1).
    { unfold index_title. destruct (_pid_title self1 !! pid_of c); reflexivity. }
    rewrite E. simpl. rewrite lookup_insert.
    destruct (str_eqb (pid_of c) pid) eqn:Ep.
    + apply str_eqb_eq in Ep. subst pid. rewrite decide_True by reflexivity.
      rewrite Hn. destruct (count_pid (pid_of c) pre) as [|n]; simpl.
      * reflexivity.
      * replace (S n + 1)%nat with (S (n + 1)) by lia. reflexivity.
    + rewrite decide_False
        by (intros Heq; rewrite Heq, str_eqb_refl in Ep; discriminate).
      rewrite Hn, Nat.add_0_r. reflexivity.
  - intros pid. rewrite F2, first_of_app. unfold index_title. simpl.
    destruct (_pid_title self !! pid_of c) as [t|] eqn:Et; simpl.
    + rewrite Ht. destruct (first_of pid pre) as [x|] eqn:Ef; [reflexivity|].
      destruct (str_eqb (pid_of c) pid) eqn:Ep; [|reflexivity].
      apply str_eqb_eq in Ep. subst pid. rewrite Ht, Ef in Et. discriminate.
    + rewrite lookup_insert.
      destruct (str_eqb (pid_of c) pid) eqn:Ep.
      * apply str_eqb_eq in Ep. subst pid. rewrite decide_True by reflexivity.
        rewrite Ht in Et. destruct (first_of (pid_of c) pre); [discriminate|reflexivity].
      * rewrite decide_False
          by (intros Heq; rewrite Heq, str_eqb_refl in Ep; discriminate).
        rewrite Ht. destruct (first_of pid pre); reflexivity.
  - intros pid. rewrite index_codes_icd.
    assert (E : _pid_icd (index_title (pid_of c) (source_file c) self1) = _pid_icd self).
    { unfold index_title. destruct (_pid_title self1 !! pid_of c); reflexivity. }
    rewrite E. unfold chunks_of. rewrite List.filter_app, flat_map_app, fold_left_app.
    simpl. fold (chunks_of pid pre). rewrite <- Hi.
    destruct (str_eqb (pid_of c) pid); simpl; [rewrite app_nil_r|]; reflexivity.
  - intros w pid. rewrite F3, first_of_app. unfold index_title. simpl.
    destruct (_pid_title self !! pid_of c) as [t|] eqn:Et; simpl.
    + rewrite Hw. rewrite Ht in Et.
      destruct (first_of pid pre) as [x|] eqn:Ef; [reflexivity|].
      destruct (str_eqb (pid_of c) pid) eqn:Ep.
      * apply str_eqb_eq in Ep. subst pid. rewrite Ef in Et. discriminate.
      * reflexivity.
    + rewrite Ht in Et. fold (title_words (source_file c)).
      rewrite fold_words_spec, Hw.
      destruct (str_eqb (pid_of c) pid) eqn:Ep.
      * apply str_eqb_eq in Ep. subst pid.
        destruct (first_of (pid_of c) pre); [discriminate|].
        split.
        -- intros [(_ & x & Hx & _)|(_ & H1 & H2)]; [discriminate|]. eauto.
        -- intros (H1 & x & [= <-] & H2). right. auto.
      * assert (pid <> pid_of c)
          by (intros Heq; rewrite Heq, str_eqb_refl in Ep; discriminate).
        destruct (first_of pid pre); tauto.
Qed.

Lemma build_tables (cs : list chunk) : tables_inv cs (__init__ cs).
Proof.
  unfold __init__.
  assert (G : forall pre self, tables_inv [] self ->
             tables_inv pre (fold_left index_chunk pre self)).
  { intros pre. induction pre as [|c pre IH] using rev_ind; intros self H; [exact H|].
    rewrite fold_left_app. simpl. apply index_chunk_tables, IH, H. }
  apply G. split; [|split; [|split]]; intros; simpl.
  - apply lookup_empty.
  - apply lookup_empty.
  - rewrite lookup_empty. reflexivity.
  - rewrite lookup_empty. simpl. split; [set_solver|].
    intros (_ & c & Hc & _). discriminate.
Qed.

Lemma add_code_NoDup (codes : list pystr) (code : pystr) :
  NoDup codes -> NoDup (add_code codes code).
Proof.
  intros H. unfold add_code. case_bool_decide as Hin; [exact H|].
  apply NoDup_app. split; [exact H|]. split; [|apply NoDup_singleton].
  intros x Hx Hx'. apply list_elem_of_singleton in Hx'. subst. contradiction.
Qed.

Lemma add_code_elem (codes : list pystr) (code x : pystr) :
  x ∈ add_code codes code <-> x ∈ codes \/ x = code.
Proof.
  unfold add_code. case_bool_decide as Hin.
  - split; [tauto|]. intros [H| ->]; assumption.
  - rewrite elem_of_app, list_elem_of_singleton. tauto.
Qed.

Lemma fold_add_code (l : list pystr) : forall acc : list pystr,
  NoDup acc ->
  NoDup (fold_left add_code l acc)
  /\ forall x : pystr, x ∈ fold_left add_code l acc <-> x ∈ acc \/ x ∈ l.
Proof.
  induction l as [|c l IH]; intros acc H; simpl.
  - split; [exact H|]. intros x. rewrite elem_of_nil. tauto.
  - destruct (IH (add_code acc c) (add_code_NoDup acc c H)) as [H1 H2].
    split; [exact H1|]. intros x. rewrite H2, add_code_elem, elem_of_cons. tauto.
Qed.

(** X1. After the build the chunk count of a protocol is the number of
    chunks of the collection with that identifier, and a protocol without
    chunks has no count. *)
Theorem build_chunk_counts (cs : list chunk) (pid : pystr) :
  _pid_n (__init__ cs) !! pid
  = match count_pid pid cs with 0%nat => None | n => Some n end.
Proof. apply (build_tables cs). Qed.

(** X2. After the build the title of a protocol is the [source_file] of
    its first chunk in the collection; later chunks of the protocol never
    change it. *)
Theorem build_titles (cs : list chunk) (pid : pystr) :
  _pid_title (__init__ cs) !! pid = source_file <$> first_of pid cs.
Proof. apply (build_tables cs). Qed.

(** X3. After the build the code list of a protocol holds the usable
    codes of its chunks, stripped, each once, in the order of their first
    appearance: no code is listed twice, and a code is listed exactly when
    a chunk of the protocol carries it. *)
Theorem build_code_lists (cs : list chunk) (pid : pystr) :
  default [] (_pid_icd (__init__ cs) !! pid)
  = fold_left add_code (flat_map usable_codes (chunks_of pid cs)) []
  /\ NoDup (default [] (_pid_icd (__init__ cs) !! pid))
  /\ (forall code : pystr,
        code ∈ default [] (_pid_icd (__init__ cs) !! pid)
        <-> exists c, In c cs /\ pid_of c = pid /\ In code (usable_codes c)).
Proof.
  destruct (build_tables cs) as (_ & _ & H & _).
  destruct (fold_add_code (flat_map usable_codes (chunks_of pid cs)) [])
    as [H1 H2]; [constructor|].
  rewrite (H pid). split; [reflexivity|]. split; [exact H1|].
  intros code. rewrite H2, elem_of_nil, list_elem_of_In, in_flat_map.
  unfold chunks_of. split.
  - intros [[]|(c & Hc & Hcode)]. apply List.filter_In in Hc.
    destruct Hc as [Hc Hp]. apply str_eqb_eq in Hp. eauto.
  - intros (c & Hc & Hp & Hcode). right. exists c. split; [|exact Hcode].
    apply List.filter_In. split; [exact Hc|]. apply str_eqb_eq, Hp.
Qed.

(** X4. After the build a protocol is listed under a title word exactly
    when the word has more than three characters and occurs in the title
    of the first chunk of the protocol (lowercased, without [.pdf]). *)
Theorem build_title_index (cs : list chunk) (w pid : pystr) :
  pid ∈ default ∅ (_title_idx (__init__ cs) !! w)
  <-> (3 < length w)%nat
      /\ exists c, first_of pid cs = Some c /\ In w (title_words (source_file c)).
Proof. apply (build_tables cs). Qed.

End BuildTables.

(* ====================================================================== *)
(** * Lookups by code and by title *)
(* ====================================================================== *)

Section Lookups.
Context {U : Unicode} {O : Oracles}.

Lemma strongly_sorted_impl {A} (R R' : A -> A -> Prop) (l : list A) :
  (forall x y, R x y -> R' x y) -> StronglySorted R l -> StronglySorted R' l.
Proof.
  intros H. induction 1 as [|x l Hs IH Hx]; constructor; [exact IH|].
  eapply Forall_impl; [exact Hx|]. intros y. apply H.
Qed.

Lemma pid_of_enrich (self : HybridRetriever) (c : chunk) (tag : pystr) :
  pid_of (_enrich self c tag) = pid_of c.
Proof. reflexivity. Qed.

Lemma codes_loop_spec (self : HybridRetriever) (visited : list chunk) :
  forall (seen : gset pystr) (results : list chunk),
    snd (fold_left
           (fun (st : gset pystr * list chunk) (chunk : chunk) =>
              let '(seen, results) := st in
              let pid := pid_of chunk in
              if negb (bool_decide (pid ∈ seen)) && negb (_is_junk (text chunk))
              then ({[pid]} ∪ seen, results ++ [_enrich self chunk (u "code_lookup")])
              else st)
           visited (seen, results))
    = results
        ++ map (fun c => _enrich self c (u "code_lookup"))
               (first_per_protocol seen (List.filter not_junk visited)).
Proof.
  induction visited as [|c visited IH]; intros seen results; simpl.
  - rewrite app_nil_r. reflexivity.
  - unfold not_junk at 1. destruct (_is_junk (text c)) eqn:Ej; simpl.
    + rewrite andb_false_r. apply IH.
    + rewrite andb_true_r. case_bool_decide as Hin; simpl.
      * apply IH.
      * rewrite IH, <- app_assoc. reflexivity.
Qed.

Lemma retrieve_by_codes_spec (self : HybridRetriever) (codes : list pystr) :
  retrieve_by_codes self codes
  = map (fun c => _enrich self c (u "code_lookup"))
        (first_per_protocol ∅ (List.filter not_junk (code_exemplars self codes))).
Proof.
  unfold retrieve_by_codes. fold (code_exemplars self codes).
  rewrite codes_loop_spec. reflexivity.
Qed.

(** X5. A code lookup returns, tagged and with the code list of their
    protocol, exemplar chunks of the index that are not junk, at most one
    per protocol: for every protocol that has an exemplar without junk
    among those visited, the first such exemplar and nothing else. *)
Theorem retrieve_by_codes_shape (self : HybridRetriever) (codes : list pystr) :
  NoDup (map pid_of (retrieve_by_codes self codes))
  /\ Forall
       (fun r =>
          _is_junk (text r) = false
          /\ exists c,
               r = _enrich self c (u "code_lookup")
               /\ first_of (pid_of r) (List.filter not_junk (code_exemplars self codes))
                  = Some c)
       (retrieve_by_codes self codes)
  /\ (forall c, In c (code_exemplars self codes) -> _is_junk (text c) = false ->
                is_Some (first_of (pid_of c) (retrieve_by_codes self codes))).
Proof.
  rewrite retrieve_by_codes_spec.
  set (l := List.filter not_junk (code_exemplars self codes)).
  destruct (first_per_protocol_sound l ∅) as [H1 H2].
  split; [|split].
  - rewrite map_map. simpl. exact H2.
  - apply Forall_forall. intros r Hr. apply list_elem_of_In, in_map_iff in Hr.
    destruct Hr as (c & <- & Hc).
    apply list_elem_of_In in Hc.
    pose proof (proj1 (Forall_forall _ _) H1 c Hc) as [_ Hf]. split.
    + unfold first_of in Hf. apply find_some in Hf. destruct Hf as [Hin _].
      apply List.filter_In in Hin. destruct Hin as [_ Hj].
      unfold not_junk in Hj. simpl. destruct (_is_junk (text c)); [discriminate|reflexivity].
    + exists c. split; [reflexivity|exact Hf].
  - intros c Hc Hj.
    assert (Hl : is_Some (first_of (pid_of c) l)).
    { unfold first_of. destruct (List.find _ l) eqn:E; [eauto|].
      exfalso. assert (Hin : In c l).
      { apply List.filter_In. split; [exact Hc|]. unfold not_junk. rewrite Hj. reflexivity. }
      pose proof (find_none _ _ E c Hin) as Hn. simpl in Hn.
      rewrite str_eqb_refl in Hn. discriminate. }
    pose proof (first_per_protocol_complete l (pid_of c) ∅) as Hcomp.
    destruct Hcomp as [x Hx]; [set_solver|exact Hl|].
    unfold first_of in *. apply find_some in Hx. destruct Hx as [Hin Hp].
    destruct (List.find _ (map _ _)) eqn:E; [eauto|].
    exfalso.
    pose proof (find_none _ _ E (_enrich self x (u "code_lookup")) (in_map _ _ _ Hin)) as Hn.
    simpl in Hn. rewrite pid_of_enrich in Hn. congruence.
Qed.

(** X6. Round trip of the code index: when no chunk of the collection is
    junk, looking up any spelling of a code that a chunk carries (same
    canonical key) returns first an exemplar that carries a code whose
    canonical key is the key looked up or, which only a key of at most
    three characters allows, has that key as its first three characters. *)
Theorem code_lookup_round_trip (cs : list chunk) (c : chunk) (raw q : pystr) :
  In c cs -> In (CStr raw) (icd_codes c) -> strip raw <> [] ->
  _canon q = _canon (strip raw) ->
  (forall e, In e cs -> _is_junk (text e) = false) ->
  exists (e : chunk) (rest : list chunk) (raw' : pystr),
    retrieve_by_codes (__init__ cs) [q]
    = _enrich (__init__ cs) e (u "code_lookup") :: rest
    /\ In e cs /\ In (CStr raw') (icd_codes e) /\ strip raw' <> []
    /\ (_canon q = _canon (strip raw')
        \/ (length (_canon q) <= 3)%nat
           /\ _canon q = take 3 (_canon (strip raw'))).
Proof.
  intros Hc Hraw Hne Hq Hj.
  rewrite retrieve_by_codes_spec. unfold code_exemplars. simpl.
  rewrite Hq.
  destruct (build_idx cs
              {| chunks := cs; _pid_n := ∅; _pid_icd := ∅; _pid_title := ∅;
                 _code_idx := ∅; _title_idx := ∅ |} cs) as (H1 & H2 & _).
  - auto.
  - intros k l. simpl. rewrite lookup_empty. discriminate.
  - destruct (H2 c raw Hc Hraw Hne) as [[l1 E1] _].
    fold (__init__ cs) in E1, H1. rewrite E1. simpl.
    destruct (H1 _ _ E1) as (Hl & _ & _ & Hall).
    destruct l1 as [|e l1]; [congruence|].
    apply Forall_cons in Hall. destruct Hall as [[He Hr] _].
    simpl. unfold not_junk at 1. rewrite (Hj e He). simpl.
    destruct Hr as (raw' & Hin' & Hne' & Hk).
    eexists e, _, raw'. split; [reflexivity|]. split; [exact He|].
    split; [exact Hin'|]. split; [exact Hne'|].
    destruct Hk as [Hk|Hk]; [left; exact Hk|right].
    split; [|exact Hk]. rewrite Hk, length_take. lia.
Qed.

Lemma inner_scores (L : list pystr) :
  NoDup L -> forall (sc : odict nat) (cnt : pystr -> nat),
  score_inv sc cnt ->
  score_inv
    (fold_left (fun sc pid => odict_set sc pid (default 0 (odict_get sc pid) + 1)%nat) L sc)
    (fun pid => (cnt pid + if bool_decide (pid ∈ L) then 1 else 0)%nat).
Proof.
  induction L as [|p L IH]; intros Hnd sc cnt [Hk Hs]; simpl.
  - split; [exact Hk|]. intros pid. rewrite Nat.add_0_r. apply Hs.
  - apply NoDup_cons in Hnd. destruct Hnd as [Hp Hnd].
    specialize (IH Hnd (odict_set sc p (default 0 (odict_get sc p) + 1)%nat)
                  (fun pid => (cnt pid + if bool_decide (pid = p) then 1 else 0)%nat)).
    destruct IH as [Hk' Hs'].
    + split; [apply odict_set_NoDup, Hk|].
      intros pid. rewrite odict_get_set. case_bool_decide as E.
      * subst pid. rewrite str_eqb_refl, Hs.
        destruct (cnt p); simpl; reflexivity.
      * rewrite str_eqb_neq by congruence. rewrite Hs, Nat.add_0_r. reflexivity.
    + split; [exact Hk'|]. intros pid. rewrite Hs'.
      replace (cnt pid + (if bool_decide (pid = p) then 1 else 0)
               + (if bool_decide (pid ∈ L) then 1 else 0))%nat
        with (cnt pid + (if bool_decide (pid ∈ p :: L) then 1 else 0))%nat; [reflexivity|].
      repeat case_bool_decide; try lia; set_solver.
Qed.

Lemma outer_scores (idx : gmap pystr (gset pystr)) (words : list pystr) :
  forall (sc : odict nat) (cnt : pystr -> nat),
  score_inv sc cnt ->
  score_inv
    (fold_left
       (fun sc w =>
          if decide (length w < 4) then sc
          else fold_left
                 (fun sc pid => odict_set sc pid (default 0 (odict_get sc pid) + 1)%nat)
                 (elements (default ∅ (idx !! w))) sc)
       words sc)
    (fun pid =>
       (cnt pid
        + length (List.filter
                    (fun w => negb (bool_decide (length w < 4)%nat)
                              && bool_decide (pid ∈ default ∅ (idx !! w))) words))%nat).
Proof.
  induction words as [|w words IH]; intros sc cnt Hinv; simpl.
  - destruct Hinv as [Hk Hs]. split; [exact Hk|].
    intros pid. rewrite Nat.add_0_r. apply Hs.
  - case_decide as Hw.
    + rewrite bool_decide_true by exact Hw. simpl. apply IH, Hinv.
    + rewrite bool_decide_false by exact Hw. simpl.
      pose proof (inner_scores (elements (default ∅ (idx !! w)))
                    (NoDup_elements _) sc cnt Hinv) as Hin.
      specialize (IH _ _ Hin). destruct IH as [Hk Hs]. split; [exact Hk|].
      intros pid. rewrite Hs.
      apply (f_equal (fun n : nat => match n with 0%nat => None | S n0 => Some (S n0) end)).
      repeat case_bool_decide; simpl length; try lia;
        exfalso; rewrite elem_of_elements in *; contradiction.
Qed.

Lemma title_loop_spec (self : HybridRetriever) (ranked : list (pystr * nat)) :
  forall (seen : gset pystr) (results : list chunk),
    NoDup (map fst ranked) ->
    (forall p : pystr, In p (map fst ranked) -> p ∉ seen) ->
    snd (fold_left
           (fun (st : gset pystr * list chunk) (entry : pystr * nat) =>
              let '(seen, results) := st in
              let pid := fst entry in
              if bool_decide (pid ∈ seen) then st
              else
                let seen := {[pid]} ∪ seen in
                match List.find (fun c => bool_decide (protocol_id c = Some pid)
                                          && negb (_is_junk (text c))) (chunks self) with
                | Some c => (seen, results ++ [_enrich self c (u "title_lookup")])
                | None => (seen, results)
                end)
           ranked (seen, results))
    = results
        ++ map (fun c => _enrich self c (u "title_lookup"))
               (omap (fun e => first_usable self (fst e)) ranked).
Proof.
  induction ranked as [|[p n] ranked IH]; intros seen results Hnd Hs; simpl.
  - rewrite app_nil_r. reflexivity.
  - simpl in Hnd. apply NoDup_cons in Hnd. destruct Hnd as [Hp Hnd].
    rewrite bool_decide_false by (apply Hs; left; reflexivity).
    assert (Hs' : forall q : pystr, In q (map fst ranked) -> q ∉ {[p]} ∪ seen).
    { intros q Hq. specialize (Hs q (or_intror Hq)).
      assert (q <> p) by (intros ->; apply Hp, list_elem_of_In, Hq).
      set_solver. }
    unfold first_usable at 1. simpl.
    destruct (List.find _ (chunks self)) as [c|].
    + rewrite (IH _ _ Hnd Hs'). simpl. rewrite <- app_assoc. reflexivity.
    + apply (IH _ _ Hnd Hs').
Qed.

Lemma first_usable_pid (self : HybridRetriever) (pid : pystr) (c : chunk) :
  first_usable self pid = Some c ->
  pid_of c = pid /\ _is_junk (text c) = false /\ In c (chunks self).
Proof.
  unfold first_usable. intros H. apply find_some in H. destruct H as [Hin H].
  apply andb_true_iff in H. destruct H as [Hp Hj].
  apply bool_decide_eq_true in Hp. unfold pid_of. rewrite Hp.
  split; [reflexivity|]. split; [|exact Hin].
  destruct (_is_junk (text c)); [discriminate|reflexivity].
Qed.

Lemma title_lookup_spec (self : HybridRetriever) (q : pystr) :
  exists ranked : list (pystr * nat),
    retrieve_by_title_words self q
    = map (fun c => _enrich self c (u "title_lookup"))
          (omap (fun e => first_usable self (fst e)) ranked)
    /\ NoDup (map fst ranked)
    /\ StronglySorted (fun x y => (snd y <= snd x)%nat) ranked
    /\ forall (pid : pystr) (n : nat),
         In (pid, n) ranked <-> n = title_hits self q pid /\ (1 <= n)%nat.
Proof.
  unfold retrieve_by_title_words.
  match goal with |- context [sorted ?f ?d] => set (sc := d); set (le := f) end.
  exists (sorted le sc).
  assert (Hinv : score_inv sc (title_hits self q)).
  { pose proof (outer_scores (_title_idx self) (findall_runs is_title_char (lower q))
                  [] (fun _ => 0%nat)) as H.
    apply H. split; [constructor|]. reflexivity. }
  destruct Hinv as [Hk Hs].
  pose proof (sorted_perm le sc) as Hperm.
  assert (Hk' : NoDup (map fst (sorted le sc))).
  { pose proof (Permutation_map fst Hperm) as Hp'. rewrite Hp'. exact Hk. }
  split; [|split; [exact Hk'|split]].
  - rewrite title_loop_spec; [reflexivity|exact Hk'|set_solver].
  - pose proof (sorted_strongly le) as Hsort.
    eapply strongly_sorted_impl; [|apply Hsort].
    + intros x y H. apply Nat.leb_le, H.
    + intros a b H. unfold le in *. apply Nat.leb_gt in H. apply Nat.leb_le. lia.
    + intros a b c H1 H2. unfold le in *. apply Nat.leb_le in H1, H2. apply Nat.leb_le. lia.
  - intros pid n.
    assert (Hiff : In (pid, n) (sorted le sc) <-> In (pid, n) sc).
    { split; apply Permutation_in; [exact Hperm|symmetry; exact Hperm]. }
    rewrite Hiff, <- (odict_get_In sc pid n Hk), Hs.
    destruct (title_hits self q pid); split.
    + discriminate.
    + intros [-> H]. lia.
    + intros [= <-]. split; [reflexivity|lia].
    + intros [-> _]. reflexivity.
Qed.

(** X7. The chunks a title lookup returns: one per protocol, for exactly
    the protocols that the title index lists under a word of the query of
    four characters or more and that have a chunk without junk carrying
    their identifier; the chunk is the first such chunk of the collection. *)
Theorem title_lookup_shape (self : HybridRetriever) (q : pystr) :
  NoDup (map pid_of (retrieve_by_title_words self q))
  /\ (forall r : chunk, In r (retrieve_by_title_words self q) <->
        exists c, r = _enrich self c (u "title_lookup")
                  /\ first_usable self (pid_of r) = Some c
                  /\ (1 <= title_hits self q (pid_of r))%nat).
Proof.
  destruct (title_lookup_spec self q) as (ranked & -> & Hnd & _ & Hin).
  split.
  - rewrite map_map. simpl.
    assert (H : forall l : list (pystr * nat), NoDup (map fst l) ->
              NoDup (map pid_of (omap (fun e => first_usable self (fst e)) l))
              /\ forall p : pystr,
                   In p (map pid_of (omap (fun e => first_usable self (fst e)) l)) ->
                   In p (map fst l)).
    { clear. induction l as [|[p n] l IH]; simpl; intros Hnd.
      - split; [constructor|tauto].
      - apply NoDup_cons in Hnd. destruct Hnd as [Hp Hnd].
        destruct (IH Hnd) as [IH1 IH2].
        destruct (first_usable self p) as [c|] eqn:E; simpl.
        + apply first_usable_pid in E. destruct E as [E _]. split.
          * apply NoDup_cons. split; [|exact IH1].
            rewrite E. intros Hc. apply Hp, list_elem_of_In, IH2, list_elem_of_In, Hc.
          * intros p' [<-|Hp']; [left; symmetry; exact E|right; apply IH2, Hp'].
        + split; [exact IH1|]. intros p' Hp'. right. apply IH2, Hp'. }
    apply (H ranked Hnd).
  - intros r. rewrite in_map_iff. split.
    + intros (c & <- & Hc). apply list_elem_of_In, list_elem_of_omap in Hc.
      destruct Hc as ([p n] & Hpn & Hf). simpl in Hf.
      apply list_elem_of_In, Hin in Hpn. destruct Hpn as [-> Hn].
      pose proof (first_usable_pid _ _ _ Hf) as [Hp _].
      exists c. rewrite pid_of_enrich, Hp. auto.
    + intros (c & -> & Hf & Hn). rewrite pid_of_enrich in Hf, Hn.
      exists c. split; [reflexivity|].
      apply list_elem_of_In, list_elem_of_omap.
      exists (pid_of c, title_hits self q (pid_of c)). split; [|exact Hf].
      apply list_elem_of_In, Hin. auto.
Qed.

(** X8. A title lookup ranks the protocols by the number of words of the
    query that their title matched: no result stands before one with
    more matching words. *)
Theorem title_lookup_ranked (self : HybridRetriever) (q : pystr) :
  StronglySorted
    (fun r1 r2 => (title_hits self q (pid_of r2) <= title_hits self q (pid_of r1))%nat)
    (retrieve_by_title_words self q).
Proof.
  destruct (title_lookup_spec self q) as (ranked & -> & _ & Hs & Hin).
  assert (Hall : Forall (fun e => snd e = title_hits self q (fst e)) ranked).
  { apply Forall_forall. intros [p n] H. apply list_elem_of_In, Hin in H. simpl. tauto. }
  clear Hin. induction Hs as [|[p n] l Hs IH Hp]; simpl; [constructor|].
  apply Forall_cons in Hall. destruct Hall as [Hn Hall]. simpl in Hn.
  specialize (IH Hall).
  destruct (first_usable self p) as [c|] eqn:E; simpl; [|exact IH].
  constructor; [exact IH|].
  apply first_usable_pid in E. destruct E as [E _].
  rewrite pid_of_enrich, E.
  apply Forall_forall. intros r Hr.
  apply list_elem_of_In, in_map_iff in Hr. destruct Hr as (c' & <- & Hc').
  apply list_elem_of_In, list_elem_of_omap in Hc'. destruct Hc' as ([p' n'] & Hin' & Hf).
  simpl in Hf. apply first_usable_pid in Hf. destruct Hf as [Hf _].
  rewrite pid_of_enrich, Hf.
  pose proof (proj1 (Forall_forall _ _) Hp _ Hin') as Hle. simpl in Hle.
  pose proof (proj1 (Forall_forall _ _) Hall _ Hin') as Hn'. simpl in Hn'.
  lia.
Qed.

End Lookups.

(** A chunk that spells the code S72.01, looked up in lower case without
    the dot. *)
Lemma code_lookup_round_trip_witness :
  let c := evidence_chunk (u "p1") (u "t.pdf") (u "body") [u "S72.01"] in
  exists (e : chunk) (rest : list chunk) (raw' : pystr),
    retrieve_by_codes (U:=caseless) (O:=quiet_oracles)
      (__init__ (U:=caseless) [c]) [u "s7201"]
    = _enrich (__init__ (U:=caseless) [c]) e (u "code_lookup") :: rest
    /\ In e [c] /\ In (CStr raw') (icd_codes e) /\ strip raw' <> []
    /\ (_canon (U:=caseless) (u "s7201") = _canon (U:=caseless) (strip raw')
        \/ (length (_canon (U:=caseless) (u "s7201")) <= 3)%nat
           /\ _canon (U:=caseless) (u "s7201")
              = take 3 (_canon (U:=caseless) (strip raw'))).
Proof.
  intros c.
  apply (code_lookup_round_trip (U:=caseless) (O:=quiet_oracles) [c] c (u "S72.01")).
  - left. reflexivity.
  - left. reflexivity.
  - vm_compute. discriminate.
  - vm_compute. reflexivity.
  - intros e _. reflexivity.
Defined.

(* ====================================================================== *)
(** * The size penalty and the results of the semantic retrieval *)
(* ====================================================================== *)

Section Semantic.
Context {U : Unicode} {O : Oracles}.

Lemma log_term_nonneg (n : nat) : (0 <= ln (1 + INR n / 5))%R.
Proof.
  pose proof (pos_INR n) as Hn.
  destruct (Req_dec (INR n) 0) as [E|E].
  - rewrite E. replace (1 + 0 / 5)%R with 1%R by lra. rewrite ln_1. lra.
  - left. rewrite <- ln_1. apply ln_increasing; lra.
Qed.

(** X9. The size penalty of a protocol lies in (0, 1], equals 1 for a
    protocol without chunks, and does not grow with the number of chunks. *)
Theorem size_penalty_bounds (n m : nat) :
  (0 < _size_penalty n <= 1)%R
  /\ _size_penalty 0 = 1%R
  /\ ((n <= m)%nat -> (_size_penalty m <= _size_penalty n)%R).
Proof.
  unfold _size_penalty.
  pose proof (log_term_nonneg n) as Hn. pose proof (log_term_nonneg m) as Hm.
  split; [split|split].
  - apply Rdiv_lt_0_compat; lra.
  - unfold Rdiv. rewrite Rmult_1_l.
    pose proof (Rinv_le_contravar 1 (1 + ln (1 + INR n / 5)) ltac:(lra) ltac:(lra)) as H.
    rewrite Rinv_1 in H. exact H.
  - simpl. replace (1 + 0 / 5)%R with 1%R by lra. rewrite ln_1. lra.
  - intros Hle. apply le_INR in Hle.
    assert (Hln : (ln (1 + INR n / 5) <= ln (1 + INR m / 5))%R).
    { destruct (Req_dec (INR n) (INR m)) as [E|E]; [rewrite E; lra|].
      left. pose proof (pos_INR n). apply ln_increasing; lra. }
    unfold Rdiv. rewrite !Rmult_1_l. apply Rinv_le_contravar; lra.
Qed.

Lemma damping_pos (self : HybridRetriever) (D : gset pystr) (pid : pystr) :
  (0 < damping self D pid)%R.
Proof.
  unfold damping, _size_penalty.
  pose proof (log_term_nonneg (default 1%nat (_pid_n self !! pid))) as Hn.
  assert (0 < 1 / (1 + ln (1 + INR (default 1%nat (_pid_n self !! pid)) / 5)))%R
    by (apply Rdiv_lt_0_compat; lra).
  destruct (bool_decide _); nra.
Qed.

Lemma rrf_add_pos (rrf : odict R) (pid : pystr) (rank : nat) (p : R) :
  (0 < p)%R ->
  (forall (q : pystr) (s : R), odict_get rrf q = Some s -> (0 < s)%R) ->
  forall (q : pystr) (s : R), odict_get (rrf_add rrf pid rank p) q = Some s -> (0 < s)%R.
Proof.
  intros Hp H q s. unfold rrf_add. rewrite odict_get_set.
  destruct (str_eqb pid q); [|apply H].
  intros [= <-].
  assert (0 < 1.0 / (INR rank + 60) * p)%R.
  { pose proof (pos_INR rank). apply Rmult_lt_0_compat; [|exact Hp].
    apply Rdiv_lt_0_compat; lra. }
  destruct (odict_get rrf pid) as [s0|] eqn:E; simpl.
  - specialize (H pid s0 E). lra.
  - lra.
Qed.

Lemma hits_snoc_junk (hits : list chunk) (st : fusion) (c : chunk) :
  _is_junk (text c) = true -> fusion_hits hits st -> fusion_hits (hits ++ [c]) st.
Proof.
  intros Hj (H1 & H2 & H3 & H4). split; [exact H1|]. split; [|split; [|exact H4]].
  - intros p c' E. destruct (H2 p c' E). split; [assumption|].
    apply in_or_app. left. assumption.
  - intros c' Hin Hc'. apply in_app_or in Hin. destruct Hin as [Hin|[<-|[]]].
    + apply H3; assumption.
    + congruence.
Qed.

Lemma dense_step_hits (self : HybridRetriever) (D : gset pystr) (hits : list chunk)
    (st : fusion) (rank : nat) (c : chunk) :
  fusion_hits hits st -> fusion_hits (hits ++ [c]) (dense_step self D st (rank, c)).
Proof.
  destruct st as [rrf m]. intros H. unfold dense_step.
  destruct (_is_junk (text c)) eqn:Ej; [apply hits_snoc_junk; assumption|].
  destruct H as (H1 & H2 & H3 & H4). simpl in *.
  destruct (m !! pid_of c) as [c0|] eqn:Em.
  - split; [exact H1|]. split; [|split; [|exact H4]]; simpl.
    + intros p c' E. destruct (H2 p c' E). split; [assumption|].
      apply in_or_app. left. assumption.
    + intros c' Hin Hc'. apply in_app_or in Hin. destruct Hin as [Hin|[<-|[]]].
      * apply H3; assumption.
      * rewrite Em. eauto.
  - split; [|split; [|split]]; simpl.
    + intros p. unfold rrf_add. rewrite odict_get_set, lookup_insert.
      destruct (str_eqb (pid_of c) p) eqn:Ep; [eauto|].
      case_decide as Hd; [|apply H1].
      subst p. rewrite str_eqb_refl in Ep. discriminate.
    + intros p c'. rewrite lookup_insert. case_decide.
      * intros [= <-]. split; [exact Ej|]. apply in_or_app. right. left. reflexivity.
      * intros E. destruct (H2 p c' E). split; [assumption|].
        apply in_or_app. left. assumption.
    + intros c' Hin Hc'. rewrite lookup_insert. case_decide; [eauto|].
      apply in_app_or in Hin. destruct Hin as [Hin|[<-|[]]].
      * apply H3; assumption.
      * congruence.
    + apply rrf_add_pos; [apply damping_pos|exact H4].
Qed.

Lemma bm25_step_hits (self : HybridRetriever) (D : gset pystr) (hits : list chunk)
    (st : fusion) (rank : nat) (c : chunk) :
  fusion_hits hits st -> fusion_hits (hits ++ [c]) (bm25_step self D st (rank, c)).
Proof.
  destruct st as [rrf m]. intros H. unfold bm25_step.
  destruct (_is_junk (text c)) eqn:Ej; [apply hits_snoc_junk; assumption|].
  destruct H as (H1 & H2 & H3 & H4). simpl in *.
  split; [|split; [|split]]; simpl.
  - intros p Hp. unfold rrf_add. rewrite odict_get_set.
    destruct (str_eqb (pid_of c) p) eqn:Ep; [eauto|].
    apply H1. destruct (m !! pid_of c) eqn:Em; [exact Hp|].
    rewrite lookup_insert in Hp. case_decide as Hd; [|exact Hp].
    subst p. rewrite str_eqb_refl in Ep. discriminate.
  - intros p c' E.
    assert (Hc : m !! p = Some c' \/ c' = c).
    { destruct (m !! pid_of c) eqn:Em; [left; exact E|].
      rewrite lookup_insert in E. case_decide; [right; congruence|left; exact E]. }
    destruct Hc as [Hc| ->].
    + destruct (H2 p c' Hc). split; [assumption|]. apply in_or_app. left. assumption.
    + split; [exact Ej|]. apply in_or_app. right. left. reflexivity.
  - intros c' Hin Hc'.
    assert (Hm : forall p : pystr, is_Some (m !! p) \/ p = pid_of c ->
                 is_Some (match m !! pid_of c with
                          | Some _ => m
                          | None => <[pid_of c := c]> m
                          end !! p)).
    { intros p Hp. destruct (m !! pid_of c) eqn:Em.
      - destruct Hp as [Hp| ->]; [exact Hp|rewrite Em; eauto].
      - rewrite lookup_insert. case_decide; [eauto|].
        destruct Hp as [Hp|Hp]; [exact Hp|congruence]. }
    apply Hm. apply in_app_or in Hin. destruct Hin as [Hin|[<-|[]]].
    + left. apply H3; assumption.
    + right. reflexivity.
  - apply rrf_add_pos; [apply damping_pos|exact H4].
Qed.

Lemma fold_hits (step : fusion -> nat * chunk -> fusion) :
  (forall (hits : list chunk) (st : fusion) (rank : nat) (c : chunk),
     fusion_hits hits st -> fusion_hits (hits ++ [c]) (step st (rank, c))) ->
  forall (l pre : list chunk) (start : nat) (st : fusion),
    fusion_hits pre st ->
    fusion_hits (pre ++ l) (fold_left step (combine (seq start (length l)) l) st).
Proof.
  intros Hstep l. induction l as [|c l IH]; intros pre start st H; simpl.
  - rewrite app_nil_r. exact H.
  - replace (pre ++ c :: l) with ((pre ++ [c]) ++ l) by (rewrite <- app_assoc; reflexivity).
    apply IH, Hstep, H.
Qed.

Lemma fuse_hits (self : HybridRetriever) (D : gset pystr) (dense bm25 : list chunk) :
  fusion_hits (dense ++ bm25) (fuse self D dense bm25).
Proof.
  unfold fuse, enumerate.
  apply fold_hits; [intros; apply bm25_step_hits; assumption|].
  apply (fold_hits (dense_step self D)
           (fun hits st rank c => dense_step_hits self D hits st rank c) dense [] 0%nat).
  split; [|split; [|split]]; simpl.
  - intros p [x Hx]. rewrite lookup_empty in Hx. discriminate.
  - intros p c. rewrite lookup_empty. discriminate.
  - intros c [].
  - intros p s. discriminate.
Qed.

Lemma Rleb_total (a b : R) : Rleb a b = false -> Rleb b a = true.
Proof.
  unfold Rleb. destruct (Rle_dec a b); [discriminate|].
  intros _. destruct (Rle_dec b a); [reflexivity|lra].
Qed.

Lemma Rleb_trans (a b c : R) : Rleb a b = true -> Rleb b c = true -> Rleb a c = true.
Proof.
  unfold Rleb. destruct (Rle_dec a b); [|discriminate].
  destruct (Rle_dec b c); [|discriminate].
  intros _ _. destruct (Rle_dec a c); [reflexivity|lra].
Qed.

Lemma Rleb_le (a b : R) : Rleb a b = true -> (a <= b)%R.
Proof. unfold Rleb. destruct (Rle_dec a b); [auto|discriminate]. Qed.

Lemma related_strongly_sorted {A B} (R : A -> A -> Prop) (R' : B -> B -> Prop)
    (Q : A -> B -> Prop) (es : list A) (rs : list B) :
  (forall a1 a2 b1 b2, Q a1 b1 -> Q a2 b2 -> R a1 a2 -> R' b1 b2) ->
  Forall2 Q es rs -> StronglySorted R es -> StronglySorted R' rs.
Proof.
  intros H HQ. induction HQ as [|a b es rs Hab HQ IH]; intros Hs; [constructor|].
  apply StronglySorted_inv in Hs. destruct Hs as [Hs Ha].
  constructor; [apply IH, Hs|].
  clear IH Hs. induction HQ as [|a' b' es rs Hab' HQ IH]; [constructor|].
  apply Forall_cons in Ha. destruct Ha as [Ha Has].
  constructor; [eapply H; eauto|apply IH, Has].
Qed.

Lemma related_in {A B} (Q : A -> B -> Prop) (es : list A) (rs : list B) :
  Forall2 Q es rs -> forall r, In r rs -> exists e, In e es /\ Q e r.
Proof.
  induction 1 as [|a b es rs Hab HQ IH]; intros r []. 
  - subst r. exists a. split; [left; reflexivity|exact Hab].
  - destruct (IH r H) as (e & He & Hq). exists e. split; [right; exact He|exact Hq].
Qed.

(** The results of the last loop of [retrieve_semantic], entry by entry. *)
Lemma semantic_results_rel (self : HybridRetriever) (m : gmap pystr chunk)
    (es : list (pystr * R)) :
  (forall e, In e es -> is_Some (m !! e.1)) ->
  Forall2
    (fun e r => exists c, m !! e.1 = Some c
                          /\ r = with_rrf_score (_enrich self c (u "semantic")) e.2)
    es
    (flat_map
       (fun entry : pystr * R =>
          match m !! (fst entry) with
          | None => []
          | Some c => [with_rrf_score (_enrich self c (u "semantic")) (snd entry)]
          end) es).
Proof.
  induction es as [|e es IH]; intros H; simpl; [constructor|].
  destruct (H e (or_introl eq_refl)) as [c Hc]. rewrite Hc. simpl.
  constructor; [eauto|]. apply IH. intros e' He'. apply H. right. exact He'.
Qed.

Lemma semantic_results_shape (self : HybridRetriever) (hits : list chunk) (st : fusion) :
  fusion_inv st -> fusion_hits hits st ->
  NoDup (map pid_of (semantic_results self st))
  /\ Forall (fun r => _is_junk (text r) = false
                      /\ _retrieval_source r = Some (u "semantic")
                      /\ exists s : R, _rrf_score r = Some s /\ (0 < s)%R)
            (semantic_results self st)
  /\ StronglySorted score_not_above (semantic_results self st)
  /\ (forall pid : pystr,
        In pid (map pid_of (semantic_results self st)) <->
        exists c, In c hits /\ _is_junk (text c) = false /\ pid_of c = pid).
Proof.
  destruct st as [rrf m]. intros (I1 & I2 & I3) (H1 & H2 & H3 & H4). simpl in *.
  unfold semantic_results.
  set (le := fun x y : pystr * R => Rleb (snd y) (snd x)).
  pose proof (sorted_perm le rrf) as Hperm.
  assert (Hin : forall e, In e (sorted le rrf) -> odict_get rrf e.1 = Some e.2).
  { intros [p s] He. apply (odict_get_In rrf p s I1).
    apply (Permutation_in _ Hperm), He. }
  assert (Hm : forall e, In e (sorted le rrf) -> is_Some (m !! e.1)).
  { intros e He. apply I2. rewrite (Hin e He). eauto. }
  pose proof (semantic_results_rel self m (sorted le rrf) Hm) as Hrel.
  assert (Hs : StronglySorted (fun x y => (snd y <= snd x)%R) (sorted le rrf)).
  { eapply strongly_sorted_impl; [|apply (sorted_strongly le)].
    - intros x y H. apply Rleb_le, H.
    - intros a b. apply Rleb_total.
    - intros a b c Hab Hbc. unfold le in *. eapply Rleb_trans; eauto. }
  assert (Hk : NoDup (map fst (sorted le rrf))).
  { pose proof (Permutation_map fst Hperm) as Hp'. rewrite Hp'. exact I1. }
  assert (Hpids : forall (es : list (pystr * R)) (rs : list chunk),
             Forall2
               (fun e r => exists c, m !! e.1 = Some c
                           /\ r = with_rrf_score (_enrich self c (u "semantic")) e.2)
               es rs -> map pid_of rs = map fst es).
  { intros es rs HQ. induction HQ as [|e r es rs (c & Hc & ->) HQ IH]; [reflexivity|].
    simpl. rewrite IH. f_equal. apply (I3 _ _ Hc). }
  assert (Hin' : forall (p : pystr) (s : R),
             odict_get rrf p = Some s -> In (p, s) (sorted le rrf)).
  { intros p s E. apply (Permutation_in (p, s) (Permutation_sym Hperm)).
    apply (odict_get_In rrf p s I1), E. }
  pose proof (Hpids _ _ Hrel) as Hmap.
  revert Hrel Hmap.
  match goal with |- Forall2 _ _ ?l -> _ => generalize l end.
  intros rs Hrel Hmap.
  split; [|split; [|split]].
  - rewrite Hmap. exact Hk.
  - apply Forall_forall. intros r Hr. apply list_elem_of_In in Hr.
    destruct (related_in _ _ _ Hrel r Hr) as (e & He & c & Hc & ->).
    simpl. destruct (H2 _ _ Hc) as [Hj _]. split; [exact Hj|]. split; [reflexivity|].
    exists e.2. split; [reflexivity|]. apply (H4 e.1). apply Hin, He.
  - eapply related_strongly_sorted; [|exact Hrel|exact Hs].
    intros a1 a2 b1 b2 (c1 & _ & ->) (c2 & _ & ->) Hle.
    exists a1.2, a2.2. simpl. auto.
  - intros pid. rewrite Hmap. split.
    + intros Hp. apply in_map_iff in Hp. destruct Hp as (e & <- & He).
      destruct (Hm e He) as [c Hc]. exists c. destruct (H2 _ _ Hc).
      split; [assumption|]. split; [assumption|]. apply (I3 _ _ Hc).
    + intros (c & Hc & Hj & <-).
      destruct (H1 _ (H3 c Hc Hj)) as [s Hs'].
      apply in_map_iff. exists (pid_of c, s). split; [reflexivity|]. apply Hin', Hs'.
Qed.

(** X10. When every index of the lexical ranking is in range, the semantic
    retrieval returns a list with one entry per protocol, none of them
    junk, each tagged as semantic and carrying a positive fused score, in
    the order of non-increasing score. *)
Theorem semantic_results_ranked (self : HybridRetriever) (D : gset pystr)
    (query : pystr) (candidate_k : nat) (bm25 : list chunk) :
  bm25_chunks self query candidate_k = Some bm25 ->
  exists rs : list chunk,
    retrieve_semantic self D query candidate_k = Some rs
    /\ NoDup (map pid_of rs)
    /\ Forall (fun r => _is_junk (text r) = false
                        /\ _retrieval_source r = Some (u "semantic")
                        /\ exists s : R, _rrf_score r = Some s /\ (0 < s)%R) rs
    /\ StronglySorted score_not_above rs.
Proof.
  intros Hb. unfold retrieve_semantic. rewrite Hb. simpl.
  eexists. split; [reflexivity|].
  destruct (semantic_results_shape self _ _
              (fuse_inv self D (dense_search (u "query: " ++ query) candidate_k) bm25)
              (fuse_hits self D (dense_search (u "query: " ++ query) candidate_k) bm25))
    as (H1 & H2 & H3 & _).
  auto.
Qed.

(** X11. The protocols in the result of the semantic retrieval are exactly
    the protocols of the hits of the two rankings that are not junk. *)
Theorem semantic_results_cover (self : HybridRetriever) (D : gset pystr)
    (query : pystr) (candidate_k : nat) (bm25 : list chunk) :
  bm25_chunks self query candidate_k = Some bm25 ->
  exists rs : list chunk,
    retrieve_semantic self D query candidate_k = Some rs
    /\ forall pid : pystr,
         In pid (map pid_of rs) <->
         exists c, (In c (dense_search (u "query: " ++ query) candidate_k) \/ In c bm25)
                   /\ _is_junk (text c) = false /\ pid_of c = pid.
Proof.
  intros Hb. unfold retrieve_semantic. rewrite Hb. simpl.
  eexists. split; [reflexivity|].
  destruct (semantic_results_shape self _ _
              (fuse_inv self D (dense_search (u "query: " ++ query) candidate_k) bm25)
              (fuse_hits self D (dense_search (u "query: " ++ query) candidate_k) bm25))
    as (_ & _ & _ & H4).
  intros pid. rewrite H4. split.
  - intros (c & Hc & H). exists c. split; [apply in_app_or, Hc|exact H].
  - intros (c & Hc & H). exists c. split; [apply in_or_app, Hc|exact H].
Qed.

(** X12. The semantic retrieval fails exactly when one of the first
    [candidate_k] indices of the lexical ranking lies beyond the list of
    chunks; the dense hits and the deprioritized set play no part. *)
Theorem semantic_fails_out_of_range (self : HybridRetriever) (D : gset pystr)
    (query : pystr) (candidate_k : nat) :
  retrieve_semantic self D query candidate_k = None
  <-> exists i : nat, In i (take candidate_k (bm25_order query))
                      /\ (length (chunks self) <= i)%nat.
Proof.
  unfold retrieve_semantic, bm25_chunks.
  generalize (take candidate_k (bm25_order query)) as l. intros l.
  destruct (mapM (fun idx => chunks self !! idx) l) as [cs|] eqn:E; simpl.
  - split; [discriminate|]. intros (i & Hi & Hlen). exfalso.
    assert (Hs : is_Some (mapM (fun idx => chunks self !! idx) l)) by eauto.
    apply mapM_is_Some in Hs.
    apply list_elem_of_In in Hi.
    pose proof (proj1 (Forall_forall _ _) Hs i Hi) as [c Hc].
    apply lookup_lt_Some in Hc. lia.
  - split; [intros _|reflexivity].
    apply mapM_None in E. apply Exists_exists in E.
    destruct E as (i & Hi & Hn). exists i. split; [apply list_elem_of_In, Hi|].
    apply lookup_ge_None, Hn.
Qed.

End Semantic.

(** Two chunks of one protocol ranked by the lexical ranking. *)
Lemma semantic_results_ranked_witness :
  let c0 := evidence_chunk (u "p1") (u "t.pdf") (u "first part") [] in
  let c1 := evidence_chunk (u "p1") (u "t.pdf") (u "second part") [] in
  let self := __init__ (U:=caseless) [c0; c1] in
  exists rs : list chunk,
    retrieve_semantic (O:=quiet_oracles) self ∅ (u "q") 100 = Some rs
    /\ NoDup (map pid_of rs)
    /\ Forall (fun r => _is_junk (Oracles:=quiet_oracles) (text r) = false
                        /\ _retrieval_source r = Some (u "semantic")
                        /\ exists s : R, _rrf_score r = Some s /\ (0 < s)%R) rs
    /\ StronglySorted score_not_above rs.
Proof.
  intros c0 c1 self.
  apply (semantic_results_ranked (O:=quiet_oracles) self ∅ (u "q") 100 [c0; c1]).
  vm_compute. reflexivity.
Defined.

(** Two chunks of two protocols ranked by the lexical ranking. *)
Lemma semantic_results_cover_witness :
  let c0 := evidence_chunk (u "p1") (u "t.pdf") (u "first part") [] in
  let c1 := evidence_chunk (u "p2") (u "s.pdf") (u "second part") [] in
  let self := __init__ (U:=caseless) [c0; c1] in
  exists rs : list chunk,
    retrieve_semantic (O:=quiet_oracles) self ∅ (u "q") 100 = Some rs
    /\ forall pid : pystr,
         In pid (map pid_of rs) <->
         exists c, (In c (dense_search (Oracles:=quiet_oracles) (u "query: " ++ u "q") 100)
                    \/ In c [c0; c1])
                   /\ _is_junk (Oracles:=quiet_oracles) (text c) = false /\ pid_of c = pid.
Proof.
  intros c0 c1 self.
  apply (semantic_results_cover (O:=quiet_oracles) self ∅ (u "q") 100 [c0; c1]).
  vm_compute. reflexivity.
Defined.

(* ====================================================================== *)
(** * Reranking and the whole retrieval *)
(* ====================================================================== *)

Section Rerank.
Context {U : Unicode} {O : Oracles}.

Lemma rerank_loop_spec (top_k : nat) (l : list (R * chunk)) :
  forall (seen : gset pystr) (result : list chunk),
    (length result < Nat.max 1 top_k)%nat ->
    rerank_loop top_k seen result l
    = result
        ++ take (Nat.max 1 top_k - length result)
                (map (fun e => with_rerank_score e.2 e.1) (first_scored seen l)).
Proof.
  induction l as [|[s c] l IH]; intros seen result Hlen; simpl.
  - rewrite take_nil, app_nil_r. reflexivity.
  - case_bool_decide as Hin; [apply IH, Hlen|].
    rewrite length_app. simpl.
    destruct (Nat.max 1 top_k - length result)%nat as [|n] eqn:En; [lia|]. simpl.
    case_decide as Hk.
    + replace n with 0%nat by lia. rewrite take_0. reflexivity.
    + rewrite IH by (rewrite length_app; simpl; lia).
      rewrite length_app. simpl. rewrite <- app_assoc. simpl.
      replace (Nat.max 1 top_k - (length result + 1))%nat with n by lia. reflexivity.
Qed.

Lemma rerank_spec (self : HybridRetriever) (query : pystr) (candidates : list chunk)
    (top_k : nat) :
  rerank self query candidates top_k
  = take (Nat.max 1 top_k)
         (map (fun e => with_rerank_score e.2 e.1)
              (first_scored ∅ (sorted (fun x y => Rleb (fst y) (fst x))
                                      (scored_candidates self query candidates)))).
Proof.
  unfold rerank, scored_candidates. destruct candidates as [|c cs].
  - simpl. rewrite combine_nil. simpl. rewrite take_nil. reflexivity.
  - rewrite rerank_loop_spec by (simpl; lia). simpl length.
    rewrite Nat.sub_0_r. reflexivity.
Qed.

Lemma first_scored_sound (l : list (R * chunk)) : forall seen : gset pystr,
  NoDup (map (fun e => pid_of e.2) (first_scored seen l))
  /\ Forall (fun e => (pid_of e.2 ∉ seen) /\ In e l) (first_scored seen l)
  /\ (forall e, In e l -> pid_of e.2 ∉ seen ->
        In (pid_of e.2) (map (fun e => pid_of e.2) (first_scored seen l)))
  /\ forall R : R * chunk -> R * chunk -> Prop,
       StronglySorted R l -> StronglySorted R (first_scored seen l).
Proof.
  induction l as [|[s c] l IH]; intros seen; simpl.
  - split; [constructor|]. split; [constructor|]. split; [tauto|auto].
  - case_bool_decide as Hin.
    + destruct (IH seen) as (H1 & H2 & H3 & H4).
      split; [exact H1|]. split; [|split].
      * eapply Forall_impl; [exact H2|]. simpl. intros e [? ?]. auto.
      * intros e [<-|He] Hs; [contradiction|]. apply H3; assumption.
      * intros R Hs. apply StronglySorted_inv in Hs. apply H4, Hs.
    + destruct (IH ({[pid_of c]} ∪ seen)) as (H1 & H2 & H3 & H4).
      split; [|split; [|split]].
      * simpl. apply NoDup_cons. split; [|exact H1].
        intros Hc. apply list_elem_of_In, in_map_iff in Hc.
        destruct Hc as (e & He & Hine). apply list_elem_of_In in Hine.
        pose proof (proj1 (Forall_forall _ _) H2 e Hine) as [Hn _].
        rewrite He in Hn. set_solver.
      * constructor; [simpl; auto|].
        eapply Forall_impl; [exact H2|]. simpl. intros e [Hn ?]. split; [set_solver|auto].
      * intros e [<-|He] Hs; [left; reflexivity|]. simpl.
        destruct (decide (pid_of e.2 = pid_of c)) as [E|E]; [left; symmetry; exact E|].
        right. apply H3; [exact He|set_solver].
      * intros R Hs. apply StronglySorted_inv in Hs. destruct Hs as [Hs Hall].
        constructor; [apply H4, Hs|].
        apply Forall_forall. intros e He.
        pose proof (proj1 (Forall_forall _ _) H2 e He) as [_ Hin'].
        apply (proj1 (Forall_forall _ _) Hall e), list_elem_of_In, Hin'.
Qed.

Lemma take_strongly_sorted {A} (R : A -> A -> Prop) (n : nat) (l : list A) :
  StronglySorted R l -> StronglySorted R (take n l).
Proof.
  intros Hs. revert n. induction Hs as [|x l Hs IH Hx]; intros [|n]; simpl;
    try constructor.
  - apply IH.
  - apply Forall_forall. intros y Hy.
    apply (proj1 (Forall_forall _ _) Hx y).
    apply (subseteq_take n l), Hy.
Qed.

Lemma rerank_facts (self : HybridRetriever) (query : pystr)
    (candidates : list chunk) (top_k : nat) :
  (length (rerank self query candidates top_k) <= Nat.max 1 top_k)%nat
  /\ NoDup (map pid_of (rerank self query candidates top_k))
  /\ Forall (fun r => exists (s : R) (c : chunk),
                        In (s, c) (scored_candidates self query candidates)
                        /\ r = with_rerank_score c s)
            (rerank self query candidates top_k)
  /\ StronglySorted rerank_not_above (rerank self query candidates top_k).
Proof.
  rewrite rerank_spec.
  set (le := fun x y : R * chunk => Rleb (fst y) (fst x)).
  set (l := sorted le (scored_candidates self query candidates)).
  destruct (first_scored_sound l ∅) as (H1 & H2 & _ & H4).
  assert (Hs : StronglySorted (fun x y : R * chunk => (fst y <= fst x)%R) l).
  { eapply strongly_sorted_impl; [|apply (sorted_strongly le)].
    - intros x y H. apply Rleb_le, H.
    - intros a b. apply Rleb_total.
    - intros a b c Hab Hbc. unfold le in *. eapply Rleb_trans; eauto. }
  split; [|split; [|split]].
  - rewrite length_take. lia.
  - rewrite <- firstn_map. rewrite map_map. simpl.
    eapply sublist_NoDup; [exact H1|apply sublist_take].
  - apply Forall_take. apply Forall_forall. intros r Hr.
    apply list_elem_of_In, in_map_iff in Hr. destruct Hr as ([s c] & <- & He).
    apply list_elem_of_In in He.
    pose proof (proj1 (Forall_forall _ _) H2 _ He) as [_ Hin].
    exists s, c. split; [|reflexivity].
    apply (Permutation_in _ (sorted_perm le _)), Hin.
  - apply take_strongly_sorted.
    specialize (H4 _ Hs). revert H4. generalize (first_scored ∅ l). intros es H.
    induction H as [|e es H IH He]; simpl; constructor; [exact IH|].
    apply Forall_forall. intros r Hr.
    apply list_elem_of_In, in_map_iff in Hr. destruct Hr as (e' & <- & He').
    exists e.1, e'.1. simpl. split; [reflexivity|]. split; [reflexivity|].
    apply (proj1 (Forall_forall _ _) He e'), list_elem_of_In, He'.
Qed.

(** X13. Reranking returns at most [max 1 top_k] chunks, one per
    protocol, each a candidate with the score predicted for it attached,
    in the order of non-increasing score. *)
Theorem rerank_shape (self : HybridRetriever) (query : pystr)
    (candidates : list chunk) (top_k : nat) :
  (length (rerank self query candidates top_k) <= Nat.max 1 top_k)%nat
  /\ NoDup (map pid_of (rerank self query candidates top_k))
  /\ Forall (fun r => exists (s : R) (c : chunk),
                        In (s, c) (scored_candidates self query candidates)
                        /\ r = with_rerank_score c s)
            (rerank self query candidates top_k)
  /\ StronglySorted rerank_not_above (rerank self query candidates top_k).
Proof. apply rerank_facts. Qed.

(** X14. When the cross-encoder scored at least one candidate, reranking
    returns at least one chunk, also for [top_k = 0], and no scored
    candidate has a score above that of the first chunk returned. *)
Theorem rerank_best_first (self : HybridRetriever) (query : pystr)
    (candidates : list chunk) (top_k : nat) (s : R) (c : chunk) :
  In (s, c) (scored_candidates self query candidates) ->
  exists (r : chunk) (rest : list chunk) (s0 : R),
    rerank self query candidates top_k = r :: rest
    /\ _rerank_score r = Some s0 /\ (s <= s0)%R.
Proof.
  intros Hin. rewrite rerank_spec.
  set (le := fun x y : R * chunk => Rleb (fst y) (fst x)).
  pose proof (sorted_perm le (scored_candidates self query candidates)) as Hperm.
  assert (Hs : StronglySorted (fun x y : R * chunk => (fst y <= fst x)%R)
                 (sorted le (scored_candidates self query candidates))).
  { eapply strongly_sorted_impl; [|apply (sorted_strongly le)].
    - intros x y H. apply Rleb_le, H.
    - intros a b. apply Rleb_total.
    - intros a b c' Hab Hbc. unfold le in *. eapply Rleb_trans; eauto. }
  apply (Permutation_in _ (Permutation_sym Hperm)) in Hin.
  destruct (sorted le (scored_candidates self query candidates)) as [|[s0 c0] l];
    [destruct Hin|].
  simpl. rewrite bool_decide_false by set_solver.
  destruct (Nat.max 1 top_k) as [|n] eqn:En; [lia|]. simpl.
  eexists _, _, s0. split; [reflexivity|]. split; [reflexivity|].
  apply StronglySorted_inv in Hs. destruct Hs as [_ Hall].
  destruct Hin as [[= -> ->]|Hin]; [lra|].
  apply list_elem_of_In in Hin.
  apply (proj1 (Forall_forall _ _) Hall (s, c) Hin).
Qed.

(** What every candidate of [retrieve] carries. *)
Lemma enriched_title (self : HybridRetriever) (q : pystr) :
  Forall (fun r => _is_junk (text r) = false
                   /\ _all_icd_codes r = Some (default [] (_pid_icd self !! pid_of r))
                   /\ is_Some (_retrieval_source r))
         (retrieve_by_title_words self q).
Proof.
  destruct (title_lookup_spec self q) as (ranked & -> & _).
  apply Forall_forall. intros r Hr.
  apply list_elem_of_In, in_map_iff in Hr. destruct Hr as (c & <- & Hc).
  apply list_elem_of_In, list_elem_of_omap in Hc. destruct Hc as (e & _ & Hf).
  apply first_usable_pid in Hf. destruct Hf as (_ & Hj & _).
  simpl. split; [exact Hj|]. split; [reflexivity|eauto].
Qed.

Lemma enriched_codes (self : HybridRetriever) (codes : list pystr) :
  Forall (fun r => _is_junk (text r) = false
                   /\ _all_icd_codes r = Some (default [] (_pid_icd self !! pid_of r))
                   /\ is_Some (_retrieval_source r))
         (retrieve_by_codes self codes).
Proof.
  rewrite retrieve_by_codes_spec.
  apply Forall_forall. intros r Hr.
  apply list_elem_of_In, in_map_iff in Hr. destruct Hr as (c & <- & Hc).
  apply list_elem_of_In in Hc.
  destruct (first_per_protocol_sound
              (List.filter not_junk (code_exemplars self codes)) ∅) as [H1 _].
  pose proof (proj1 (Forall_forall _ _) H1 c Hc) as [_ Hf].
  unfold first_of in Hf. apply find_some in Hf. destruct Hf as [Hin _].
  apply List.filter_In in Hin. destruct Hin as [_ Hj]. unfold not_junk in Hj.
  simpl. split; [destruct (_is_junk (text c)); [discriminate|reflexivity]|].
  split; [reflexivity|eauto].
Qed.

Lemma enriched_semantic (self : HybridRetriever) (D : gset pystr) (q : pystr)
    (k : nat) (rs : list chunk) :
  retrieve_semantic self D q k = Some rs ->
  Forall (fun r => _is_junk (text r) = false
                   /\ _all_icd_codes r = Some (default [] (_pid_icd self !! pid_of r))
                   /\ is_Some (_retrieval_source r)) rs.
Proof.
  unfold retrieve_semantic.
  destruct (bm25_chunks self q k) as [bm25|]; simpl; [|discriminate].
  intros [= <-].
  set (dense := dense_search (u "query: " ++ q) k).
  destruct (semantic_results_shape self _ _ (fuse_inv self D dense bm25)
              (fuse_hits self D dense bm25)) as (_ & H2 & _ & _).
  assert (H : Forall (fun r => _all_icd_codes r
                               = Some (default [] (_pid_icd self !! pid_of r)))
                     (semantic_results self (fuse self D dense bm25))).
  { unfold semantic_results. destruct (fuse self D dense bm25) as [rrf m].
    generalize (sorted (fun x y => Rleb (snd y) (snd x)) rrf). intros es.
    induction es as [|e es IH]; simpl; [constructor|].
    destruct (m !! e.1); simpl; [constructor; [reflexivity|exact IH]|exact IH]. }
  apply Forall_forall. intros r Hr.
  pose proof (proj1 (Forall_forall _ _) H2 r Hr) as (Hj & Ht & _).
  pose proof (proj1 (Forall_forall _ _) H r Hr) as Ha.
  split; [exact Hj|]. split; [exact Ha|]. rewrite Ht. eauto.
Qed.

Lemma semantic_returns (self : HybridRetriever) (D : gset pystr) (q : pystr) (k : nat) :
  (forall q : pystr, Forall (fun i => (i < length (chunks self))%nat) (bm25_order q)) ->
  is_Some (retrieve_semantic self D q k).
Proof.
  intros H. unfold retrieve_semantic, bm25_chunks.
  assert (Hs : is_Some (mapM (fun idx => chunks self !! idx) (take k (bm25_order q)))).
  { apply mapM_is_Some. apply Forall_take.
    eapply Forall_impl; [apply (H q)|]. intros i Hi. apply lookup_lt_is_Some, Hi. }
  destruct Hs as [bm25 ->]. simpl. eauto.
Qed.

Lemma sources_enriched (self : HybridRetriever) (D : gset pystr)
    (query : pystr) (candidate_codes : option (list pystr))
    (hyde_query : option pystr) (extra_queries : option (list pystr))
    (srcs : list (list chunk)) :
  candidate_sources self D query candidate_codes hyde_query extra_queries = Some srcs ->
  Forall (fun r => _is_junk (text r) = false
                   /\ _all_icd_codes r = Some (default [] (_pid_icd self !! pid_of r))
                   /\ is_Some (_retrieval_source r)) (concat srcs).
Proof.
  unfold candidate_sources.
  destruct (retrieve_semantic self D (reformulate_query query) 100) as [sem|] eqn:Es;
    simpl; [|discriminate].
  match goal with |- context [match hyde_query with _ => _ end] =>
    destruct (match hyde_query with
              | Some (h :: hs) =>
                if negb (str_eqb (h :: hs) query)
                then l ← retrieve_semantic self D (h :: hs) 60; Some [l]
                else Some []
              | _ => Some []
              end) as [hyde|] eqn:Eh
  end; simpl; [|discriminate].
  destruct (mapM _ _) as [extra|] eqn:Ee; simpl; [|discriminate].
  intros [= <-]. 
  assert (Hh : Forall (fun r => _is_junk (text r) = false
                   /\ _all_icd_codes r = Some (default [] (_pid_icd self !! pid_of r))
                   /\ is_Some (_retrieval_source r)) (concat hyde)).
  { destruct hyde_query as [[|h hs]|]; try (injection Eh as <-; constructor).
    destruct (negb (str_eqb (h :: hs) query)); [|injection Eh as <-; constructor].
    destruct (retrieve_semantic self D (h :: hs) 60) as [l|] eqn:El; [|discriminate].
    simpl in Eh. injection Eh as <-. simpl. rewrite app_nil_r.
    apply (enriched_semantic _ _ _ _ _ El). }
  assert (He : Forall (fun r => _is_junk (text r) = false
                   /\ _all_icd_codes r = Some (default [] (_pid_icd self !! pid_of r))
                   /\ is_Some (_retrieval_source r)) (concat extra)).
  { apply mapM_Some in Ee. clear -Ee. induction Ee as [|x y l k Hxy Hl IH]; simpl.
    - constructor.
    - apply Forall_app. split; [apply (enriched_semantic _ _ _ _ _ Hxy)|exact IH]. }
  simpl. rewrite !concat_app. simpl. rewrite ?app_nil_r.
  repeat (apply Forall_app; split); try assumption.
  - apply enriched_title.
  - destruct candidate_codes as [[|c cs]|]; simpl; try constructor.
    rewrite app_nil_r. apply enriched_codes.
  - apply (enriched_semantic _ _ _ _ _ Es).
  - rewrite concat_app. apply Forall_app. split; assumption.
Qed.

Lemma retrieve_total (self : HybridRetriever) (D : gset pystr)
    (query : pystr) (candidate_codes : option (list pystr)) (top_k : nat)
    (hyde_query : option pystr) (extra_queries : option (list pystr)) :
  (forall q : pystr, Forall (fun i => (i < length (chunks self))%nat) (bm25_order q)) ->
  exists rs : list chunk,
    retrieve self D query candidate_codes top_k hyde_query extra_queries = Some rs
    /\ (length rs <= Nat.max 1 top_k)%nat
    /\ NoDup (map pid_of rs)
    /\ StronglySorted rerank_not_above rs
    /\ Forall (fun r => _is_junk (text r) = false
                        /\ is_Some (_rerank_score r)
                        /\ is_Some (_retrieval_source r)
                        /\ _all_icd_codes r
                           = Some (default [] (_pid_icd self !! pid_of r))) rs.
Proof.
  intros Hb. unfold retrieve, all_candidates.
  assert (Hsrc : is_Some (candidate_sources self D query candidate_codes
                            hyde_query extra_queries)).
  { unfold candidate_sources.
    destruct (semantic_returns self D (reformulate_query query) 100 Hb) as [sem ->].
    simpl.
    assert (Hh : is_Some (match hyde_query with
              | Some (h :: hs) =>
                if negb (str_eqb (h :: hs) query)
                then l ← retrieve_semantic self D (h :: hs) 60; Some [l]
                else Some []
              | _ => Some []
              end)).
    { destruct hyde_query as [[|h hs]|]; eauto.
      destruct (negb _); eauto.
      destruct (semantic_returns self D (h :: hs) 60 Hb) as [l ->]. simpl. eauto. }
    destruct Hh as [hyde ->]. simpl.
    match goal with |- context [mapM ?f ?l] =>
      assert (He : is_Some (mapM f l))
    end.
    { apply mapM_is_Some. apply Forall_forall. intros eq _.
      apply semantic_returns, Hb. }
    destruct He as [extra ->]. simpl. eauto. }
  destruct Hsrc as [srcs Hsrc]. rewrite Hsrc. simpl.
  eexists. split; [reflexivity|].
  rewrite fold_add_spec. simpl.
  set (cands := first_per_protocol ∅ (concat srcs)).
  destruct (rerank_facts self query cands top_k) as (H1 & H2 & H3 & H4).
  split; [exact H1|]. split; [exact H2|]. split; [exact H4|].
  pose proof (sources_enriched _ _ _ _ _ _ _ Hsrc) as Hen.
  apply Forall_forall. intros r Hr.
  pose proof (proj1 (Forall_forall _ _) H3 r Hr) as (s & c & Hin & ->).
  unfold scored_candidates in Hin. apply in_combine_r in Hin.
  destruct (first_per_protocol_sound (concat srcs) ∅) as [Hf _].
  apply list_elem_of_In in Hin.
  pose proof (proj1 (Forall_forall _ _) Hf c Hin) as [_ Hfirst].
  unfold first_of in Hfirst. apply find_some in Hfirst. destruct Hfirst as [Hc _].
  apply list_elem_of_In in Hc.
  pose proof (proj1 (Forall_forall _ _) Hen c Hc) as (Hj & Ha & Ht).
  simpl. split; [exact Hj|]. split; [eauto|]. split; [exact Ht|exact Ha].
Qed.

(** X15. When the lexical ranking lists only valid indices, [retrieve]
    returns at most [max 1 top_k] chunks, one per protocol and in the
    order of non-increasing rerank score; none of them is junk, and each
    carries a rerank score, the tag of the strategy that found it and the
    code list of its protocol. *)
Theorem retrieve_returns (self : HybridRetriever) (D : gset pystr)
    (query : pystr) (candidate_codes : option (list pystr)) (top_k : nat)
    (hyde_query : option pystr) (extra_queries : option (list pystr)) :
  (forall q : pystr, Forall (fun i => (i < length (chunks self))%nat) (bm25_order q)) ->
  exists rs : list chunk,
    retrieve self D query candidate_codes top_k hyde_query extra_queries = Some rs
    /\ (length rs <= Nat.max 1 top_k)%nat
    /\ NoDup (map pid_of rs)
    /\ StronglySorted rerank_not_above rs
    /\ Forall (fun r => _is_junk (text r) = false
                        /\ is_Some (_rerank_score r)
                        /\ is_Some (_retrieval_source r)
                        /\ _all_icd_codes r
                           = Some (default [] (_pid_icd self !! pid_of r))) rs.
Proof. apply retrieve_total. Qed.

End Rerank.

(** Two candidates of two protocols, both scored 1, and [top_k = 0]. *)
Lemma rerank_best_first_witness :
  let c0 := evidence_chunk (u "p1") (u "t.pdf") (u "first part") [] in
  let c1 := evidence_chunk (u "p2") (u "s.pdf") (u "second part") [] in
  let self := __init__ (U:=caseless) [c0; c1] in
  exists (r : chunk) (rest : list chunk) (s0 : R),
    rerank (O:=scoring_oracles) self (u "q") [c0; c1] 0 = r :: rest
    /\ _rerank_score r = Some s0 /\ (1 <= s0)%R.
Proof.
  intros c0 c1 self.
  apply (rerank_best_first (O:=scoring_oracles) self (u "q")
           [c0; c1] 0 1%R c1).
  right. left. reflexivity.
Defined.

(** A collection of two chunks, which the lexical ranking lists as 0, 1. *)
Lemma retrieve_returns_witness :
  let c0 := evidence_chunk (u "p1") (u "t.pdf") (u "first part") [] in
  let c1 := evidence_chunk (u "p2") (u "s.pdf") (u "second part") [] in
  let self := __init__ (U:=caseless) [c0; c1] in
  exists rs : list chunk,
    retrieve (U:=caseless) (O:=scoring_oracles) self ∅ (u "q") None 10 None None = Some rs
    /\ (length rs <= Nat.max 1 10)%nat
    /\ NoDup (map pid_of rs)
    /\ StronglySorted rerank_not_above rs
    /\ Forall (fun r => _is_junk (Oracles:=scoring_oracles) (text r) = false
                        /\ is_Some (_rerank_score r)
                        /\ is_Some (_retrieval_source r)
                        /\ _all_icd_codes r
                           = Some (default [] (_pid_icd self !! pid_of r))) rs.
Proof.
  intros c0 c1 self.
  apply (retrieve_returns (U:=caseless) (O:=scoring_oracles) self ∅ (u "q") None 10
           None None).
  intros q. repeat constructor.
Defined.

(* ====================================================================== *)
(** * The keyword predictor *)
(* ====================================================================== *)

Section Predictor.
Context {U : Unicode}.

Lemma pick_codes_spec (l : list (pystr * nat)) :
  forall (seen : gset pystr) (result : list pystr),
    (length result < 5)%nat ->
    pick_codes seen result l
    = result ++ take (5 - length result) (first_by_prefix seen (map fst l)).
Proof.
  induction l as [|[code n] l IH]; intros seen result Hlen; simpl.
  - rewrite take_nil, app_nil_r. reflexivity.
  - case_bool_decide as Hin.
    + rewrite decide_False by lia. apply IH, Hlen.
    + rewrite length_app. simpl.
      destruct (5 - length result)%nat as [|k] eqn:Ek; [lia|]. simpl.
      case_decide as Hk.
      * replace k with 0%nat by lia. rewrite take_0. reflexivity.
      * rewrite IH by (rewrite length_app; simpl; lia).
        rewrite length_app. simpl. rewrite <- app_assoc. simpl.
        replace (5 - (length result + 1))%nat with k by lia. reflexivity.
Qed.

Lemma first_by_prefix_sound (codes : list pystr) : forall seen : gset pystr,
  NoDup (map (take 3) (first_by_prefix seen codes))
  /\ Forall (fun c => (take 3 c ∉ seen) /\ In c codes) (first_by_prefix seen codes)
  /\ forall R : pystr -> pystr -> Prop,
       StronglySorted R codes -> StronglySorted R (first_by_prefix seen codes).
Proof.
  induction codes as [|c l IH]; intros seen; simpl.
  - split; [constructor|]. split; [constructor|auto].
  - case_bool_decide as Hin.
    + destruct (IH seen) as (H1 & H2 & H4).
      split; [exact H1|]. split.
      * eapply Forall_impl; [exact H2|]. simpl. intros e [? ?]. auto.
      * intros R Hs. apply StronglySorted_inv in Hs. apply H4, Hs.
    + destruct (IH ({[take 3 c]} ∪ seen)) as (H1 & H2 & H4).
      split; [|split].
      * simpl. apply NoDup_cons. split; [|exact H1].
        intros Hc. apply list_elem_of_In, in_map_iff in Hc.
        destruct Hc as (e & He & Hine). apply list_elem_of_In in Hine.
        pose proof (proj1 (Forall_forall _ _) H2 e Hine) as [Hn _].
        rewrite He in Hn. set_solver.
      * constructor; [simpl; auto|].
        eapply Forall_impl; [exact H2|]. simpl. intros e [Hn ?]. split; [set_solver|auto].
      * intros R Hs. apply StronglySorted_inv in Hs. destruct Hs as [Hs Hall].
        constructor; [apply H4, Hs|].
        apply Forall_forall. intros e He.
        pose proof (proj1 (Forall_forall _ _) H2 e He) as [_ Hin'].
        apply (proj1 (Forall_forall _ _) Hall e), list_elem_of_In, Hin'.
Qed.

Lemma add_votes_keys (codes : list pystr) : forall st : odict nat * gset pystr,
  votes_keys st -> votes_keys (add_votes st codes).
Proof.
  unfold add_votes.
  induction codes as [|c codes IH]; intros [sc full] H; simpl; [exact H|].
  apply IH. destruct H as [H1 H2]. simpl in *. split; simpl.
  - apply odict_set_NoDup, H1.
  - intros code. rewrite odict_keys_set.
    destruct (odict_get sc c) eqn:E.
    + rewrite H2. assert (c ∈ full).
      { apply H2. destruct (decide (c ∈ map fst sc)) as [Hi|Hi];
          [apply list_elem_of_In, Hi|].
        assert (Hn : ~ In c (map fst sc)) by (intros Hc; apply Hi, list_elem_of_In, Hc).
        apply odict_get_None in Hn. congruence. }
      set_solver.
    + rewrite in_app_iff, H2. simpl. set_solver.
Qed.

Lemma vote_keys (table : list (list pystr * list pystr)) (q : pystr) :
  votes_keys (vote table q).
Proof.
  unfold vote.
  assert (G : forall st : odict nat * gset pystr,
             votes_keys st -> votes_keys (fold_left (vote_rule q) table st)).
  { induction table as [|rule table IH]; intros st H; simpl; [exact H|].
    apply IH. unfold vote_rule. revert st H.
    induction rule.1 as [|kw kws IHk]; intros st H; simpl; [exact H|].
    destruct (contains (lower kw) q); [|apply IHk, H].
    apply IHk. fold (add_votes st rule.2). apply add_votes_keys, H. }
  apply G. split; simpl; [constructor|]. intros code. set_solver.
Qed.

Lemma local_predict_facts (query : pystr) :
  let codes := (local_predict_codes_full query).1 in
  let full := (local_predict_codes_full query).2 in
  (length codes <= 5)%nat
  /\ NoDup (map (take 3) codes)
  /\ (forall c : pystr, In c codes -> c ∈ full)
  /\ (codes = [] <-> full = ∅)
  /\ StronglySorted
       (fun a b => (votes_per_keyword KEYWORD_ICD_MAP (lower query) b
                    <= votes_per_keyword KEYWORD_ICD_MAP (lower query) a)%nat)
       codes.
Proof.
  unfold local_predict_codes_full.
  pose proof (vote_keys KEYWORD_ICD_MAP (lower query)) as [K1 K2].
  assert (Hv : forall code,
             votes_of (vote KEYWORD_ICD_MAP (lower query)).1 code
             = votes_per_keyword KEYWORD_ICD_MAP (lower query) code).
  { intros code. apply (vote_spec KEYWORD_ICD_MAP (lower query) code). }
  revert K1 K2 Hv. generalize (votes_per_keyword KEYWORD_ICD_MAP (lower query)).
  destruct (vote KEYWORD_ICD_MAP (lower query)) as [scores full]. simpl.
  intros votes K1 K2 Hv.
  destruct scores as [|e scores].
  { simpl. split; [lia|]. split; [constructor|]. split; [tauto|].
    split; [|constructor]. split; [reflexivity|intros _; reflexivity]. }
  remember (e :: scores) as sc eqn:Esc.
  set (le := fun x y : pystr * nat => (snd y <=? snd x)%nat).
  pose proof (sorted_perm le sc) as Hperm.
  rewrite pick_codes_spec by (simpl; lia). simpl length. rewrite Nat.sub_0_r.
  change ([] ++ ?l) with l. simpl fst. simpl snd.
  destruct (first_by_prefix_sound (map fst (sorted le sc)) ∅) as (H1 & H2 & H3).
  assert (Hin : forall c, In c (map fst (sorted le sc)) -> In c (map fst sc)).
  { intros c. apply Permutation_in, Permutation_map, Hperm. }
  split; [|split; [|split; [|split]]].
  - rewrite length_take. lia.
  - rewrite <- firstn_map. eapply sublist_NoDup; [exact H1|apply sublist_take].
  - intros c Hc. apply K2, Hin.
    apply list_elem_of_In in Hc. apply (subseteq_take 5) in Hc.
    apply (proj1 (Forall_forall _ _) H2 c Hc).
  - split.
    + intros E. exfalso.
      assert (Hne : sorted le sc <> []).
      { intros E'. rewrite E' in Hperm. apply Permutation_nil in Hperm.
        subst sc. discriminate. }
      destruct (sorted le sc) as [|[c n] l]; [congruence|].
      assert (Hf : forall (c : pystr) (l : list pystr),
                 first_by_prefix ∅ (c :: l)
                 = c :: first_by_prefix ({[take 3 c]} ∪ ∅) l).
      { intros c0 l0. simpl. rewrite bool_decide_false by set_solver. reflexivity. }
      change (map fst ((c, n) :: l)) with (c :: map fst l) in E.
      rewrite Hf in E. discriminate.
    + intros E. exfalso. subst sc. destruct e as [c n].
      assert (c ∈ full) by (apply K2; left; reflexivity). set_solver.
  - apply take_strongly_sorted. apply H3.
    assert (Hs : StronglySorted (fun x y : pystr * nat => (snd y <= snd x)%nat)
                   (sorted le sc)).
    { eapply strongly_sorted_impl; [|apply (sorted_strongly le)].
      - intros x y H. apply Nat.leb_le, H.
      - intros a b H. unfold le in *. apply Nat.leb_gt in H. apply Nat.leb_le. lia.
      - intros a b c H H'. unfold le in *. apply Nat.leb_le in H, H'.
        apply Nat.leb_le. lia. }
    assert (Hval : Forall (fun x : pystr * nat => votes x.1 = x.2) (sorted le sc)).
    { apply Forall_forall. intros [c n] Hc. apply list_elem_of_In in Hc.
      apply (Permutation_in _ Hperm) in Hc.
      apply (odict_get_In sc c n K1) in Hc.
      simpl. rewrite <- Hv. unfold votes_of. simpl. rewrite Hc. reflexivity. }
    revert Hs Hval. generalize (sorted le sc). intros l Hs.
    induction Hs as [|x l Hs IH Hx]; intros Hval; simpl; constructor.
    + apply IH. apply Forall_cons in Hval. tauto.
    + apply Forall_cons in Hval. destruct Hval as [Hvx Hval].
      apply Forall_forall. intros c Hc.
      apply list_elem_of_In, in_map_iff in Hc. destruct Hc as (y & <- & Hy).
      apply list_elem_of_In in Hy.
      pose proof (proj1 (Forall_forall _ _) Hx y Hy).
      pose proof (proj1 (Forall_forall _ _) Hval y Hy). simpl in *. lia.
Qed.

(** X16. The keyword predictor returns at most five codes with pairwise
    distinct three-character prefixes, each of them a matched code, in
    the order of non-increasing votes; it returns no code exactly when no
    keyword matched. *)
Theorem local_predict_shape (query : pystr) :
  let codes := (local_predict_codes_full query).1 in
  let full := (local_predict_codes_full query).2 in
  (length codes <= 5)%nat
  /\ NoDup (map (take 3) codes)
  /\ (forall c : pystr, In c codes -> c ∈ full)
  /\ (codes = [] <-> full = ∅)
  /\ StronglySorted
       (fun a b => (votes_per_keyword KEYWORD_ICD_MAP (lower query) b
                    <= votes_per_keyword KEYWORD_ICD_MAP (lower query) a)%nat)
       codes.
Proof. apply local_predict_facts. Qed.

End Predictor.

Section ScoreBest.
Context {U : Unicode}.

(** X21. No query scores higher against a code than the description of
    the code itself. *)
Theorem score_best_on_description (code query : pystr) :
  (score_code_vs_query code query
   <= score_code_vs_query code (default [] (odict_get ICD_DESCRIPTIONS code)))%Q.
Proof.
  unfold score_code_vs_query.
  destruct (default [] (odict_get ICD_DESCRIPTIONS code)) as [|c desc];
    [apply Qle_refl|].
  destruct (decide _) as [_|_]; [apply Qle_refl|].
  unfold Qle. simpl. apply Z.mul_le_mono_nonneg_r; [lia|].
  apply Nat2Z.inj_le, subseteq_size. set_solver.
Qed.

End ScoreBest.

(* ====================================================================== *)
(** * Completing a result to three diagnoses *)
(* ====================================================================== *)

Lemma ensure_three_unfold (result : odict json) :
  _ensure_three result
  = (diags ← given_diagnoses result;
     diags ← mapM complete_json (enumerate (pad_three (take 3 diags)));
     Some (odict_set result (u "diagnoses") (JArr diags))).
Proof. reflexivity. Qed.

Lemma pad_three_cases (l : list json) :
  exists a b c : json,
    pad_three (take 3 l) = [a; b; c]
    /\ take 3 l ++ map placeholder (seq (length (take 3 l) + 1) (3 - length (take 3 l)))
       = [a; b; c].
Proof.
  destruct l as [|a [|b [|c l]]]; unfold pad_three; simpl; eauto.
Qed.

Lemma odict_get_snoc {V} (d : odict V) (k k' : pystr) (v : V) :
  odict_get (d ++ [(k, v)]) k'
  = match odict_get d k' with
    | Some x => Some x
    | None => if str_eqb k k' then Some v else None
    end.
Proof.
  induction d as [|[k0 v0] d IH]; simpl; [reflexivity|].
  destruct (str_eqb k0 k'); [reflexivity|exact IH].
Qed.

Lemma setdefault_get (d : odict json) (k k' : pystr) (v : json) :
  odict_get (setdefault d k v) k'
  = match odict_get d k' with
    | Some x => Some x
    | None => if str_eqb k k' then Some v else None
    end.
Proof.
  unfold setdefault. destruct (odict_get d k) as [x|] eqn:E.
  - destruct (odict_get d k') eqn:E'; [reflexivity|].
    destruct (str_eqb k k') eqn:Ek; [|reflexivity].
    apply str_eqb_eq in Ek. congruence.
  - apply odict_get_snoc.
Qed.

Lemma setdefault_present (d : odict json) (k : pystr) (v : json) :
  is_Some (odict_get d k) -> setdefault d k v = d.
Proof. unfold setdefault. intros [x ->]. reflexivity. Qed.

Lemma odict_set_same {V} (d : odict V) (k : pystr) (v : V) :
  odict_get d k = Some v -> odict_set d k v = d.
Proof.
  induction d as [|[k0 v0] d IH]; simpl; [discriminate|].
  destruct (str_eqb k0 k); [intros [= ->]; reflexivity|].
  intros H. rewrite IH by exact H. reflexivity.
Qed.

Lemma complete_entry_get (idx : nat) (d : odict json) (k : pystr) :
  odict_get (complete_entry idx d) k
  = if str_eqb (u "rank") k then Some (JInt (Z.of_nat (idx + 1)))
    else match odict_get d k with
         | Some x => Some x
         | None =>
           if str_eqb (u "diagnosis") k then Some (JStr (u "—"))
           else if str_eqb (u "icd10_code") k then Some (JStr [])
           else if str_eqb (u "explanation") k then Some (JStr [])
           else None
         end.
Proof.
  unfold complete_entry. rewrite !setdefault_get, odict_get_set.
  destruct (str_eqb (u "rank") k); [reflexivity|].
  destruct (odict_get d k); [reflexivity|].
  destruct (str_eqb (u "diagnosis") k); [reflexivity|].
  destruct (str_eqb (u "icd10_code") k); reflexivity.
Qed.

Lemma complete_entry_ok (idx : nat) (d : odict json) :
  entry_ok (Z.of_nat (idx + 1)) (JObj (complete_entry idx d)).
Proof.
  exists (complete_entry idx d). split; [reflexivity|].
  rewrite !complete_entry_get.
  split; [reflexivity|].
  change (str_eqb (u "rank") (u "diagnosis")) with false.
  change (str_eqb (u "rank") (u "icd10_code")) with false.
  change (str_eqb (u "rank") (u "explanation")) with false.
  change (str_eqb (u "diagnosis") (u "diagnosis")) with true.
  change (str_eqb (u "diagnosis") (u "icd10_code")) with false.
  change (str_eqb (u "diagnosis") (u "explanation")) with false.
  change (str_eqb (u "icd10_code") (u "icd10_code")) with true.
  change (str_eqb (u "icd10_code") (u "explanation")) with false.
  change (str_eqb (u "explanation") (u "explanation")) with true.
  split; [|split]; destruct (odict_get d _); eauto.
Qed.

Lemma complete_entry_idem (idx : nat) (d : odict json) :
  complete_entry idx (complete_entry idx d) = complete_entry idx d.
Proof.
  destruct (complete_entry_ok idx d) as (d' & [= <-] & H1 & H2 & H3 & H4).
  generalize dependent (complete_entry idx d). intros d' H1 H2 H3 H4.
  unfold complete_entry.
  rewrite (odict_set_same d' _ _ H1).
  rewrite (setdefault_present d' _ _ H2).
  rewrite (setdefault_present d' _ _ H3).
  apply (setdefault_present d' _ _ H4).
Qed.

Lemma complete_three (a b c : json) :
  mapM complete_json (enumerate [a; b; c])
  = if is_object a && is_object b && is_object c
    then Some (omap complete_json (enumerate [a; b; c]))
    else None.
Proof.
  destruct a; try reflexivity; destruct b; try reflexivity;
    destruct c; reflexivity.
Qed.

Lemma placeholder_object (rank : nat) : is_object (placeholder rank) = true.
Proof. reflexivity. Qed.

(** The result of [_ensure_three] in terms of the three entries. *)
Lemma ensure_three_Some (result r' : odict json) :
  _ensure_three result = Some r' ->
  exists (l : list json) (da db dc : odict json),
    given_diagnoses result = Some l
    /\ take 3 l ++ map placeholder (seq (length (take 3 l) + 1) (3 - length (take 3 l)))
       = [JObj da; JObj db; JObj dc]
    /\ r' = odict_set result (u "diagnoses")
              (JArr [JObj (complete_entry 0 da); JObj (complete_entry 1 db);
                     JObj (complete_entry 2 dc)]).
Proof.
  rewrite ensure_three_unfold.
  destruct (given_diagnoses result) as [l|]; simpl; [|discriminate].
  destruct (pad_three_cases l) as (a & b & c & -> & Hpad).
  rewrite complete_three.
  destruct a as [| | | | | | | |da]; try discriminate.
  destruct b as [| | | | | | | |db]; try discriminate.
  destruct c as [| | | | | | | |dc]; try discriminate.
  simpl. intros [= <-]. exists l, da, db, dc. auto.
Qed.

Lemma ensure_three_entries (result r' : odict json) :
  _ensure_three result = Some r' ->
  exists e1 e2 e3 : json,
    odict_get r' (u "diagnoses") = Some (JArr [e1; e2; e3])
    /\ entry_ok 1 e1 /\ entry_ok 2 e2 /\ entry_ok 3 e3.
Proof.
  intros H. apply ensure_three_Some in H.
  destruct H as (l & da & db & dc & _ & _ & ->).
  eexists _, _, _. split; [rewrite odict_get_set, str_eqb_refl; reflexivity|].
  split; [apply (complete_entry_ok 0)|].
  split; [apply (complete_entry_ok 1)|apply (complete_entry_ok 2)].
Qed.

(** X17. A result completed by [_ensure_three] has exactly three
    diagnoses, objects ranked 1, 2, 3 that each have a diagnosis, a code
    and an explanation; every other entry of the result is unchanged. *)
Theorem ensure_three_shape (result r' : odict json) :
  _ensure_three result = Some r' ->
  exists e1 e2 e3 : json,
    odict_get r' (u "diagnoses") = Some (JArr [e1; e2; e3])
    /\ entry_ok 1 e1 /\ entry_ok 2 e2 /\ entry_ok 3 e3
    /\ forall k : pystr, k <> u "diagnoses" -> odict_get r' k = odict_get result k.
Proof.
  intros H. apply ensure_three_Some in H.
  destruct H as (l & da & db & dc & _ & _ & ->).
  eexists _, _, _. split; [rewrite odict_get_set, str_eqb_refl; reflexivity|].
  split; [apply (complete_entry_ok 0)|].
  split; [apply (complete_entry_ok 1)|].
  split; [apply (complete_entry_ok 2)|].
  intros k Hk. rewrite odict_get_set, str_eqb_neq by congruence. reflexivity.
Qed.

(** X18. [_ensure_three] keeps what the first three given diagnoses
    say: an entry of such a diagnosis other than its rank is found
    unchanged in the diagnosis at the same position of the result. *)
Theorem ensure_three_keeps_fields (result r' : odict json) (l : list json)
    (i : nat) (d : odict json) (k : pystr) (v : json) :
  _ensure_three result = Some r' ->
  odict_get result (u "diagnoses") = Some (JArr l) ->
  (i < 3)%nat -> l !! i = Some (JObj d) ->
  k <> u "rank" -> odict_get d k = Some v ->
  exists (ds : list json) (d' : odict json),
    odict_get r' (u "diagnoses") = Some (JArr ds)
    /\ ds !! i = Some (JObj d') /\ odict_get d' k = Some v.
Proof.
  intros H Hget Hi Hl Hk Hv. apply ensure_three_Some in H.
  destruct H as (l0 & da & db & dc & Hg & Hpad & ->).
  assert (l0 = l).
  { unfold given_diagnoses in Hg. rewrite Hget in Hg.
    destruct l as [|x l]; [rewrite lookup_nil in Hl; discriminate|].
    simpl in Hg. congruence. }
  subst l0.
  assert (Hi' : [JObj da; JObj db; JObj dc] !! i = Some (JObj d)).
  { rewrite <- Hpad. rewrite lookup_app_l.
    - rewrite lookup_take_lt by exact Hi. exact Hl.
    - rewrite length_take. apply lookup_lt_Some in Hl. lia. }
  assert (Hc : forall idx : nat, odict_get (complete_entry idx d) k = Some v).
  { intros idx. rewrite complete_entry_get, str_eqb_neq by congruence.
    rewrite Hv. reflexivity. }
  destruct i as [|[|[|i]]]; simpl in Hi'; [| | |lia];
    injection Hi' as ->;
    (eexists _, _; split; [rewrite odict_get_set, str_eqb_refl; reflexivity|];
     split; [reflexivity|apply Hc]).
Qed.

(** X19. [_ensure_three] is idempotent: completing a completed result
    succeeds and changes nothing. *)
Theorem ensure_three_idempotent (result r' : odict json) :
  _ensure_three result = Some r' -> _ensure_three r' = Some r'.
Proof.
  intros H. apply ensure_three_Some in H.
  destruct H as (l & da & db & dc & _ & _ & ->).
  rewrite ensure_three_unfold. unfold given_diagnoses.
  rewrite odict_get_set, str_eqb_refl. simpl.
  unfold pad_three, complete_json, enumerate. simpl.
  rewrite !complete_entry_idem.
  f_equal. apply odict_set_same.
  rewrite odict_get_set, str_eqb_refl. reflexivity.
Qed.

(** X20. [_ensure_three] raises exactly when the value under
    [diagnoses] is truthy and is not a list, or is a list with an element
    that is not an object among its first three. *)
Theorem ensure_three_fails (result : odict json) :
  _ensure_three result = None
  <-> exists v : json,
        odict_get result (u "diagnoses") = Some v /\ truthy v = true
        /\ match v with
           | JArr l => exists e, In e (take 3 l) /\ is_object e = false
           | _ => True
           end.
Proof.
  rewrite ensure_three_unfold. unfold given_diagnoses.
  destruct (odict_get result (u "diagnoses")) as [v|].
  2:{ split; [discriminate|]. intros (v & Hv & _). discriminate. }
  assert (Hl : forall l : list json,
             (diags ← mapM complete_json (enumerate (pad_three (take 3 l)));
              Some (odict_set result (u "diagnoses") (JArr diags))) = None
             <-> exists e, In e (take 3 l) /\ is_object e = false).
  { intros l. destruct (pad_three_cases l) as (a & b & c & -> & Hpad).
    rewrite complete_three.
    assert (Hin : forall e, In e [a; b; c] -> is_object e = false -> In e (take 3 l)).
    { intros e He Hobj. rewrite <- Hpad in He. apply in_app_or in He.
      destruct He as [He|He]; [exact He|].
      apply in_map_iff in He. destruct He as (r & <- & _).
      rewrite placeholder_object in Hobj. discriminate. }
    split.
    - intros H.
      destruct (is_object a) eqn:Ea; [|exists a; split; [apply Hin; simpl; auto|exact Ea]].
      destruct (is_object b) eqn:Eb; [|exists b; split; [apply Hin; simpl; auto|exact Eb]].
      destruct (is_object c) eqn:Ec; [|exists c; split; [apply Hin; simpl; auto|exact Ec]].
      simpl in H. discriminate.
    - intros (e & He & Hobj).
      assert (He' : In e [a; b; c]) by (rewrite <- Hpad; apply in_or_app; left; exact He).
      destruct He' as [<-|[<-|[<-|[]]]]; rewrite Hobj; simpl;
        rewrite ?andb_false_r; reflexivity. }
  destruct (truthy v) eqn:Et.
  - destruct v; simpl;
      try (split; [intros _; eexists; split; [reflexivity|split; [exact Et|exact I]]
                  |reflexivity]).
    rewrite Hl. split.
    + intros H. eexists. split; [reflexivity|]. split; [exact Et|exact H].
    + intros (v & [= <-] & _ & H). exact H.
  - simpl. split.
    + intros H. exfalso. revert H. unfold pad_three. simpl. discriminate.
    + intros (v' & [= <-] & Ht & _). congruence.
Qed.

(** A result with one diagnosis that has a name only. *)
Lemma ensure_three_shape_witness :
  let result := [(u "note", JStr (u "n"));
                 (u "diagnoses", JArr [JObj [(u "diagnosis", JStr (u "flu"))]])] in
  let r' := default [] (_ensure_three result) in
  exists e1 e2 e3 : json,
    odict_get r' (u "diagnoses") = Some (JArr [e1; e2; e3])
    /\ entry_ok 1 e1 /\ entry_ok 2 e2 /\ entry_ok 3 e3
    /\ forall k : pystr, k <> u "diagnoses" -> odict_get r' k = odict_get result k.
Proof.
  intros result r'. apply (ensure_three_shape result r'). reflexivity.
Defined.

Lemma ensure_three_keeps_fields_witness :
  let result := [(u "diagnoses", JArr [JObj [(u "diagnosis", JStr (u "flu"))]])] in
  let r' := default [] (_ensure_three result) in
  exists (ds : list json) (d' : odict json),
    odict_get r' (u "diagnoses") = Some (JArr ds)
    /\ ds !! 0%nat = Some (JObj d')
    /\ odict_get d' (u "diagnosis") = Some (JStr (u "flu")).
Proof.
  intros result r'.
  apply (ensure_three_keeps_fields result r'
           [JObj [(u "diagnosis", JStr (u "flu"))]] 0
           [(u "diagnosis", JStr (u "flu"))] (u "diagnosis") (JStr (u "flu"))).
  - reflexivity.
  - reflexivity.
  - lia.
  - reflexivity.
  - vm_compute. discriminate.
  - reflexivity.
Defined.

Lemma ensure_three_idempotent_witness :
  let result := [(u "diagnoses", JArr [JObj [(u "diagnosis", JStr (u "flu"))]])] in
  let r' := default [] (_ensure_three result) in
  _ensure_three r' = Some r'.
Proof.
  intros result r'. apply (ensure_three_idempotent result r'). reflexivity.
Defined.

(* ====================================================================== *)
(** * The calls to the language model *)
(* ====================================================================== *)

Section LanguageModelFacts.
Context {U : Unicode}.

Lemma smart_fallback_returns (chunks : list chunk) (stage1 : option stage1_prediction)
    (query : pystr) :
  is_Some (_smart_fallback chunks stage1 query).
Proof.
  unfold _smart_fallback.
  destruct (fallback_diagnoses_inv chunks stage1 query) as [Hl Hr].
  destruct (fallback_diagnoses chunks stage1 query) as [|d1 [|d2 [|d3 [|d4 ds]]]];
    simpl in Hl; try lia; simpl in Hr.
  - vm_compute. eauto.
  - destruct Hr as [(a1 & b1 & c1 & ->) _]. vm_compute. eauto.
  - destruct Hr as [(a1 & b1 & c1 & ->) [(a2 & b2 & c2 & ->) _]]. vm_compute. eauto.
  - destruct Hr as [(a1 & b1 & c1 & ->) [(a2 & b2 & c2 & ->) [(a3 & b3 & c3 & ->) _]]].
    vm_compute. eauto.
Qed.

Lemma attempt_loop_returns (remaining attempt : nat) (st st' : llm_state)
    (r : option (odict json)) :
  attempt_loop remaining attempt st = (Return r, st') ->
  exists result : odict json, r = _ensure_three result.
Proof.
  revert attempt st. induction remaining as [|n IH]; intros attempt st; simpl.
  - discriminate.
  - destruct (_try_llm_call st) as [[raw|] st1]; [|discriminate].
    destruct (_extract_json raw) as [[|[k v] result']|]; try apply IH.
    match goal with
    | |- context [match ?x with Some _ => _ | None => _ end] => destruct x
    end; [|apply IH].
    intros [= <- <-]. eauto.
Qed.

Lemma diagnosis_loop_three (models : list pystr) (retries : nat)
    (chunks : list chunk) (stage1 : option stage1_prediction) (query : pystr) :
  forall (st st' : llm_state) (r : odict json),
    diagnosis_loop models retries chunks stage1 query st = (Some r, st') ->
    exists e1 e2 e3 : json,
      odict_get r (u "diagnoses") = Some (JArr [e1; e2; e3])
      /\ entry_ok 1 e1 /\ entry_ok 2 e2 /\ entry_ok 3 e3.
Proof.
  induction models as [|m models IH]; intros st st' r; simpl.
  - intros [= H _]. apply (ensure_three_entries _ _ H).
  - destruct (attempt_loop retries 0 st) as [[res| |] st1] eqn:E; try apply IH.
    intros [= -> <-]. apply attempt_loop_returns in E. destruct E as [result E].
    symmetry in E. apply (ensure_three_entries _ _ E).
Qed.

(** X22. Whatever the language model answers, a diagnosis that
    [generate_diagnosis] returns has exactly three entries, objects ranked
    1, 2, 3 with a diagnosis, a code and an explanation each. *)
Theorem generate_diagnosis_three (PRIMARY_MODEL query : pystr)
    (chunks : list chunk) (stage1 : option stage1_prediction) (retries : nat)
    (st st' : llm_state) (r : odict json) :
  generate_diagnosis PRIMARY_MODEL query chunks stage1 retries st = (Some r, st') ->
  exists e1 e2 e3 : json,
    odict_get r (u "diagnoses") = Some (JArr [e1; e2; e3])
    /\ entry_ok 1 e1 /\ entry_ok 2 e2 /\ entry_ok 3 e3.
Proof. apply diagnosis_loop_three. Qed.

Lemma failing_call (st : llm_state) :
  next_fails st ->
  exists st' : llm_state,
    _try_llm_call st = (None, st')
    /\ calls st' = S (calls st) /\ slept st' = slept st.
Proof.
  unfold next_fails, _try_llm_call. destruct (responses st) as [|r rest].
  - intros _. eexists. split; [reflexivity|]. split; reflexivity.
  - intros ->. eexists. split; [reflexivity|]. split; reflexivity.
Qed.

(** X23. When the call to the language model fails, [generate_diagnosis]
    makes one call (none for [_retries = 0]), does not retry or sleep, and
    returns the answer of the fallback ranker, which does not raise. *)
Theorem generate_diagnosis_offline (PRIMARY_MODEL query : pystr)
    (chunks : list chunk) (stage1 : option stage1_prediction) (retries : nat)
    (st : llm_state) :
  next_fails st ->
  exists st' : llm_state,
    generate_diagnosis PRIMARY_MODEL query chunks stage1 retries st
    = (_smart_fallback chunks stage1 query, st')
    /\ calls st' = (calls st + Nat.min 1 retries)%nat
    /\ slept st' = slept st
    /\ is_Some (_smart_fallback chunks stage1 query).
Proof.
  intros Hf. unfold generate_diagnosis, MODELS, FALLBACK_MODELS. simpl.
  destruct retries as [|n]; simpl.
  - exists st. split; [reflexivity|]. split; [lia|]. split; [reflexivity|].
    apply smart_fallback_returns.
  - destruct (failing_call st Hf) as (st' & -> & Hc & Hs).
    exists st'. split; [reflexivity|]. split; [lia|]. split; [exact Hs|].
    apply smart_fallback_returns.
Qed.

Lemma try_call_cost (st : llm_state) :
  calls (_try_llm_call st).2 = S (calls st) /\ slept (_try_llm_call st).2 = slept st.
Proof. unfold _try_llm_call. destruct (responses st); split; reflexivity. Qed.

Lemma attempt_loop_cost (remaining : nat) :
  forall (attempt : nat) (st : llm_state),
    let st' := (attempt_loop remaining attempt st).2 in
    (calls st <= calls st' <= calls st + remaining)%nat
    /\ (slept st <= slept st')%nat
    /\ (2 * slept st' <= 2 * slept st + 15 * remaining * (2 * attempt + remaining + 1))%nat.
Proof.
  induction remaining as [|n IH]; intros attempt st; simpl.
  - lia.
  - pose proof (try_call_cost st) as [Hc Hs].
    destruct (_try_llm_call st) as [[raw|] st1]; simpl in *; [|nia].
    assert (G : let st' := (attempt_loop n (S attempt)
                              (if contains (u "429") raw
                               then sleep (15 * (attempt + 1)) st1 else st1)).2 in
                (calls st <= calls st' <= calls st + S n)%nat
                /\ (slept st <= slept st')%nat
                /\ (2 * slept st'
                    <= 2 * slept st + 15 * S n * (2 * attempt + S n + 1))%nat).
    { specialize (IH (S attempt)
                     (if contains (u "429") raw
                      then sleep (15 * (attempt + 1)) st1 else st1)).
      simpl in IH. destruct (contains (u "429") raw); simpl in IH; simpl; nia. }
    destruct (_extract_json raw) as [[|[k v] result']|]; try exact G.
    match goal with
    | |- context [match ?x with Some _ => _ | None => _ end] => destruct x
    end; [simpl; nia|exact G].
Qed.

(** X24. The cost of [generate_diagnosis]: at most [_retries] calls to the
    language model, and a total sleep of at most 15 (1 + ... + _retries)
    seconds, that is 45 seconds for the two attempts of the default. *)
Theorem generate_diagnosis_cost (PRIMARY_MODEL query : pystr)
    (chunks : list chunk) (stage1 : option stage1_prediction) (retries : nat)
    (st : llm_state) :
  let st' := (generate_diagnosis PRIMARY_MODEL query chunks stage1 retries st).2 in
  (calls st <= calls st' <= calls st + retries)%nat
  /\ (slept st <= slept st')%nat
  /\ (2 * slept st' <= 2 * slept st + 15 * retries * (retries + 1))%nat.
Proof.
  unfold generate_diagnosis, MODELS, FALLBACK_MODELS. simpl.
  pose proof (attempt_loop_cost retries 0 st) as H. simpl in H.
  destruct (attempt_loop retries 0 st) as [[res| |] st1]; simpl in *; nia.
Qed.

Lemma predict_round_codes (raw : pystr) (codes : list pystr)
    (pred : stage1_prediction) :
  predict_round raw = Return (codes, pred) ->
  full_codes pred = list_to_set codes /\ codes <> [].
Proof.
  unfold predict_round.
  destruct (_extract_json raw) as [[|[k v] prediction']|]; try discriminate.
  destruct (odict_get ((k, v) :: prediction') (u "candidates")); [|discriminate].
  destruct (candidate_entries j) as [entries|]; [|discriminate].
  destruct (stripped_codes entries) as [|c cs]; [discriminate|].
  intros [= <- <-]. simpl. split; [reflexivity|discriminate].
Qed.

(** X25. The codes that [predict_candidate_codes] returns all belong to
    the [full_codes] set of the prediction it returns with them, whether
    they come from the language model or from the keyword predictor; the
    function calls the language model exactly once. *)
Theorem predict_codes_in_full (PRIMARY_MODEL query : pystr) (st st' : llm_state)
    (codes : list pystr) (pred : stage1_prediction) :
  predict_candidate_codes PRIMARY_MODEL query st = (Some (codes, pred), st') ->
  Forall (fun c => c ∈ full_codes pred) codes /\ calls st' = S (calls st).
Proof.
  unfold predict_candidate_codes, MODELS, FALLBACK_MODELS. simpl.
  pose proof (try_call_cost st) as [Hc _].
  destruct (_try_llm_call st) as [[raw|] st1]; simpl in Hc.
  - destruct (predict_round raw) as [[codes' pred']| |] eqn:E.
    + intros [= <- <- <-]. split; [|exact Hc].
      apply predict_round_codes in E. destruct E as (-> & _).
      apply Forall_forall. intros c Hin. set_solver.
    + discriminate.
    + pose proof (local_predict_facts query) as (_ & _ & H & _).
      destruct (local_predict_codes_full query) as [local full].
      intros [= <- <- <-]. split; [|exact Hc].
      apply Forall_forall. intros c Hin. apply H, list_elem_of_In, Hin.
  - pose proof (local_predict_facts query) as (_ & _ & H & _).
    destruct (local_predict_codes_full query) as [local full].
    intros [= <- <- <-]. split; [|exact Hc].
    apply Forall_forall. intros c Hin. apply H, list_elem_of_In, Hin.
Qed.


End LanguageModelFacts.

Section Pipeline.
Context {U : Unicode} {O : Oracles}.



(** X27. Without the language model the service still answers: when the
    lexical ranking lists only valid indices and the calls of the code
    prediction and of the diagnosis fail, [diagnose] returns a result with
    exactly three diagnoses ranked 1, 2, 3, whatever the symptoms and
    whatever the answer to the HyDE call. *)
Theorem diagnose_offline (self : HybridRetriever) (D : gset pystr)
    (PRIMARY_MODEL symptoms : pystr) (st_codes st_hyde st_diagnosis : llm_state) :
  (forall q : pystr, Forall (fun i => (i < length (chunks self))%nat) (bm25_order q)) ->
  next_fails st_codes -> next_fails st_diagnosis ->
  exists (r : odict json) (e1 e2 e3 : json),
    diagnose self D PRIMARY_MODEL symptoms st_codes st_hyde st_diagnosis = Some r
    /\ odict_get r (u "diagnoses") = Some (JArr [e1; e2; e3])
    /\ entry_ok 1 e1 /\ entry_ok 2 e2 /\ entry_ok 3 e3.
Proof.
  intros Hb Hc Hd. unfold diagnose.
  assert (Hp : exists res, (predict_candidate_codes PRIMARY_MODEL symptoms st_codes).1
                           = Some res).
  { unfold predict_candidate_codes, MODELS, FALLBACK_MODELS. simpl.
    destruct (failing_call st_codes Hc) as (st' & -> & _).
    destruct (local_predict_codes_full symptoms). simpl. eauto. }
  destruct Hp as [[codes stage1] ->]. simpl.
  match goal with |- context [retrieve self D symptoms ?c ?k ?h ?e] =>
    destruct (retrieve_total self D symptoms c k h e Hb) as (chunks & -> & _)
  end.
  simpl.
  destruct (smart_fallback_returns chunks (Some stage1) symptoms) as [r Hr].
  unfold generate_diagnosis, MODELS, FALLBACK_MODELS. simpl.
  destruct (failing_call st_diagnosis Hd) as (st' & -> & _). simpl.
  rewrite Hr. destruct (ensure_three_entries _ _ Hr) as (e1 & e2 & e3 & H).
  exists r, e1, e2, e3. split; [reflexivity|exact H].
Qed.

End Pipeline.

(** The language model answers with one diagnosis. *)
Lemma generate_diagnosis_three_witness :
  let st := {| responses := [Some (json_text "{'diagnoses': [{'diagnosis': 'flu'}]}")];
               calls := 0; slept := 0 |} in
  let out := generate_diagnosis (U:=caseless) (u "m") (u "q") [] None 2 st in
  exists e1 e2 e3 : json,
    odict_get (default [] out.1) (u "diagnoses") = Some (JArr [e1; e2; e3])
    /\ entry_ok 1 e1 /\ entry_ok 2 e2 /\ entry_ok 3 e3.
Proof.
  intros st out.
  apply (generate_diagnosis_three (U:=caseless) (u "m") (u "q") [] None 2 st
           out.2 (default [] out.1)).
  vm_compute. reflexivity.
Defined.

(** The language model is unreachable. *)
Lemma generate_diagnosis_offline_witness :
  let st := {| responses := [None]; calls := 0; slept := 0 |} in
  exists st' : llm_state,
    generate_diagnosis (U:=caseless) (u "m") (u "q") [] None 2 st
    = (_smart_fallback (U:=caseless) [] None (u "q"), st')
    /\ calls st' = (calls st + Nat.min 1 2)%nat
    /\ slept st' = slept st
    /\ is_Some (_smart_fallback (U:=caseless) [] None (u "q")).
Proof.
  intros st.
  apply (generate_diagnosis_offline (U:=caseless) (u "m") (u "q") [] None 2 st).
  reflexivity.
Defined.

(** The language model proposes one code, with blanks around it. *)
Lemma predict_codes_in_full_witness :
  let st := {| responses := [Some (json_text "{'candidates': [{'icd10': ' I44.1 '}]}")];
               calls := 0; slept := 0 |} in
  let out := predict_candidate_codes (U:=caseless) (u "m") (u "q") st in
  let res := default ([], {| full_codes := ∅; candidates := [] |}) out.1 in
  Forall (fun c => c ∈ full_codes res.2) res.1 /\ calls out.2 = S (calls st).
Proof.
  intros st out res.
  apply (predict_codes_in_full (U:=caseless) (u "m") (u "q") st out.2 res.1 res.2).
  vm_compute. reflexivity.
Defined.


Lemma diagnose_offline_witness :
  let c0 := evidence_chunk (u "p1") (u "t.pdf") (u "first part") [u "I44.1"] in
  let c1 := evidence_chunk (u "p2") (u "s.pdf") (u "second part") [] in
  let self := __init__ (U:=caseless) [c0; c1] in
  let down := {| responses := []; calls := 0; slept := 0 |} in
  exists (r : odict json) (e1 e2 e3 : json),
    diagnose (U:=caseless) (O:=scoring_oracles) self ∅ (u "m") (u "q")
             down down down = Some r
    /\ odict_get r (u "diagnoses") = Some (JArr [e1; e2; e3])
    /\ entry_ok 1 e1 /\ entry_ok 2 e2 /\ entry_ok 3 e3.
Proof.
  intros c0 c1 self down.
  apply (diagnose_offline (U:=caseless) (O:=scoring_oracles) self ∅ (u "m") (u "q")
           down down down).
  - intros q. repeat constructor.
  - exact I.
  - exact I.
Defined.

(* ====================================================================== *)
(** * indexer.py: cutting a protocol into chunks *)
(* ====================================================================== *)

Lemma lstrip_length (s : pystr) : (length (lstrip s) <= length s)%nat.
Proof.
  induction s as [|c s IH]; simpl; [lia|].
  destruct (is_space c); simpl; lia.
Qed.

Lemma strip_length (s : pystr) : (length (strip s) <= length s)%nat.
Proof.
  unfold strip, rstrip. rewrite length_rev.
  pose proof (lstrip_length (rev (lstrip s))) as H. rewrite length_rev in H.
  pose proof (lstrip_length s). lia.
Qed.

Lemma range_step_spec (stop i : nat) :
  In i (range_step stop CHUNK_STEP)
  <-> exists j : nat, i = (j * 900)%nat /\ (j * 900 < stop)%nat.
Proof.
  unfold range_step, CHUNK_STEP. rewrite in_map_iff. split.
  - intros (j & <- & Hj). apply in_seq in Hj. exists j. split; [reflexivity|].
    assert (j < (stop + 900 - 1) / 900)%nat by lia.
    pose proof (Nat.div_mod_eq (stop + 900 - 1) 900).
    pose proof (Nat.mod_upper_bound (stop + 900 - 1) 900). lia.
  - intros (j & -> & Hj). exists j. split; [reflexivity|]. apply in_seq.
    pose proof (Nat.div_mod_eq (stop + 900 - 1) 900).
    pose proof (Nat.mod_upper_bound (stop + 900 - 1) 900). lia.
Qed.

Lemma body_chunk_spec (doc : document) (prefix t : pystr) (i : nat)
    (m : chunk_meta) (e : pystr) :
  In (m, e) (body_chunk doc prefix t i)
  <-> m = meta_of doc (take CHUNK_SIZE (drop i t)) (Z.of_nat i) false
      /\ e = prefix ++ take CHUNK_SIZE (drop i t)
      /\ (80 < length (take CHUNK_SIZE (drop i t)))%nat.
Proof.
  unfold body_chunk. case_decide as H; simpl.
  - split.
    + intros [[= <- <-]|[]]. auto.
    + intros (-> & -> & _). left. reflexivity.
  - split; [intros []|]. intros (_ & _ & H'). lia.
Qed.

Lemma chunk_doc_facts (doc : document) (t : pystr) :
  doc_text doc = Some t ->
  exists rs : list (chunk_meta * pystr),
    chunk_doc doc = Some rs
    /\ Forall
         (fun p : chunk_meta * pystr =>
            p.2 = make_icd_prefix doc ++ text (meta p.1)
            /\ protocol_id (meta p.1) = doc_protocol_id doc
            /\ icd_codes (meta p.1) = doc_icd_codes doc
            /\ if is_header p.1
               then chunk_idx p.1 = (-1)%Z
                    /\ text (meta p.1) = strip (take 500 t)
                    /\ (60 < length (text (meta p.1)))%nat
               else exists j : nat,
                      chunk_idx p.1 = Z.of_nat (j * 900)
                      /\ text (meta p.1) = take 1200 (drop (j * 900) t)
                      /\ (80 < length (text (meta p.1)) <= 1200)%nat)
         rs
    /\ Forall (fun p : chunk_meta * pystr => is_header p.1 = false) (tail rs)
    /\ ((exists p, head rs = Some p /\ is_header p.1 = true)
        <-> (60 < length (strip (take 500 t)))%nat).
Proof.
  intros Ht. unfold chunk_doc. rewrite Ht. simpl.
  eexists. split; [reflexivity|].
  assert (Hbody : Forall
            (fun p : chunk_meta * pystr =>
               is_header p.1 = false
               /\ p.2 = make_icd_prefix doc ++ text (meta p.1)
               /\ protocol_id (meta p.1) = doc_protocol_id doc
               /\ icd_codes (meta p.1) = doc_icd_codes doc
               /\ exists j : nat,
                    chunk_idx p.1 = Z.of_nat (j * 900)
                    /\ text (meta p.1) = take 1200 (drop (j * 900) t)
                    /\ (80 < length (text (meta p.1)) <= 1200)%nat)
            (flat_map (body_chunk doc (make_icd_prefix doc) t)
                      (range_step (length t) CHUNK_STEP))).
  { apply Forall_forall. intros [m e] Hin.
    apply list_elem_of_In, in_flat_map in Hin. destruct Hin as (i & Hi & Hin).
    apply range_step_spec in Hi. destruct Hi as (j & -> & _).
    apply body_chunk_spec in Hin. destruct Hin as (-> & -> & Hlen).
    simpl. split; [reflexivity|]. split; [reflexivity|]. split; [reflexivity|].
    split; [reflexivity|]. exists j. split; [reflexivity|]. split; [reflexivity|].
    split; [exact Hlen|]. unfold CHUNK_SIZE. rewrite length_take. lia. }
  assert (Hb' : Forall (fun p : chunk_meta * pystr => is_header p.1 = false)
                  (flat_map (body_chunk doc (make_icd_prefix doc) t)
                            (range_step (length t) CHUNK_STEP))).
  { eapply Forall_impl; [exact Hbody|]. intros p H. apply H. }
  revert Hbody Hb'.
  generalize (flat_map (body_chunk doc (make_icd_prefix doc) t)
                       (range_step (length t) CHUNK_STEP)).
  intros body Hbody Hb'.
  assert (Hall : Forall
            (fun p : chunk_meta * pystr =>
               p.2 = make_icd_prefix doc ++ text (meta p.1)
               /\ protocol_id (meta p.1) = doc_protocol_id doc
               /\ icd_codes (meta p.1) = doc_icd_codes doc
               /\ (if is_header p.1
                   then chunk_idx p.1 = (-1)%Z
                        /\ text (meta p.1) = strip (take 500 t)
                        /\ (60 < length (text (meta p.1)))%nat
                   else exists j : nat,
                          chunk_idx p.1 = Z.of_nat (j * 900)
                          /\ text (meta p.1) = take 1200 (drop (j * 900) t)
                          /\ (80 < length (text (meta p.1)) <= 1200)%nat))
            body).
  { eapply Forall_impl; [exact Hbody|]. intros p (Hh & H1 & H2 & H3 & H4).
    rewrite Hh. auto. }
  case_decide as Hhead; simpl.
  - split; [constructor; [simpl; repeat split; solve [reflexivity|exact Hhead]
                         |exact Hall]|].
    split; [exact Hb'|]. split; [intros _; exact Hhead|].
    intros _. eexists. split; reflexivity.
  - split; [exact Hall|]. split.
    + destruct body as [|p body]; [constructor|]. simpl.
      apply Forall_cons in Hb'. tauto.
    + split; [|intros H; lia]. intros (p & Hp & Hh). exfalso.
      destruct body as [|p' body]; [discriminate|]. simpl in Hp. injection Hp as ->.
      apply Forall_cons in Hb'. destruct Hb' as [Hb' _]. congruence.
Qed.

(** X28. The chunks of a protocol: each carries the identifier and the
    codes of the protocol and is embedded as the code prefix followed by
    its text; a body chunk starts at a multiple of 900 and holds the next
    1200 characters of the text, more than 80 of them; a header chunk, the
    stripped first 500 characters, comes first and only when it has more
    than 60 characters. *)
Theorem chunk_doc_chunks (doc : document) (t : pystr) :
  doc_text doc = Some t ->
  exists rs : list (chunk_meta * pystr),
    chunk_doc doc = Some rs
    /\ Forall
         (fun p : chunk_meta * pystr =>
            p.2 = make_icd_prefix doc ++ text (meta p.1)
            /\ protocol_id (meta p.1) = doc_protocol_id doc
            /\ icd_codes (meta p.1) = doc_icd_codes doc
            /\ if is_header p.1
               then chunk_idx p.1 = (-1)%Z
                    /\ text (meta p.1) = strip (take 500 t)
                    /\ (60 < length (text (meta p.1)))%nat
               else exists j : nat,
                      chunk_idx p.1 = Z.of_nat (j * 900)
                      /\ text (meta p.1) = take 1200 (drop (j * 900) t)
                      /\ (80 < length (text (meta p.1)) <= 1200)%nat)
         rs
    /\ Forall (fun p : chunk_meta * pystr => is_header p.1 = false) (tail rs)
    /\ ((exists p, head rs = Some p /\ is_header p.1 = true)
        <-> (60 < length (strip (take 500 t)))%nat).
Proof. apply chunk_doc_facts. Qed.

(** X29. The body chunks cover the text: in a text of more than 80
    characters every position lies in a body chunk that is kept, and the
    chunk holds there the character of the text. *)
Theorem chunk_doc_covers (doc : document) (t : pystr) (p : nat) :
  doc_text doc = Some t -> (80 < length t)%nat -> (p < length t)%nat ->
  exists (rs : list (chunk_meta * pystr)) (m : chunk_meta) (e : pystr) (i : nat),
    chunk_doc doc = Some rs /\ In (m, e) rs
    /\ is_header m = false /\ chunk_idx m = Z.of_nat i
    /\ (i <= p < i + length (text (meta m)))%nat
    /\ text (meta m) !! (p - i)%nat = t !! p.
Proof.
  intros Ht Hlen Hp. unfold chunk_doc. rewrite Ht. simpl.
  assert (Hwin : forall i : nat,
             length (take CHUNK_SIZE (drop i t)) = Nat.min 1200 (length t - i)).
  { intros i. unfold CHUNK_SIZE. rewrite length_take, length_drop. reflexivity. }
  assert (Hi : exists j : nat,
             (j * 900 < length t)%nat /\ (j * 900 <= p)%nat
             /\ (p < j * 900 + Nat.min 1200 (length t - j * 900))%nat
             /\ (80 < Nat.min 1200 (length t - j * 900))%nat).
  { pose proof (Nat.div_mod_eq p 900) as Hd.
    pose proof (Nat.mod_upper_bound p 900) as Hm.
    destruct (le_lt_dec (length t - (p / 900) * 900) 80) as [Hs|Hs].
    - destruct (p / 900)%nat as [|j] eqn:Ej; [lia|]. exists j. lia.
    - exists (p / 900)%nat. lia. }
  destruct Hi as (j & Hj & Hle & Hlt & Hkeep).
  eexists _, (meta_of doc (take CHUNK_SIZE (drop (j * 900) t)) (Z.of_nat (j * 900)) false),
    _, (j * 900)%nat.
  split; [reflexivity|]. split.
  - apply in_or_app. right. apply in_flat_map. exists (j * 900)%nat. split.
    + apply range_step_spec. eauto.
    + apply body_chunk_spec. split; [reflexivity|]. split; [reflexivity|].
      rewrite Hwin. exact Hkeep.
  - simpl. split; [reflexivity|]. split; [reflexivity|].
    rewrite Hwin. split; [lia|].
    unfold CHUNK_SIZE.
    etransitivity; [apply (lookup_take_lt (drop (j * 900) t) 1200 (p - j * 900)); lia|].
    etransitivity; [apply (lookup_drop t (j * 900) (p - j * 900))|].
    f_equal. lia.
Qed.

(** X30. A protocol whose text has at most 60 characters yields no chunk
    at all: it is absent from the index. *)
Theorem short_document_dropped (doc : document) (t : pystr) :
  doc_text doc = Some t -> (length t <= 60)%nat -> chunk_doc doc = Some [].
Proof.
  intros Ht Hlen. unfold chunk_doc. rewrite Ht. simpl.
  pose proof (strip_length (take 500 t)) as Hs. rewrite length_take in Hs.
  rewrite decide_False by lia. simpl. f_equal.
  assert (H : forall l : list nat,
             flat_map (body_chunk doc (make_icd_prefix doc) t) l = []).
  { induction l as [|i l IH]; simpl; [reflexivity|]. rewrite IH.
    unfold body_chunk, CHUNK_SIZE. rewrite decide_False; [reflexivity|].
    rewrite length_take, length_drop. lia. }
  apply H.
Qed.

(** A text of one thousand letters: a header chunk of 500 letters, then
    the body chunks that start at 0 (1000 letters) and at 900 (100
    letters). *)
Lemma chunk_doc_chunks_witness :
  let t := List.repeat 97%N 1000 in
  let doc := {| doc_protocol_id := Some (u "p1"); doc_source_file := u "t.pdf";
                doc_icd_codes := [CStr (u "I44.1")];
                doc_text := Some t |} in
  (map (fun p : chunk_meta * pystr =>
          (chunk_idx p.1, is_header p.1, length (text (meta p.1))))
     <$> chunk_doc doc)
  = Some [((-1)%Z, true, 500%nat); (0%Z, false, 1000%nat); (900%Z, false, 100%nat)]
  /\ exists rs : list (chunk_meta * pystr),
       chunk_doc doc = Some rs
       /\ Forall
            (fun p : chunk_meta * pystr =>
               p.2 = make_icd_prefix doc ++ text (meta p.1)
               /\ protocol_id (meta p.1) = doc_protocol_id doc
               /\ icd_codes (meta p.1) = doc_icd_codes doc
               /\ if is_header p.1
                  then chunk_idx p.1 = (-1)%Z
                       /\ text (meta p.1) = strip (take 500 t)
                       /\ (60 < length (text (meta p.1)))%nat
                  else exists j : nat,
                         chunk_idx p.1 = Z.of_nat (j * 900)
                         /\ text (meta p.1) = take 1200 (drop (j * 900) t)
                         /\ (80 < length (text (meta p.1)) <= 1200)%nat)
            rs
       /\ Forall (fun p : chunk_meta * pystr => is_header p.1 = false) (tail rs)
       /\ ((exists p, head rs = Some p /\ is_header p.1 = true)
           <-> (60 < length (strip (take 500 t)))%nat).
Proof.
  intros t doc. split.
  - vm_compute. reflexivity.
  - apply (chunk_doc_chunks doc t). reflexivity.
Defined.

Lemma short_document_dropped_witness :
  let doc := {| doc_protocol_id := Some (u "p1"); doc_source_file := u "t.pdf";
                doc_icd_codes := []; doc_text := Some (u "short text") |} in
  chunk_doc doc = Some [].
Proof.
  intros doc. apply (short_document_dropped doc (u "short text")).
  - reflexivity.
  - vm_compute. lia.
Defined.

(** A text of one hundred letters, and its last position. *)
Lemma chunk_doc_covers_witness :
  let t := List.repeat 97%N 100 in
  let doc := {| doc_protocol_id := Some (u "p1"); doc_source_file := u "t.pdf";
                doc_icd_codes := []; doc_text := Some t |} in
  exists (rs : list (chunk_meta * pystr)) (m : chunk_meta) (e : pystr) (i : nat),
    chunk_doc doc = Some rs /\ In (m, e) rs
    /\ is_header m = false /\ chunk_idx m = Z.of_nat i
    /\ (i <= 99 < i + length (text (meta m)))%nat
    /\ text (meta m) !! (99 - i)%nat = t !! 99%nat.
Proof.
  intros t doc. apply (chunk_doc_covers doc t 99).
  - reflexivity.
  - vm_compute. lia.
  - vm_compute. lia.
Defined.
